(** * bloomspan: frequent contiguous phrase mining

    A shallow embedding of the two mining engines of the repository and of
    the pieces of the loader and of the CSV writer that the properties
    below talk about:

    - [GME]: the greedy maximal extension miner of [src/corpus_miner.cpp];
    - [CPS]: the contiguous PrefixSpan miner of
      [src/prefixspan/corpus_miner.cpp];
    - [Loader]: the loaders of that miner ([load_csv], [load_directory])
      with the tables they fill.

    Conventions.  Vector indices and sizes ([size_t], [uint32_t] document
    ids and positions) are [nat]; every 32-bit addition or truncation of
    the source is written with [u32].  The [int] parameters [min_docs] and
    [ngrams] are [Z], and the conversions the source applies to them
    ([(size_t)], [static_cast<uint32_t>]) are written with [to_size_t] and
    [to_uint32].  A loop [for (uint32_t i = 0; i < v.size(); ++i)] is a
    traversal of [seq 0 (length v)]: the corpus is taken to have fewer than
    2^32 documents ([corpus_fits] states the bound where a proof needs it).

    [std::unordered_map] and [std::unordered_set] are association lists
    and lists kept in insertion order; the order in which the library
    iterates over them is left open and enters every definition as a
    function ([seeds_order], [next_order], ...) applied to the container
    before it is traversed.

    The header [tokenizer.h] of the PrefixSpan miner is not among the
    sources: its functions [tokenize] and [tokenize_utf16] enter the
    loaders of that miner as the functions [tokenize_bytes],
    [tokenize_utf16] and [tokenize_row]. *)

From Stdlib Require Import String Ascii DecimalString.
From Stdlib Require Import List ZArith Lia Bool Arith Permutation Sorted.
Import ListNotations.

Local Open Scope nat_scope.

(** ** Machine integers *)

(** Reduction of a size to 32 bits, as in [uint32_t x = a + b]. *)
Definition u32 (n : nat) : nat := Z.to_nat (Z.of_nat n mod 2 ^ 32).

(** [(size_t) i] for an [int] [i] on a 64-bit target. *)
Definition to_size_t (i : Z) : Z := i mod 2 ^ 64.

(** [static_cast<uint32_t>(i)] for an [int] [i]. *)
Definition to_uint32 (i : Z) : Z := i mod 2 ^ 32.

(** The values of type [int]. *)
Definition is_int (i : Z) : Prop := (- 2 ^ 31 <= i < 2 ^ 31)%Z.

(** Token ids are [uint32_t] values that are only ever compared. *)
Abbreviation token := nat (only parsing).

Definition corpus := list (list token).

(** Every document, and the corpus itself, has a 32-bit size. *)
Definition corpus_fits (docs : corpus) : Prop :=
  (Z.of_nat (length docs) < 2 ^ 32)%Z /\
  Forall (fun d => (Z.of_nat (length d) < 2 ^ 32)%Z) docs.

(** Equality of two token sequences (whole contents). *)
Fixpoint tokens_eqb (a b : list token) : bool :=
  match a, b with
  | [], [] => true
  | x :: a', y :: b' => Nat.eqb x y && tokens_eqb a' b'
  | _, _ => false
  end.

(** [docs[d]]; the engines only index documents that exist. *)
Definition doc_at (docs : corpus) (d : nat) : list token := nth d docs [].

(** Length of the longest document. *)
Definition longest (docs : corpus) : nat :=
  fold_right (fun d m => Nat.max (length d) m) 0 docs.

(** ** Outcomes of a computation *)

Inductive outcome (A : Type) : Type :=
| Done (a : A)
| OutOfRange   (* a vector was read past its end *)
| OutOfFuel.   (* the loop budget of the model was too small *)

Arguments Done {A} a.
Arguments OutOfRange {A}.
Arguments OutOfFuel {A}.

Definition bind {A B : Type} (c : outcome A) (k : A -> outcome B) : outcome B :=
  match c with
  | Done a => k a
  | OutOfRange => OutOfRange
  | OutOfFuel => OutOfFuel
  end.

Notation "x <- c ;; k" := (bind c (fun x => k))
  (at level 61, c at next level, right associativity).

(** ** Containers *)

(** An operation [f] on the vector [m[k]] of a map from keys to vectors:
    as [operator[]] does, a key met for the first time is entered, after
    the existing ones, with an empty vector. *)
Fixpoint update_at {K V : Type} (eqb : K -> K -> bool) (k : K)
    (f : list V -> list V) (m : list (K * list V)) : list (K * list V) :=
  match m with
  | [] => [(k, f [])]
  | (k', vs) :: m' =>
      if eqb k k' then (k', f vs) :: m'
      else (k', vs) :: update_at eqb k f m'
  end.

(** [m[k].push_back(v)]. *)
Definition push_at {K V : Type} (eqb : K -> K -> bool) (k : K) (v : V)
    (m : list (K * list V)) : list (K * list V) :=
  update_at eqb k (fun vs => vs ++ [v]) m.

(** [s.insert(x)] on a [std::unordered_set<uint32_t>]. *)
Definition set_insert (s : list nat) (x : nat) : list nat :=
  if existsb (Nat.eqb x) s then s else s ++ [x].

(** The set built by [for (auto& o : l) unique_docs.insert(o)]. *)
Definition unique_docs (l : list nat) : list nat := fold_left set_insert l [].

(** Insertion sort for a [std::sort] call with comparator [comp] ([comp a b]:
    [a] goes before [b]).  [std::sort] leaves the order of equivalent
    elements open; here an element stays behind the equivalent ones that
    preceded it. *)
Fixpoint sort_insert {A : Type} (comp : A -> A -> bool) (x : A) (l : list A) : list A :=
  match l with
  | [] => [x]
  | y :: l' => if comp x y then x :: y :: l' else y :: sort_insert comp x l'
  end.

Definition std_sort {A : Type} (comp : A -> A -> bool) (l : list A) : list A :=
  fold_left (fun acc x => sort_insert comp x acc) l [].

(** The order a sorted range has: [b], placed after [a], does not have to
    go before it. *)
Definition precedes {A : Type} (comp : A -> A -> bool) (a b : A) : Prop :=
  comp b a = false.

(** [v[i] = x] on a vector, for [i] in range. *)
Fixpoint set_nth {A : Type} (i : nat) (x : A) (v : list A) : list A :=
  match v, i with
  | [], _ => []
  | _ :: v', 0 => x :: v'
  | y :: v', S i' => y :: set_nth i' x v'
  end.

(** ** Text *)

Definition dquote : string := String (ascii_of_nat 34) EmptyString.
Definition newline : string := String (ascii_of_nat 10) EmptyString.

(** [f << n] for an unsigned integer. *)
Definition decimal (n : nat) : string := NilEmpty.string_of_uint (Nat.to_uint n).

Definition csv_header : string := ("phrase,freq,length,example_files" ++ newline)%string.

(** [std::isalnum] and [std::tolower] in the default locale. *)
Definition isalnum (c : ascii) : bool :=
  let n := nat_of_ascii c in
  ((48 <=? n) && (n <=? 57)) || ((65 <=? n) && (n <=? 90)) || ((97 <=? n) && (n <=? 122)).

Definition tolower (c : ascii) : ascii :=
  let n := nat_of_ascii c in
  if (65 <=? n) && (n <=? 90) then ascii_of_nat (n + 32) else c.

(** [tokenize] of [tokenizer.h]: the loop over the bytes of [text], with
    the word being built and the words found so far. *)
Fixpoint tokenize_from (text current : string) (tokens : list string) : list string :=
  match text with
  | EmptyString =>
      match current with
      | EmptyString => tokens
      | String _ _ => tokens ++ [current]
      end
  | String c rest =>
      if isalnum c
      then tokenize_from rest (current ++ String (tolower c) EmptyString)%string tokens
      else
        match current with
        | EmptyString => tokenize_from rest current tokens
        | String _ _ => tokenize_from rest EmptyString (tokens ++ [current])
        end
  end.

Definition tokenize (text : string) : list string := tokenize_from text EmptyString [].

(** ** The corpus loader: dictionary and encoding *)

(** The fields of a [CorpusMiner] that reach the output of [mine].  The
    document-frequency table, the cache and the offsets of the binary
    corpus file of the PrefixSpan variant do not, and are left out;
    [docs] holds the encoded documents whether they were kept in memory or
    read back by [load_all_from_bin]. *)
Record Miner : Type :=
  mkMiner {
    word_to_id : list (string * nat);
    id_to_word : list string;
    docs : corpus;
    file_paths : list string
  }.

Definition empty_miner : Miner := mkMiner [] [] [] [].

(** [word_to_id.find(w)]. *)
Fixpoint find_word (w : string) (m : list (string * nat)) : option nat :=
  match m with
  | [] => None
  | (w', id) :: m' => if String.eqb w w' then Some id else find_word w m'
  end.

(** Phase II for one word: the dictionary and the encoded document so far. *)
Definition encode_word (acc : list (string * nat) * list string * list token)
    (w : string) : list (string * nat) * list string * list token :=
  let '(w2i, i2w, encoded) := acc in
  match find_word w w2i with
  | None =>
      let new_id := u32 (length i2w) in
      (w2i ++ [(w, new_id)], i2w ++ [w], encoded ++ [new_id])
  | Some id => (w2i, i2w, encoded ++ [id])
  end.

(** Phase II for one file: its path and its words. *)
Definition encode_doc (m : Miner) (file : string * list string) : Miner :=
  let '(w2i, i2w, encoded) :=
    fold_left encode_word (snd file) (word_to_id m, id_to_word m, []) in
  mkMiner w2i i2w (docs m ++ [encoded]) (file_paths m ++ [fst file]).

(** ** The greedy maximal extension engine ([src/corpus_miner.cpp]) *)

Module GME.

(** Modelled from the spec: the declaration of [Occurrence] used by
    [src/corpus_miner.cpp], whose header is not among the sources.  An
    occurrence is a pair [(doc_id, pos)]: the phrase begins at offset [pos]
    of document [doc_id]. *)
Record Occurrence : Type := mkOcc { doc_id : nat; pos : nat }.

(** Modelled from the spec: the declaration of [Phrase] used by
    [src/corpus_miner.cpp], whose header is not among the sources.  A
    phrase carries its tokens, its occurrences and its support, in the
    order in which [mine] lists them when it builds a candidate.  The
    hasher of the map [seeds] is declared in the same header; the model
    compares keys by their contents. *)
Record Phrase : Type :=
  mkPhrase { tokens : list token; occs : list Occurrence; support : nat }.

(** [unique_docs.size()] for the documents of a vector of occurrences. *)
Definition distinct_docs (os : list Occurrence) : nat :=
  length (unique_docs (map doc_id os)).

(** The result of one scan of the candidate next words. *)
Record Best : Type :=
  mkBest { best_word : token; max_support : nat; best_next_occs : list Occurrence }.

Section Engine.

(** Iteration order of the map [seeds] and of the map [next_word_occs]. *)
Variable seeds_order :
  list (list token * list Occurrence) -> list (list token * list Occurrence).
Variable next_order :
  list (token * list Occurrence) -> list (token * list Occurrence).

(** [stop_requested c]: the value of [g_stop_requested] when it is read
    at the top of the iteration for candidate number [c]. *)
Variable stop_requested : nat -> bool.

Variable docs : corpus.
Variable min_docs : Z.
Variable ngrams : Z.

(** The inner loop of step 1: [ngram.push_back(docs[d][p + i])]. *)
Definition ngram_at (doc : list token) (p : nat) : list token :=
  map (fun i => nth (u32 (p + i)) doc 0) (seq 0 (Z.to_nat ngrams)).

(** Step 1 for one document [d]: positions [0 .. docs[d].size() - ngrams],
    the subtraction being one of [size_t] values.  The counter [p] of the
    source has 32 bits; the loop is taken to reach its bound. *)
Definition seeds_of_doc (seeds : list (list token * list Occurrence)) (d : nat)
    : list (list token * list Occurrence) :=
  let doc := doc_at docs d in
  if (Z.of_nat (length doc) <? to_size_t ngrams)%Z then seeds
  else
    let last := Z.to_nat ((Z.of_nat (length doc) - to_size_t ngrams) mod 2 ^ 64) in
    fold_left
      (fun s p => push_at tokens_eqb (ngram_at doc p) (mkOcc d p) s)
      (seq 0 (S last)) seeds.

Definition gather_seeds : list (list token * list Occurrence) :=
  fold_left seeds_of_doc (seq 0 (length docs)) [].

(** The seeds kept as candidates. *)
Definition candidates : list Phrase :=
  fold_left
    (fun cs entry =>
       let u := distinct_docs (snd entry) in
       if (to_size_t min_docs <=? Z.of_nat u)%Z
       then cs ++ [mkPhrase (fst entry) (snd entry) u]
       else cs)
    (seeds_order gather_seeds) [].

(** Step 2: [a.support > b.support]. *)
Definition by_support (a b : Phrase) : bool := support b <? support a.

(** The map from next word to the occurrences followed by it. *)
Definition next_word_occs (cand : Phrase) : list (token * list Occurrence) :=
  fold_left
    (fun m o =>
       let np := u32 (pos o + length (tokens cand)) in
       let doc := doc_at docs (doc_id o) in
       if np <? length doc then push_at Nat.eqb (nth np doc 0) o m else m)
    (occs cand) [].

(** The scan for the best next word, over the entries in the order in
    which the map yields them. *)
Definition select_step (b : Best) (entry : token * list Occurrence) : Best :=
  let u := distinct_docs (snd entry) in
  if (to_size_t min_docs <=? Z.of_nat u)%Z && (max_support b <=? u)
  then mkBest (fst entry) u (snd entry)
  else b.

Definition select_best (entries : list (token * list Occurrence)) : Best :=
  fold_left select_step entries (mkBest 0 0 []).

(** One turn of the [while (true)] loop of step 3: the extended
    candidate, or nothing when the loop is left. *)
Definition extend_once (cand : Phrase) : option Phrase :=
  let b := select_best (next_order (next_word_occs cand)) in
  if 0 <? max_support b
  then Some (mkPhrase (tokens cand ++ [best_word b]) (best_next_occs b) (max_support b))
  else None.

Fixpoint expand (fuel : nat) (cand : Phrase) : outcome Phrase :=
  match fuel with
  | 0 => OutOfFuel
  | S fuel' =>
      match extend_once cand with
      | Some cand' => expand fuel' cand'
      | None => Done cand
      end
  end.

(** The marking structure: per document, one flag per position. *)
Definition processed_init : list (list bool) :=
  map (fun doc => repeat false (length doc)) docs.

(** The freshness test: [skip] stays true when every occurrence starts on
    a marked position; the scan stops at the first free one. *)
Fixpoint all_processed (processed : list (list bool)) (os : list Occurrence)
    : outcome bool :=
  match os with
  | [] => Done true
  | o :: os' =>
      match nth_error processed (doc_id o) with
      | None => OutOfRange
      | Some row =>
          match nth_error row (pos o) with
          | None => OutOfRange
          | Some false => Done false
          | Some true => all_processed processed os'
          end
      end
  end.

Definition mark_occ (len : nat) (processed : list (list bool)) (o : Occurrence)
    : list (list bool) :=
  fold_left
    (fun pr i =>
       let q := u32 (pos o + i) in
       let row := nth (doc_id o) pr [] in
       if q <? length row then set_nth (doc_id o) (set_nth q true row) pr else pr)
    (seq 0 len) processed.

Definition mark (cand : Phrase) (processed : list (list bool)) : list (list bool) :=
  fold_left (mark_occ (length (tokens cand))) (occs cand) processed.

(** The loop over the sorted candidates; [c_idx] is its counter. *)
Fixpoint process (fuel : nat) (cands : list Phrase) (c_idx : nat)
    (processed : list (list bool)) (final : list Phrase)
    : outcome (list Phrase) :=
  match cands with
  | [] => Done final
  | cand :: rest =>
      if stop_requested c_idx then Done final
      else
        skip <- all_processed processed (occs cand) ;;
        if (skip : bool) then process fuel rest (S c_idx) processed final
        else
          cand' <- expand fuel cand ;;
          process fuel rest (S c_idx) (mark cand' processed) (final ++ [cand'])
  end.

(** The vector [final_phrases] that [mine] hands to [save_to_csv]. *)
Definition final_phrases (fuel : nat) : outcome (list Phrase) :=
  process fuel (std_sort by_support candidates) 0 processed_init [].

End Engine.

(** *** Loading and writing ([load_directory], [save_to_csv], [main]) *)

(** What the directory scan meets: a path, whether its extension is
    [.txt], and the bytes of the file when it can be opened. *)
Record DirEntry : Type :=
  mkEntry { path : string; is_txt : bool; content : option string }.

Section Pipeline.

Variable seeds_order :
  list (list token * list Occurrence) -> list (list token * list Occurrence).
Variable next_order :
  list (token * list Occurrence) -> list (token * list Occurrence).
(** Iteration order of the set [d_ids] of [save_to_csv]. *)
Variable ids_order : list nat -> list nat.
Variable stop_requested : nat -> bool.

(** The order in which [std::shuffle] leaves the paths: the generator is
    seeded from [std::random_device], so the order belongs to the run. *)
Variable shuffled : list DirEntry -> list DirEntry.

(** [static_cast<size_t>(total_files * sampling)], a product of
    [double]s, as a function of [total_files]. *)
Variable sample_size : nat -> nat.

Definition load_directory (entries : list DirEntry) (m : Miner) : Miner :=
  let paths := shuffled (filter is_txt entries) in
  let total_files := length paths in
  let n := if total_files <? sample_size total_files
           then total_files else sample_size total_files in
  let paths := firstn n paths in
  let raw_docs :=
    map (fun e => match content e with
                  | Some text => tokenize text
                  | None => []
                  end) paths in
  fold_left encode_doc (combine (map path paths) raw_docs) m.

(** The cells written for the tokens of a phrase. *)
Fixpoint write_tokens (i2w : list string) (toks : list token) : string :=
  match toks with
  | [] => EmptyString
  | [t] => nth t i2w EmptyString
  | t :: rest => (nth t i2w EmptyString ++ " " ++ write_tokens i2w rest)%string
  end.

(** The loop over [d_ids]: it leaves after the second path. *)
Fixpoint write_examples (paths : list string) (ids : list nat) (count : nat) : string :=
  match ids with
  | [] => EmptyString
  | id :: rest =>
      (nth id paths EmptyString
       ++ (if (count <? 1)%nat then "|" else EmptyString)
       ++ (if (1 <? S count)%nat then EmptyString
           else write_examples paths rest (S count)))%string
  end.

Definition csv_row (m : Miner) (p : Phrase) : string :=
  (dquote ++ write_tokens (id_to_word m) (tokens p)
   ++ dquote ++ "," ++ decimal (support p) ++ "," ++ decimal (length (tokens p))
   ++ "," ++ dquote
   ++ write_examples (file_paths m) (ids_order (unique_docs (map doc_id (occs p)))) 0
   ++ dquote ++ newline)%string.

(** The contents of the file written by [save_to_csv]. *)
Definition save_to_csv (m : Miner) (res : list Phrase) : string :=
  (csv_header ++ String.concat EmptyString (map (csv_row m) res))%string.

(** [mine]: the file it writes. *)
Definition mine (m : Miner) (min_docs ngrams : Z) (fuel : nat) : outcome string :=
  res <- final_phrases seeds_order next_order stop_requested (docs m)
           min_docs ngrams fuel ;;
  Done (save_to_csv m res).

(** [main] after its arguments are parsed: the contents of
    [results_max.csv]. *)
Definition main (entries : list DirEntry) (min_docs ngrams : Z) (fuel : nat)
    : outcome string :=
  mine (load_directory entries empty_miner) min_docs ngrams fuel.

End Pipeline.

End GME.

(** ** The contiguous PrefixSpan engine ([src/prefixspan/corpus_miner.cpp]) *)

Module CPS.

(** [Phrase::Occurrence]: a document id only. *)
Record Occurrence : Type := mkOcc { occ_doc_id : nat }.

Record Phrase : Type :=
  mkPhrase { tokens : list token; support : nat; occs : list Occurrence }.

Record Projection : Type :=
  mkProj { doc_id : nat; pos : nat; origin : nat }.

Inductive MiningMode : Type := MODE_ALL | MODE_CLOSED | MODE_MAXIMAL.

(** What the directory scan meets: [path], [extension] and [filename] are
    [entry.path()] and its two parts, and [content] is the bytes of the
    file when [std::ifstream] opens it. *)
Record DirEntry : Type :=
  mkEntry {
    path : string;
    extension : string;
    filename : string;
    is_regular_file : bool;
    content : option string
  }.

(** A byte as an [unsigned char]. *)
Definition byte_value (c : ascii) : Z := Z.of_nat (nat_of_ascii c).

(** The read of two bytes into [bom] on a file that holds [bytes]: the array
    [bom], the bytes that are left to read, and whether the stream is
    still good.  A file of fewer than two bytes fails the read: the bytes
    it has are consumed, [bom] keeps its zeros past them. *)
Definition read_bom (bytes : string) : Z * Z * string * bool :=
  match bytes with
  | String b0 (String b1 rest) => (byte_value b0, byte_value b1, rest, true)
  | String b0 EmptyString => (byte_value b0, 0%Z, EmptyString, false)
  | EmptyString => (0%Z, 0%Z, EmptyString, false)
  end.

(** The [buffer.size() / 2] code units that [memcpy] leaves in
    [u16_content], on a little-endian host. *)
Fixpoint utf16_le (buffer : string) : list Z :=
  match buffer with
  | String lo (String hi rest) =>
      Z.lor (Z.shiftl (byte_value hi) 8) (byte_value lo) :: utf16_le rest
  | _ => []
  end.

(** The code units pushed by the loop over [j] with [j + 1 < buffer.size()]:
    [(buffer[j] << 8) | buffer[j+1]]. *)
Fixpoint utf16_be (buffer : string) : list Z :=
  match buffer with
  | String hi (String lo rest) =>
      Z.lor (Z.shiftl (byte_value hi) 8) (byte_value lo) :: utf16_be rest
  | _ => []
  end.

(** What a run has produced so far: the vector [results], and the number
    of times [g_stop_requested] has been read. *)
Record State : Type := mkState { results : list Phrase; polls : nat }.

(** [v.empty() || v.back() != d]. *)
Definition back_differs (v : list nat) (d : nat) : bool :=
  match v with
  | [] => true
  | _ :: _ => negb (Nat.eqb (last v 0) d)
  end.

(** The body of the scan of [occ_delivery] for token [t] met in document
    [d]: [d] is appended to [item_supports[t]] unless it is already its
    last element. *)
Definition push_if_differs (t : token) (d : nat) (m : list (token * list nat))
    : list (token * list nat) :=
  update_at Nat.eqb t (fun v => if back_differs v d then v ++ [d] else v) m.

Section Engine.

(** Iteration order of the map [item_supports] and of the set
    [unique_docs] of [mine_recursive]. *)
Variable items_order : list (token * list nat) -> list (token * list nat).
Variable docs_order : list nat -> list nat.

(** [stop_requested n]: the value of [g_stop_requested] at its [n]-th
    reading, readings being counted from 0 over the whole run. *)
Variable stop_requested : nat -> bool.

Variable docs : corpus.

(** The fields [min_docs] and [min_length] of the engine ([uint32_t]). *)
Variable min_docs : nat.
Variable min_length : nat.

(** [occ_delivery].  Its two [static] locals are written but never read
    and are left out. *)
Definition occ_delivery (db : list Projection) : list (token * list nat) :=
  fold_left
    (fun item_supports proj =>
       let doc := doc_at docs (doc_id proj) in
       if pos proj <? length doc
       then push_if_differs (nth (pos proj) doc 0) (doc_id proj) item_supports
       else item_supports)
    db [].

(** Step 2 of [mine_recursive]: the pair
    [(has_frequent_extension, has_extension_with_same_support)]. *)
Definition analyse (item_supports : list (token * list nat)) (current_support : nat)
    : bool * bool :=
  fold_left
    (fun flags entry =>
       let support := u32 (length (snd entry)) in
       if min_docs <=? support
       then (true, if support =? current_support then true else snd flags)
       else flags)
    item_supports (false, false).

(** Step 3: the output decision. *)
Definition should_output (prefix : list token) (mode : MiningMode)
    (flags : bool * bool) : bool :=
  if min_length <=? length prefix then
    match mode with
    | MODE_ALL => true
    | MODE_MAXIMAL => negb (fst flags)
    | MODE_CLOSED => negb (snd flags)
    end
  else false.

(** The phrase pushed on [results]. *)
Definition emitted (db : list Projection) (prefix : list token)
    (current_support : nat) : Phrase :=
  mkPhrase prefix current_support
    (map mkOcc (docs_order (unique_docs (map doc_id db)))).

(** The projected database built in step 4 for [token]. *)
Definition next_db (db : list Projection) (tok : token) : list Projection :=
  fold_left
    (fun acc proj =>
       let doc := doc_at docs (doc_id proj) in
       if (pos proj <? length doc) && (nth (pos proj) doc 0 =? tok)
       then
         if u32 (pos proj + 1) <? length doc
         then acc ++ [mkProj (doc_id proj) (u32 (pos proj + 1)) (origin proj)]
         else acc
       else acc)
    db [].

Fixpoint mine_recursive (fuel : nat) (db : list Projection) (prefix : list token)
    (current_support : nat) (mode : MiningMode) (st : State) : outcome State :=
  match fuel with
  | 0 => OutOfFuel
  | S fuel' =>
      if stop_requested (polls st) then Done (mkState (results st) (S (polls st)))
      else
        let item_supports := items_order (occ_delivery db) in
        let flags := analyse item_supports current_support in
        let res :=
          if should_output prefix mode flags
          then results st ++ [emitted db prefix current_support]
          else results st in
        fold_left
          (fun acc entry =>
             st' <- acc ;;
             let support := u32 (length (snd entry)) in
             if min_docs <=? support then
               match next_db db (fst entry) with
               | [] => Done st'
               | p :: ndb =>
                   mine_recursive fuel' (p :: ndb) (prefix ++ [fst entry])
                     support mode st'
               end
             else Done st')
          item_supports (Done (mkState res (S (polls st))))
  end.

(** The database built by [run] before the first call. *)
Definition initial_db : list Projection :=
  flat_map
    (fun i =>
       match doc_at docs i with
       | [] => []
       | _ :: _ => map (fun j => mkProj i j j) (seq 0 (u32 (length (doc_at docs i))))
       end)
    (seq 0 (u32 (length docs))).

(** [initial_docs.size()]. *)
Definition initial_support : nat :=
  u32 (length
         (unique_docs
            (filter (fun i => negb (Nat.eqb (length (doc_at docs i)) 0))
               (seq 0 (u32 (length docs)))))).

Definition run (fuel : nat) (mode : MiningMode) : outcome State :=
  mine_recursive fuel initial_db [] initial_support mode (mkState [] 0).

End Engine.

(** *** Writing ([save_to_csv]) and the entry point ([CorpusMiner::mine]) *)

(** [save_to_csv]: the comparator of its [std::sort] call. *)
Definition by_support_then_length (a b : Phrase) : bool :=
  if negb (support a =? support b) then support b <? support a
  else length (tokens b) <? length (tokens a).

Definition sorted_res (res : list Phrase) : list Phrase :=
  std_sort by_support_then_length res.

(** The cells written for the tokens of a phrase; ids outside the
    dictionary are passed over. *)
Fixpoint write_tokens (i2w : list string) (toks : list token) : string :=
  match toks with
  | [] => EmptyString
  | t :: rest =>
      ((if (t <? length i2w)%nat
        then (nth t i2w EmptyString
              ++ match rest with [] => EmptyString | _ :: _ => " " end)
        else EmptyString)
       ++ write_tokens i2w rest)%string
  end.

(** The loop over [unique_docs]; [size] is [unique_docs.size()]. *)
Fixpoint write_examples (paths : list string) (size : nat) (ids : list nat)
    (count : nat) : string :=
  match ids with
  | [] => EmptyString
  | d_id :: rest =>
      if (d_id <? length paths)%nat then
        (nth d_id paths EmptyString
         ++ (if (2 <=? S count)%nat
             then (if (2 <? size)%nat then "..." else EmptyString)
             else ((if (S count <? size)%nat then "|" else EmptyString)
                   ++ write_examples paths size rest (S count))))%string
      else write_examples paths size rest count
  end.

Section Writer.

Variable items_order : list (token * list nat) -> list (token * list nat).
Variable docs_order : list nat -> list nat.
(** Iteration order of the set [unique_docs] of [save_to_csv]. *)
Variable ids_order : list nat -> list nat.
Variable stop_requested : nat -> bool.

Definition csv_row (m : Miner) (p : Phrase) : string :=
  let ids := unique_docs (map occ_doc_id (occs p)) in
  (dquote ++ write_tokens (id_to_word m) (tokens p)
   ++ dquote ++ "," ++ decimal (support p) ++ "," ++ decimal (length (tokens p))
   ++ "," ++ dquote
   ++ write_examples (file_paths m) (length ids) (ids_order ids) 0
   ++ dquote ++ newline)%string.

(** The contents of the file written by [save_to_csv], once opened. *)
Definition save_to_csv (m : Miner) (res : list Phrase) : string :=
  (csv_header ++ String.concat EmptyString (map (csv_row m) (sorted_res res)))%string.

(** The vector [found_phrases] of [CorpusMiner::mine]. *)
Definition found_phrases (m : Miner) (min_docs ngrams : Z) (fuel : nat)
    : outcome (list Phrase) :=
  st <- run items_order docs_order stop_requested (docs m)
          (Z.to_nat (to_uint32 min_docs)) (Z.to_nat (to_uint32 ngrams))
          fuel MODE_CLOSED ;;
  Done (results st).

(** [CorpusMiner::mine]: the file it writes, if it writes one. *)
Definition mine (m : Miner) (min_docs ngrams : Z) (fuel : nat)
    : outcome (option string) :=
  match file_paths m with
  | [] => Done None
  | _ :: _ =>
      res <- found_phrases m min_docs ngrams fuel ;;
      Done (Some (save_to_csv m res))
  end.

(** The mask set by [set_mask]. *)
Variable file_mask : string.

Definition mask_matches (e : DirEntry) : bool :=
  if String.eqb file_mask EmptyString || String.eqb file_mask "*" then true
  else if (2 <=? String.length file_mask)%nat
          && String.eqb (substring 0 2 file_mask) "*."
  then String.eqb (extension e)
         (substring 1 (String.length file_mask - 1) file_mask)
  else String.eqb (filename e) file_mask.

(** [tokenize] and [tokenize_utf16] of the header [tokenizer.h] of the
    PrefixSpan miner, which is not among the sources: the words of a text
    given as bytes, and as UTF-16 code units. *)
Variable tokenize_bytes : string -> list string.
Variable tokenize_utf16 : list Z -> list string.

(** The first phase of [load_directory] for one file: what it leaves in
    [raw_docs[i]].  Nothing when the file does not open.  After the bytes
    FF FE or FE FF the rest of the file is read as UTF-16.  Otherwise
    [seekg] goes back to the start and the whole file is read; on a file of
    fewer than two bytes the stream has failed, [seekg] does nothing, and
    what is left to read is empty. *)
Definition raw_doc (e : DirEntry) : list string :=
  match content e with
  | None => []
  | Some bytes =>
      let '(bom0, bom1, rest, good) := read_bom bytes in
      if (bom0 =? 255)%Z && (bom1 =? 254)%Z then tokenize_utf16 (utf16_le rest)
      else if (bom0 =? 254)%Z && (bom1 =? 255)%Z then tokenize_utf16 (utf16_be rest)
      else tokenize_bytes (if good then bytes else rest)
  end.

(** The order in which [std::shuffle] leaves the paths: the generator is
    seeded from [std::random_device], so the order belongs to the run. *)
Variable shuffled : list DirEntry -> list DirEntry.

(** [static_cast<size_t>(total_files * sampling)], a product of
    [double]s, as a function of [total_files]. *)
Variable sample_size : nat -> nat.

Definition load_directory (entries : list DirEntry) (m : Miner) : Miner :=
  let paths :=
    shuffled (filter (fun e => is_regular_file e && mask_matches e) entries) in
  let total_files := length paths in
  let n := if total_files <? sample_size total_files
           then total_files else sample_size total_files in
  let paths := firstn n paths in
  let raw_docs := map raw_doc paths in
  fold_left encode_doc (combine (map path paths) raw_docs)
    (mkMiner (word_to_id m) (id_to_word m) [] (file_paths m)).

(** [main] on a directory, after its arguments are parsed: the contents
    of [results_max.csv], if it is written. *)
Definition main (entries : list DirEntry) (min_docs ngrams : Z) (fuel : nat)
    : outcome (option string) :=
  mine (load_directory entries empty_miner) min_docs ngrams fuel.

End Writer.

End CPS.

(** ** The PrefixSpan loader: document frequencies and CSV rows *)

Module Loader.

(** A [CorpusMiner] with the two tables that the loaders of
    [src/prefixspan/corpus_miner.cpp] fill besides the dictionary and the
    documents: [word_df] and [doc_lengths]. *)
Record Tables : Type :=
  mkTables { miner : Miner; word_df : list nat; doc_lengths : list nat }.

Definition empty_tables : Tables := mkTables empty_miner [] [].

(** The body of the loop over the words of document [i].  The state is
    the tables, the local vector [word_last_doc_id] and the vector
    [encoded]; [word_last_doc_id[w_id]] and [word_df[w_id]] are read
    without a check. *)
Definition count_word (i : nat) (st : Tables * list nat * list token) (w : string)
    : outcome (Tables * list nat * list token) :=
  let '(t, word_last_doc_id, encoded) := st in
  let m := miner t in
  let '(w_id, m, df, word_last_doc_id) :=
    match find_word w (word_to_id m) with
    | None =>
        let w_id := u32 (length (id_to_word m)) in
        (w_id,
         mkMiner (word_to_id m ++ [(w, w_id)]) (id_to_word m ++ [w])
           (docs m) (file_paths m),
         word_df t ++ [0], word_last_doc_id ++ [0])
    | Some id => (id, m, word_df t, word_last_doc_id)
    end in
  let encoded := encoded ++ [w_id] in
  match nth_error word_last_doc_id w_id with
  | None => OutOfRange
  | Some seen_in =>
      if seen_in =? u32 (u32 i + 1)
      then Done (mkTables m df (doc_lengths t), word_last_doc_id, encoded)
      else
        match nth_error df w_id with
        | None => OutOfRange
        | Some n =>
            Done (mkTables m (set_nth w_id (u32 (n + 1)) df) (doc_lengths t),
                  set_nth w_id (u32 (u32 i + 1)) word_last_doc_id, encoded)
        end
  end.

(** The body of the loop over the documents, for document [i] with its
    path and its words. *)
Definition count_doc (st : Tables * list nat) (file : nat * (string * list string))
    : outcome (Tables * list nat) :=
  let '(t, word_last_doc_id) := st in
  let i := fst file in
  let m := miner t in
  let t :=
    mkTables
      (mkMiner (word_to_id m) (id_to_word m) (docs m) (file_paths m ++ [fst (snd file)]))
      (word_df t) (doc_lengths t) in
  r <- fold_left (fun acc w => s <- acc ;; count_word i s w) (snd (snd file))
         (Done (t, word_last_doc_id, [])) ;;
  let '(t, word_last_doc_id, encoded) := r in
  let m := miner t in
  Done (mkTables
          (mkMiner (word_to_id m) (id_to_word m) (docs m ++ [encoded]) (file_paths m))
          (word_df t) (doc_lengths t ++ [length encoded]),
        word_last_doc_id).

(** Phase II of both loaders: [word_last_doc_id] starts empty. *)
Definition encode_all (files : list (string * list string)) (t : Tables)
    : outcome Tables :=
  r <- fold_left (fun acc file => s <- acc ;; count_doc s file)
         (combine (seq 0 (length files)) files) (Done (t, [])) ;;
  Done (fst r).

Section Loading.

Variable file_mask : string.
(** [tokenize] and [tokenize_utf16] of the header that is not among the
    sources, as for [CPS.raw_doc]. *)
Variable tokenize_bytes : string -> list string.
Variable tokenize_utf16 : list Z -> list string.
Variable shuffled : list CPS.DirEntry -> list CPS.DirEntry.
Variable sample_size : nat -> nat.

(** [load_directory] with the tables: the files are selected, shuffled and
    sampled, the first phase reads their words, and the second phase
    encodes them; [docs] and [word_df] are cleared, the dictionary,
    [file_paths] and [doc_lengths] are not. *)
Definition load_directory (entries : list CPS.DirEntry) (t : Tables) : outcome Tables :=
  let paths :=
    shuffled
      (filter (fun e => CPS.is_regular_file e && CPS.mask_matches file_mask e) entries) in
  let total_files := length paths in
  let n := if total_files <? sample_size total_files
           then total_files else sample_size total_files in
  let paths := firstn n paths in
  let raw_docs := map (CPS.raw_doc tokenize_bytes tokenize_utf16) paths in
  let m := miner t in
  encode_all (combine (map CPS.path paths) raw_docs)
    (mkTables (mkMiner (word_to_id m) (id_to_word m) [] (file_paths m))
       [] (doc_lengths t)).

End Loading.

(** *** [load_csv] *)

Definition quote_char : ascii := ascii_of_nat 34.
Definition lf_char : ascii := ascii_of_nat 10.
Definition cr_char : ascii := ascii_of_nat 13.

(** [file.peek() == c] on what is left of the file. *)
Definition peek_is (rest : string) (c : ascii) : bool :=
  match rest with
  | EmptyString => false
  | String c' _ => Ascii.eqb c' c
  end.

(** [!currentRow.empty() || !currentField.empty()]. *)
Definition has_text (currentRow currentField : string) : bool :=
  negb (String.eqb currentRow EmptyString) || negb (String.eqb currentField EmptyString).

(** [if (!currentRow.empty()) currentRow += " "; currentRow += currentField]. *)
Definition add_field (currentRow currentField : string) : string :=
  match currentRow with
  | EmptyString => currentField
  | String _ _ => ((currentRow ++ " ") ++ currentField)%string
  end.

(** The loop [while (file.get(c))] of [load_csv] and the flush that follows
    it.  [skip] is set when the body has taken the next byte with
    [file.get()] after looking at it with [file.peek()]: that byte is
    passed over. *)
Fixpoint parse_rows (delimiter : ascii) (text : string) (skip inQuotes : bool)
    (currentRow currentField : string) (rows : list string) : list string :=
  match text with
  | EmptyString =>
      if has_text currentRow currentField
      then rows ++ [add_field currentRow currentField]
      else rows
  | String c rest =>
      if skip then parse_rows delimiter rest false inQuotes currentRow currentField rows
      else if inQuotes then
        if Ascii.eqb c quote_char then
          if peek_is rest quote_char
          then parse_rows delimiter rest true true currentRow
                 (currentField ++ String quote_char EmptyString)%string rows
          else parse_rows delimiter rest false false currentRow currentField rows
        else parse_rows delimiter rest false true currentRow
               (currentField ++ String c EmptyString)%string rows
      else if Ascii.eqb c quote_char
      then parse_rows delimiter rest false true currentRow currentField rows
      else if Ascii.eqb c delimiter
      then parse_rows delimiter rest false false
             (add_field currentRow currentField) EmptyString rows
      else if Ascii.eqb c lf_char || Ascii.eqb c cr_char then
        let skip' := Ascii.eqb c cr_char && peek_is rest lf_char in
        if has_text currentRow currentField
        then parse_rows delimiter rest skip' false EmptyString EmptyString
               (rows ++ [add_field currentRow currentField])
        else parse_rows delimiter rest skip' false currentRow currentField rows
      else parse_rows delimiter rest false false currentRow
             (currentField ++ String c EmptyString)%string rows
  end.

(** The rows of a file. *)
Definition csv_rows (delimiter : ascii) (text : string) : list string :=
  parse_rows delimiter text false false EmptyString EmptyString [].

(** [rows.resize(k)]. *)
Definition resize (k : nat) (rows : list string) : list string :=
  firstn k rows ++ repeat EmptyString (k - length rows).

Section Csv.

(** The order in which [std::shuffle] leaves the rows, and
    [static_cast<size_t>(rows.size() * sampling)] as a function of
    [rows.size()]. *)
Variable shuffled : list string -> list string.
Variable sample_size : nat -> nat.

(** [tokenize] of the header [tokenizer.h] of the PrefixSpan miner, which
    is not among the sources: the words of a row. *)
Variable tokenize_row : string -> list string.

(** [load_csv]; [file] is the contents of the file when it can be opened
    and [sampling_below_one] the value of [sampling < 1.0].  [docs] is
    cleared; the dictionary, [file_paths], [word_df] and [doc_lengths] are
    not. *)
Definition load_csv (file : option string) (delimiter : ascii)
    (sampling_below_one : bool) (t : Tables) : outcome Tables :=
  match file with
  | None => Done t
  | Some text =>
      let rows := csv_rows delimiter text in
      let rows :=
        if sampling_below_one
        then resize (sample_size (length rows)) (shuffled rows)
        else rows in
      let raw_docs := map tokenize_row rows in
      let m := miner t in
      encode_all
        (combine (map (fun i => ("row_" ++ decimal i)%string) (seq 0 (length rows)))
           raw_docs)
        (mkTables (mkMiner (word_to_id m) (id_to_word m) [] (file_paths m))
           (word_df t) (doc_lengths t))
  end.

End Csv.

End Loader.

(** ** Notions used to state the properties *)

(** [pat] is read in [doc] from offset [p] on. *)
Definition matches_at (doc pat : list token) (p : nat) : bool :=
  tokens_eqb (firstn (length pat) (skipn p doc)) pat.

(** [pat] is a contiguous run of [doc]. *)
Definition contains (doc pat : list token) : bool :=
  existsb (matches_at doc pat) (seq 0 (S (length doc))).

(** The number of documents of which [pat] is a contiguous run. *)
Definition doc_support (docs : corpus) (pat : list token) : nat :=
  length (filter (fun doc => contains doc pat) docs).

(** The occurrence [o] of [toks] lies inside its document and reads [toks]. *)
Definition occurs_at (docs : corpus) (toks : list token) (o : GME.Occurrence) : Prop :=
  GME.doc_id o < length docs /\
  GME.pos o + length toks <= length (doc_at docs (GME.doc_id o)) /\
  forall i, i < length toks ->
    nth_error (doc_at docs (GME.doc_id o)) (GME.pos o + i) = nth_error toks i.

(** What the map [m] is after pushing, in order, the elements of [l]
    selected by [ok] under their key: keys are distinct, and the vector of
    a key holds the selected elements with that key, in order. *)
Definition grouped {K V : Type} (eqb : K -> K -> bool) (ok : V -> bool)
    (key : V -> K) (l : list V) (m : list (K * list V)) : Prop :=
  NoDup (map fst m) /\
  (forall k vs, In (k, vs) m ->
     vs <> [] /\ vs = filter (fun x => ok x && eqb (key x) k) l) /\
  (forall x, In x l -> ok x = true -> In (key x) (map fst m)).

(** The threshold test of the greedy engine: [u >= (size_t)min_docs]. *)
Definition reaches (min_docs : Z) (u : nat) : Prop :=
  (to_size_t min_docs <= Z.of_nat u)%Z.

(** In its document, the occurrence [o] of the tokens of [cand] is followed
    by the token [w]. *)
Definition next_is (docs : corpus) (cand : GME.Phrase) (w : token)
    (o : GME.Occurrence) : bool :=
  let np := u32 (GME.pos o + length (GME.tokens cand)) in
  let doc := doc_at docs (GME.doc_id o) in
  (np <? length doc) && (nth np doc 0 =? w).

(** Every occurrence carried by [p] is an occurrence of its tokens. *)
Definition contiguous (docs : corpus) (p : GME.Phrase) : Prop :=
  Forall (occurs_at docs (GME.tokens p)) (GME.occs p).

(** The support of [p] counts the documents of its occurrences and reaches
    the threshold. *)
Definition supported (min_docs : Z) (p : GME.Phrase) : Prop :=
  GME.support p = GME.distinct_docs (GME.occs p) /\
  reaches min_docs (GME.support p).

(** The tokens of its document that a continuation point has not passed. *)
Definition room (docs : corpus) (p : CPS.Projection) : nat :=
  length (doc_at docs (CPS.doc_id p)) - CPS.pos p.

Definition db_room (docs : corpus) (db : list CPS.Projection) : nat :=
  fold_right (fun p m => Nat.max (room docs p) m) 0 db.

(** The continuation point [p] lies inside its document and reads [tok]. *)
Definition reads (docs : corpus) (tok : token) (p : CPS.Projection) : bool :=
  let doc := doc_at docs (CPS.doc_id p) in
  (CPS.pos p <? length doc) && (nth (CPS.pos p) doc 0 =? tok).

(** The continuation point [p] reads [tok] and is not the last position of
    its document. *)
Definition advances (docs : corpus) (tok : token) (p : CPS.Projection) : bool :=
  reads docs tok p
  && (u32 (CPS.pos p + 1) <? length (doc_at docs (CPS.doc_id p))).

(** The point that follows [p] in the projected database of a child. *)
Definition advance (p : CPS.Projection) : CPS.Projection :=
  CPS.mkProj (CPS.doc_id p) (u32 (CPS.pos p + 1)) (CPS.origin p).

(** [prefix] is read in full from the origin of the point [p0], and its
    document goes on after it. *)
Definition reached (docs : corpus) (prefix : list token) (p0 : CPS.Projection) : bool :=
  let doc := doc_at docs (CPS.doc_id p0) in
  matches_at doc prefix (CPS.origin p0)
  && (CPS.origin p0 + length prefix <? length doc).

(** The point [k] tokens after the origin of [p0]. *)
Definition shift (k : nat) (p0 : CPS.Projection) : CPS.Projection :=
  CPS.mkProj (CPS.doc_id p0) (CPS.origin p0 + k) (CPS.origin p0).

(** The continuation points of [prefix]: one for every occurrence of
    [prefix] that does not end its document, in the order of the initial
    database. *)
Definition db_of (docs : corpus) (prefix : list token) : list CPS.Projection :=
  map (shift (length prefix)) (filter (reached docs prefix) (CPS.initial_db docs)).

(** The points of a database come document after document. *)
Definition by_doc (db : list CPS.Projection) : Prop :=
  StronglySorted (fun a b => CPS.doc_id a <= CPS.doc_id b) db.

(** What the map [m] of [occ_delivery] is after the scan of the points
    [l]: under every token met, the documents in which a point reads it,
    each once, the last one being the largest. *)
Definition delivered (docs : corpus) (l : list CPS.Projection)
    (m : list (token * list nat)) : Prop :=
  NoDup (map fst m) /\
  (forall t v, In (t, v) m ->
     v <> [] /\ NoDup v /\
     (forall d, In d v <->
        exists p, In p l /\ reads docs t p = true /\ CPS.doc_id p = d) /\
     (forall p, In p l -> reads docs t p = true -> CPS.doc_id p <= last v 0)) /\
  (forall p t, In p l -> reads docs t p = true -> In t (map fst m)).

(** The occurrence [o] starts on a position of an existing document. *)
Definition starts_inside (docs : corpus) (o : GME.Occurrence) : Prop :=
  GME.doc_id o < length docs /\
  GME.pos o < length (doc_at docs (GME.doc_id o)).

(** The order in which [CPS.save_to_csv] sorts: support descending, then
    length descending. *)
Definition support_then_length_desc (a b : CPS.Phrase) : Prop :=
  CPS.support b < CPS.support a \/
  (CPS.support b = CPS.support a /\
   length (CPS.tokens b) <= length (CPS.tokens a)).

(** Iteration in insertion order, for running the engines on examples. *)
Definition insertion_order {A : Type} (l : list A) : list A := l.

(** The stop flag is never raised. *)
Definition never (_ : nat) : bool := false.

(** All the inputs are kept ([sampling = 1.0]). *)
Definition keep_all (total : nat) : nat := total.

(** *** Words and dictionaries *)

(** A byte that [tokenize] keeps as it is: a digit or a lower-case letter. *)
Definition is_word_char (c : ascii) : bool :=
  let n := nat_of_ascii c in
  ((48 <=? n) && (n <=? 57)) || ((97 <=? n) && (n <=? 122)).

(** Every byte of [s] passes the test [f]. *)
Fixpoint all_chars (f : ascii -> bool) (s : string) : bool :=
  match s with
  | EmptyString => true
  | String c rest => f c && all_chars f rest
  end.

(** A word as [tokenize] produces them: at least one byte, digits and
    lower-case letters only. *)
Definition is_word (w : string) : bool :=
  match w with
  | EmptyString => false
  | String _ _ => all_chars is_word_char w
  end.

(** [text] with every byte replaced by its lower-case form. *)
Fixpoint lower (text : string) : string :=
  match text with
  | EmptyString => EmptyString
  | String c rest => String (tolower c) (lower rest)
  end.

(** The words of [doc] under the dictionary [i2w]. *)
Definition decode (i2w : list string) (doc : list token) : list string :=
  map (fun t => nth t i2w EmptyString) doc.

(** The distinct words of [ws], each at the place of its first occurrence. *)
Definition first_occurrences (ws : list string) : list string :=
  rev (nodup string_dec (rev ws)).

(** The two vectors of the dictionary agree: [w] is mapped to [id] exactly
    when [id] is the index of [w]. *)
Definition dictionary_agrees (m : Miner) : Prop :=
  forall w id,
    find_word w (word_to_id m) = Some id <-> nth_error (id_to_word m) id = Some w.

(** The files that [GME.load_directory] keeps, in the order in which it
    reads them, and the words of a file. *)
Definition gme_sample (shuffled : list GME.DirEntry -> list GME.DirEntry)
    (sample_size : nat -> nat) (entries : list GME.DirEntry) : list GME.DirEntry :=
  let paths := shuffled (filter GME.is_txt entries) in
  firstn (Nat.min (length paths) (sample_size (length paths))) paths.

Definition gme_words (e : GME.DirEntry) : list string :=
  match GME.content e with
  | Some text => tokenize text
  | None => []
  end.

(** The words met so far, the state of [encode_word], and what links them. *)
Definition encoding_ok (seen : list string)
    (st : list (string * nat) * list string * list token) : Prop :=
  let '(w2i, i2w, _) := st in
  i2w = first_occurrences seen /\
  forall w id, find_word w w2i = Some id <-> nth_error i2w id = Some w.

(** The document [doc] holds, in order, the ids that the words [ws] have
    in the dictionary [i2w]. *)
Definition encodes (i2w : list string) (doc : list token) (ws : list string) : Prop :=
  map (nth_error i2w) doc = map Some ws.

(** The number of documents of [raw_docs] that hold the word [w]. *)
Definition doc_frequency (w : string) (raw_docs : list (list string)) : nat :=
  length (filter (fun ws => existsb (String.eqb w) ws) raw_docs).

(** What holds of the tables while document [i] is encoded: [done] are
    the documents encoded before it, [pre] the words of document [i]
    encoded so far, [last] the vector [word_last_doc_id]. *)
Definition counting (i : nat) (done : list (list string)) (pre : list string)
    (t : Loader.Tables) (last : list nat) : Prop :=
  encoding_ok (concat done ++ pre)
    (word_to_id (Loader.miner t), id_to_word (Loader.miner t), []) /\
  length (Loader.word_df t) = length (id_to_word (Loader.miner t)) /\
  length last = length (id_to_word (Loader.miner t)) /\
  forall id w,
    nth_error (id_to_word (Loader.miner t)) id = Some w ->
    nth_error (Loader.word_df t) id
    = Some (doc_frequency w done + (if existsb (String.eqb w) pre then 1 else 0)) /\
    exists l,
      nth_error last id = Some l /\
      if existsb (String.eqb w) pre then l = i + 1 else l <= i.

(** The files that [CPS.load_directory] keeps, in the order in which it
    reads them. *)
Definition cps_sample (file_mask : string)
    (shuffled : list CPS.DirEntry -> list CPS.DirEntry) (sample_size : nat -> nat)
    (entries : list CPS.DirEntry) : list CPS.DirEntry :=
  let paths :=
    shuffled
      (filter (fun e => CPS.is_regular_file e && CPS.mask_matches file_mask e) entries) in
  firstn (Nat.min (length paths) (sample_size (length paths))) paths.

(** The paths that [load_csv] gives to the rows. *)
Definition row_paths (n : nat) : list string :=
  map (fun i => ("row_" ++ decimal i)%string) (seq 0 n).

(** *** CSV files *)

(** A byte that the CSV reader copies into the current field when it is
    met outside quotes. *)
Definition plain_char (delimiter c : ascii) : bool :=
  negb (Ascii.eqb c Loader.quote_char) && negb (Ascii.eqb c delimiter)
  && negb (Ascii.eqb c Loader.lf_char) && negb (Ascii.eqb c Loader.cr_char).

(** A field written without quotes: at least one byte, plain bytes only. *)
Definition plain_field (delimiter : ascii) (f : string) : bool :=
  negb (String.eqb f EmptyString) && all_chars (plain_char delimiter) f.

(** A line of a CSV file: the fields, the delimiter between them, and the
    end of line ([\n], or [\r\n] when [crlf] is set). *)
Definition csv_line (delimiter : ascii) (crlf : bool) (fields : list string) : string :=
  (String.concat (String delimiter EmptyString) fields
   ++ (if crlf then String Loader.cr_char (String Loader.lf_char EmptyString)
       else String Loader.lf_char EmptyString))%string.

(** A field written between quotes: every quote of [s] is doubled. *)
Fixpoint csv_escape (s : string) : string :=
  match s with
  | EmptyString => EmptyString
  | String c rest =>
      if Ascii.eqb c Loader.quote_char
      then String c (String c (csv_escape rest))
      else String c (csv_escape rest)
  end.

Definition csv_quoted (s : string) : string :=
  String Loader.quote_char (csv_escape s ++ String Loader.quote_char EmptyString).

(** A delimiter that is not a quote or an end of line. *)
Definition proper_delimiter (delimiter : ascii) : bool :=
  negb (Ascii.eqb delimiter Loader.quote_char)
  && negb (Ascii.eqb delimiter Loader.lf_char)
  && negb (Ascii.eqb delimiter Loader.cr_char).

(** *** Occurrences of a phrase *)

(** The positions of [doc] from which [toks] is read. *)
Definition positions_of (doc toks : list token) : list nat :=
  filter (matches_at doc toks) (seq 0 (S (length doc))).

(** Every occurrence of [toks] in the corpus, document after document and,
    in a document, from left to right. *)
Definition all_occurrences (docs : corpus) (toks : list token) : list GME.Occurrence :=
  flat_map (fun d => map (GME.mkOcc d) (positions_of (doc_at docs d) toks))
    (seq 0 (length docs)).

(** The phrase [p] carries every occurrence of its tokens, and its support
    is the number of documents of which they are a contiguous run. *)
Definition exact (docs : corpus) (p : GME.Phrase) : Prop :=
  GME.occs p = all_occurrences docs (GME.tokens p) /\
  GME.support p = doc_support docs (GME.tokens p).

(** The start positions that step 1 of [GME.mine] visits in document [d]. *)
Definition seed_starts (docs : corpus) (ngrams : Z) (d : nat) : list GME.Occurrence :=
  let doc := doc_at docs d in
  if (Z.of_nat (length doc) <? to_size_t ngrams)%Z then []
  else map (GME.mkOcc d)
         (seq 0 (S (Z.to_nat ((Z.of_nat (length doc) - to_size_t ngrams) mod 2 ^ 64)))).

(** The n-gram that step 1 reads at an occurrence. *)
Definition seed_key (docs : corpus) (ngrams : Z) (o : GME.Occurrence) : list token :=
  GME.ngram_at ngrams (doc_at docs (GME.doc_id o)) (GME.pos o).

(** What a phrase handed to the writer is: it extends a candidate, carries
    every occurrence of its tokens, and the extension loop has left it. *)
Definition grown
    (seeds_order :
       list (list token * list GME.Occurrence) -> list (list token * list GME.Occurrence))
    (next_order : list (token * list GME.Occurrence) -> list (token * list GME.Occurrence))
    (docs : corpus) (min_docs ngrams : Z) (p : GME.Phrase) : Prop :=
  exact docs p /\
  GME.extend_once next_order docs min_docs p = None /\
  exists c ext,
    In c (GME.candidates seeds_order docs min_docs ngrams) /\
    GME.tokens p = GME.tokens c ++ ext.

(** Position [q] of document [d] lies inside an occurrence of a phrase of
    [res]. *)
Definition covered (res : list GME.Phrase) (d q : nat) : Prop :=
  exists p o,
    In p res /\ In o (GME.occs p) /\ GME.doc_id o = d /\
    GME.pos o <= q < GME.pos o + length (GME.tokens p).

(** The flag of position [q] of document [d] in the marking structure. *)
Definition marked (processed : list (list bool)) (d q : nat) : bool :=
  nth q (nth d processed []) false.

(** [pat] is read in document [d] and is followed there by one more token. *)
Definition continues_in (docs : corpus) (pat : list token) (d : nat) : Prop :=
  d < length docs /\
  exists j,
    matches_at (doc_at docs d) pat j = true /\
    j + length pat < length (doc_at docs d).

(** *** Rows of the PrefixSpan miner *)

(** What the PrefixSpan engine asks of a pattern [pat] to emit it, in mode
    CLOSED, with the support [s]: [s] is the number of documents that hold
    [pat] (for the empty pattern, the number of documents with a token);
    [pat] has [min_length] tokens; unless it is empty it lies in
    [min_docs] documents and has an occurrence that does not end its
    document; and no extension of it by one token that occurs reaches
    [min_docs] documents and lies in [s] documents. *)
Definition closed_emits (docs : corpus) (min_docs min_length : nat)
    (pat : list token) (s : nat) : Prop :=
  s = match pat with
      | [] => CPS.initial_support docs
      | _ :: _ => doc_support docs pat
      end /\
  min_length <= length pat /\
  (pat <> [] -> min_docs <= doc_support docs pat /\ exists d, continues_in docs pat d) /\
  ~ exists w,
      1 <= doc_support docs (pat ++ [w]) /\
      min_docs <= doc_support docs (pat ++ [w]) /\
      doc_support docs (pat ++ [w]) = s.

(** The cells [phrase], [freq] and [length] of the row that
    [CPS.save_to_csv] writes for the phrase [p]. *)
Definition cps_cells (m : Miner) (p : CPS.Phrase) : string * nat * nat :=
  (CPS.write_tokens (id_to_word m) (CPS.tokens p), CPS.support p, length (CPS.tokens p)).

(** ** Example inputs *)

Definition five_files : list GME.DirEntry :=
  [GME.mkEntry "0.txt" true (Some "a x"); GME.mkEntry "1.txt" true (Some "a");
   GME.mkEntry "2.txt" true (Some "a"); GME.mkEntry "3.txt" true (Some "b");
   GME.mkEntry "4.txt" true (Some "b")]%string.

(** Two documents [a x] and [a y], and the seed [a] with its two
    occurrences. *)
Definition tie_docs : corpus := [[0; 1]; [0; 2]].

Definition tie_cand : GME.Phrase :=
  GME.mkPhrase [0] [GME.mkOcc 0 0; GME.mkOcc 1 0] 2.

(** The document [a b c a b c a b c]. *)
Definition abc : corpus := [[0; 1; 2; 0; 1; 2; 0; 1; 2]].

(** Three documents that share [the quick brown fox]: it ends the first,
    and is followed by one more word in the other two. *)
Definition fox_miner : Miner :=
  mkMiner []
    ["the"; "quick"; "brown"; "fox"; "see"; "run"; "jumps"]%string
    [[0; 1; 2; 3]; [4; 0; 1; 2; 3; 5]; [0; 1; 2; 3; 6]]
    ["0.txt"; "1.txt"; "2.txt"]%string.

(** Five documents [a b] and one document [a c]. *)
Definition boundary_docs : corpus :=
  [[0; 1]; [0; 1]; [0; 1]; [0; 1]; [0; 1]; [0; 2]].

(** One document holding the single word [a]. *)
Definition one_word_miner : Miner :=
  mkMiner [] ["a"%string] [[0]] ["0.txt"%string].

(** Two files holding one word each. *)
Definition two_files : list GME.DirEntry :=
  [GME.mkEntry "a.txt" true (Some "a"); GME.mkEntry "b.txt" true (Some "b")]%string.

(** Three words as [tokenize] produces them. *)
Definition three_words : list string := ["the"; "quick"; "fox2"]%string.

(** Two words of a dictionary. *)
Definition the_fox : list string := ["the"; "fox"]%string.

(** Two files of the PrefixSpan loader, with the bytes [x y] and [y z]. *)
Definition two_entries : list CPS.DirEntry :=
  [CPS.mkEntry "d/a.txt" ".txt" "a.txt" true (Some "x y");
   CPS.mkEntry "d/b.txt" ".txt" "b.txt" true (Some "y z")]%string.

(** A reader of UTF-16 text for the examples, which hold none. *)
Definition no_words (units : list Z) : list string := [].

(** Three files of the PrefixSpan loader, with the bytes [x y z], [y z x]
    and the single byte [q]. *)
Definition three_entries : list CPS.DirEntry :=
  [CPS.mkEntry "d/a.txt" ".txt" "a.txt" true (Some "x y z");
   CPS.mkEntry "d/b.txt" ".txt" "b.txt" true (Some "y z x");
   CPS.mkEntry "d/c.txt" ".txt" "c.txt" true (Some "q")]%string.

(** Two lines of a CSV file, and a file of two rows. *)
Definition two_lines : list (list string) := [["a"; "b c"]; ["d"]]%string.

Definition two_rows : string := ("a b,c" ++ newline ++ "b")%string.

(** The stop flag is raised once the first candidate has been handled. *)
Definition stop_after_first (c : nat) : bool := 1 <=? c.

(** * Properties *)

(** ** Machine integers and containers *)

Lemma u32_small (n : nat) : (Z.of_nat n < 2 ^ 32)%Z -> u32 n = n.
Proof.
  intros H. unfold u32. rewrite Z.mod_small by lia. apply Nat2Z.id.
Qed.

Lemma to_size_t_int (i : Z) :
  is_int i -> (0 <= i -> to_size_t i = i)%Z /\ (i < 0 -> to_size_t i = 2 ^ 64 + i)%Z.
Proof.
  unfold is_int, to_size_t. intros H. split; intros Hi.
  - apply Z.mod_small. lia.
  - symmetry. apply (Z.mod_unique i (2 ^ 64) (-1) (2 ^ 64 + i)); lia.
Qed.

Lemma to_size_t_ge (i : Z) : is_int i -> (i <= to_size_t i)%Z.
Proof.
  intros H. destruct (to_size_t_int i H) as [Hp Hn].
  destruct (Z_lt_le_dec i 0) as [Hi | Hi]; [rewrite Hn | rewrite Hp]; lia.
Qed.

Lemma to_uint32_ge (i : Z) : is_int i -> (i <= to_uint32 i)%Z.
Proof.
  unfold is_int, to_uint32. intros H.
  destruct (Z_lt_le_dec i 0) as [Hi | Hi].
  - assert (0 <= i mod 2 ^ 32)%Z by (apply Z.mod_pos_bound; lia). lia.
  - rewrite Z.mod_small; lia.
Qed.

Lemma doc_at_fits (docs : corpus) (d : nat) :
  corpus_fits docs -> (Z.of_nat (length (doc_at docs d)) < 2 ^ 32)%Z.
Proof.
  intros [_ H]. unfold doc_at.
  destruct (Nat.lt_ge_cases d (length docs)) as [Hd | Hd].
  - rewrite Forall_forall in H. apply H. now apply nth_In.
  - rewrite nth_overflow by assumption. simpl. lia.
Qed.

Lemma doc_at_longest (docs : corpus) (d : nat) : length (doc_at docs d) <= longest docs.
Proof.
  unfold doc_at. revert d.
  induction docs as [| doc docs IH]; intros [| d]; simpl; try lia.
  specialize (IH d). lia.
Qed.

Lemma tokens_eqb_eq (a b : list token) : tokens_eqb a b = true <-> a = b.
Proof.
  revert b. induction a as [| x a IH]; intros [| y b]; simpl; split;
    try easy; intros H.
  - apply andb_true_iff in H as [Hx Hab].
    apply Nat.eqb_eq in Hx. apply IH in Hab. now subst.
  - injection H as -> ->. rewrite Nat.eqb_refl. now apply IH.
Qed.

(** What [push_at] keeps true of every value stored under every key. *)
Lemma push_at_Forall {K V : Type} (eqb : K -> K -> bool) (P : K -> V -> Prop)
    (k : K) (v : V) (m : list (K * list V)) :
  (forall k', eqb k k' = true -> k = k') ->
  P k v ->
  Forall (fun e => Forall (P (fst e)) (snd e)) m ->
  Forall (fun e => Forall (P (fst e)) (snd e)) (push_at eqb k v m).
Proof.
  intros Heq Hkv. unfold push_at.
  induction m as [| [k' vs] m IH]; intros Hm; simpl.
  - repeat constructor. exact Hkv.
  - inversion Hm as [| ? ? Hhd Htl]; subst.
    destruct (eqb k k') eqn:E.
    + constructor; [| exact Htl]. simpl in *.
      apply Forall_app. split; [exact Hhd |].
      constructor; [| constructor]. now rewrite <- (Heq k' E).
    + constructor; [exact Hhd | now apply IH].
Qed.

Lemma fold_left_Forall_inv {A B : Type} (f : A -> B -> A) (I : A -> Prop)
    (Q : B -> Prop) (l : list B) (a : A) :
  (forall a b, I a -> Q b -> I (f a b)) ->
  Forall Q l -> I a -> I (fold_left f l a).
Proof.
  intros Hf. revert a. induction l as [| b l IH]; intros a Hl Ha; simpl.
  - exact Ha.
  - inversion Hl; subst. apply IH; auto.
Qed.

Lemma set_insert_In (s : list nat) (x y : nat) :
  In y (set_insert s x) <-> In y s \/ y = x.
Proof.
  unfold set_insert. destruct (existsb (Nat.eqb x) s) eqn:E.
  - apply existsb_exists in E as (z & Hz & Hxz). apply Nat.eqb_eq in Hxz. subst z.
    split; [now left | intros [H | ->]; assumption].
  - rewrite in_app_iff. simpl. intuition.
Qed.

Lemma set_insert_NoDup (s : list nat) (x : nat) : NoDup s -> NoDup (set_insert s x).
Proof.
  intros Hs. unfold set_insert. destruct (existsb (Nat.eqb x) s) eqn:E; [exact Hs |].
  apply NoDup_app; [exact Hs | repeat constructor; intros [] |].
  intros y Hy [-> | []].
  assert (existsb (Nat.eqb y) s = true) as Ht; [| congruence].
  apply existsb_exists. exists y. split; [exact Hy | apply Nat.eqb_refl].
Qed.

Lemma unique_docs_from (l s : list nat) :
  NoDup s ->
  NoDup (fold_left set_insert l s) /\
  forall y, In y (fold_left set_insert l s) <-> In y s \/ In y l.
Proof.
  revert s. induction l as [| x l IH]; intros s Hs; simpl.
  - split; [exact Hs | intuition].
  - destruct (IH (set_insert s x) (set_insert_NoDup s x Hs)) as [Hnd Hin].
    split; [exact Hnd |].
    intros y. rewrite Hin, set_insert_In. intuition.
Qed.

Lemma unique_docs_NoDup (l : list nat) : NoDup (unique_docs l).
Proof. apply (unique_docs_from l []). constructor. Qed.

Lemma unique_docs_In (l : list nat) (y : nat) : In y (unique_docs l) <-> In y l.
Proof.
  unfold unique_docs.
  destruct (unique_docs_from l [] (NoDup_nil _)) as [_ H].
  rewrite H. simpl. intuition.
Qed.

(** ** [std::sort] *)

Section Sort.

Context {A : Type} (comp : A -> A -> bool).

Hypothesis comp_asym : forall a b, comp a b = true -> comp b a = false.
Hypothesis comp_negtrans :
  forall a b c, comp b a = false -> comp c b = false -> comp c a = false.

Lemma sort_insert_perm (x : A) (l : list A) : Permutation (x :: l) (sort_insert comp x l).
Proof.
  induction l as [| y l IH]; simpl; [reflexivity |].
  destruct (comp x y); [reflexivity |].
  rewrite perm_swap. now constructor.
Qed.

Lemma std_sort_perm_from (l acc : list A) :
  Permutation (l ++ acc) (fold_left (fun acc x => sort_insert comp x acc) l acc).
Proof.
  revert acc. induction l as [| x l IH]; intros acc; simpl; [reflexivity |].
  rewrite <- IH. rewrite <- sort_insert_perm. apply Permutation_middle.
Qed.

Lemma std_sort_perm (l : list A) : Permutation l (std_sort comp l).
Proof.
  unfold std_sort. rewrite <- std_sort_perm_from. now rewrite app_nil_r.
Qed.

Lemma sort_insert_sorted (x : A) (l : list A) :
  StronglySorted (precedes comp) l -> StronglySorted (precedes comp) (sort_insert comp x l).
Proof.
  induction l as [| y l IH]; intros Hl; simpl.
  - repeat constructor.
  - inversion Hl as [| ? ? Hl' Hy]; subst.
    destruct (comp x y) eqn:E.
    + constructor; [exact Hl |].
      constructor; [now apply comp_asym |].
      rewrite Forall_forall in *. intros z Hz.
      apply comp_negtrans with y; [now apply comp_asym | now apply Hy].
    + constructor; [now apply IH |].
      rewrite Forall_forall in *. intros z Hz.
      apply (Permutation_in _ (Permutation_sym (sort_insert_perm x l))) in Hz.
      destruct Hz as [<- | Hz]; [exact E | now apply Hy].
Qed.

Lemma std_sort_sorted (l : list A) : StronglySorted (precedes comp) (std_sort comp l).
Proof.
  unfold std_sort.
  assert (forall acc, StronglySorted (precedes comp) acc ->
            StronglySorted (precedes comp)
              (fold_left (fun acc x => sort_insert comp x acc) l acc)) as H.
  { induction l as [| x l IH]; intros acc Hacc; simpl; [exact Hacc |].
    apply IH. now apply sort_insert_sorted. }
  apply H. constructor.
Qed.

End Sort.

Lemma by_support_then_length_asym (a b : CPS.Phrase) :
  CPS.by_support_then_length a b = true -> CPS.by_support_then_length b a = false.
Proof.
  unfold CPS.by_support_then_length.
  destruct (Nat.eqb_spec (CPS.support a) (CPS.support b)) as [E | E];
    destruct (Nat.eqb_spec (CPS.support b) (CPS.support a)) as [E' | E'];
    simpl; try congruence; rewrite Nat.ltb_lt, Nat.ltb_ge; lia.
Qed.

Lemma by_support_then_length_negtrans (a b c : CPS.Phrase) :
  CPS.by_support_then_length b a = false ->
  CPS.by_support_then_length c b = false ->
  CPS.by_support_then_length c a = false.
Proof.
  unfold CPS.by_support_then_length.
  destruct (Nat.eqb_spec (CPS.support b) (CPS.support a));
    destruct (Nat.eqb_spec (CPS.support c) (CPS.support b));
    destruct (Nat.eqb_spec (CPS.support c) (CPS.support a));
    simpl; rewrite !Nat.ltb_ge; lia.
Qed.

Lemma precedes_desc (a b : CPS.Phrase) :
  precedes CPS.by_support_then_length a b -> support_then_length_desc a b.
Proof.
  unfold precedes, support_then_length_desc, CPS.by_support_then_length.
  destruct (Nat.eqb_spec (CPS.support b) (CPS.support a)); simpl;
    rewrite Nat.ltb_ge; lia.
Qed.

Lemma StronglySorted_impl {A : Type} (R S : A -> A -> Prop) (l : list A) :
  (forall a b, R a b -> S a b) -> StronglySorted R l -> StronglySorted S l.
Proof.
  intros HRS. induction 1 as [| a l Hl IH Ha]; constructor; [exact IH |].
  eapply Forall_impl; [| exact Ha]. intros b. apply HRS.
Qed.

(** ** The result sink *)

(** C9, as amended.  The writer of the PrefixSpan engine emits the rows of
    the phrases it is given rearranged by support descending and, among
    equal supports, by number of tokens descending; the writer of the
    greedy engine emits one row per phrase in the order of its argument. *)
Theorem save_to_csv_row_order :
  (forall ids_order m res,
     CPS.save_to_csv ids_order m res
     = (csv_header
        ++ String.concat EmptyString
             (map (CPS.csv_row ids_order m) (CPS.sorted_res res)))%string) /\
  (forall res,
     Permutation res (CPS.sorted_res res) /\
     StronglySorted support_then_length_desc (CPS.sorted_res res)) /\
  (forall ids_order m res,
     GME.save_to_csv ids_order m res
     = (csv_header
        ++ String.concat EmptyString (map (GME.csv_row ids_order m) res))%string).
Proof.
  split; [reflexivity | split; [| reflexivity]].
  intros res. split.
  - apply std_sort_perm.
  - apply StronglySorted_impl with (R := precedes CPS.by_support_then_length).
    + exact precedes_desc.
    + apply std_sort_sorted.
      * exact by_support_then_length_asym.
      * exact by_support_then_length_negtrans.
Qed.

(** C9 fails for the greedy engine: with five files [a x], [a], [a], [b],
    [b], [min_docs = 1] and [ngrams = 1], the seed [a] (support 3) is
    extended to [a x] (support 1) and written before [b] (support 2). *)
Lemma gme_csv_rows_unsorted :
  let m := GME.load_directory insertion_order keep_all five_files empty_miner in
  let p1 := GME.mkPhrase [0; 1] [GME.mkOcc 0 0] 1 in
  let p2 := GME.mkPhrase [2] [GME.mkOcc 3 0; GME.mkOcc 4 0] 2 in
  docs m = [[0; 1]; [0]; [0]; [2]; [2]] /\
  GME.final_phrases insertion_order insertion_order never (docs m) 1 1 10
  = Done [p1; p2] /\
  GME.main insertion_order insertion_order insertion_order never insertion_order
    keep_all five_files 1 1 10
  = Done (csv_header ++ GME.csv_row insertion_order m p1
          ++ GME.csv_row insertion_order m p2)%string /\
  GME.support p1 < GME.support p2.
Proof.
  cbv zeta. split; [| split; [| split]].
  - vm_compute. reflexivity.
  - vm_compute. reflexivity.
  - vm_compute. reflexivity.
  - simpl. lia.
Qed.

(** ** The initial projected database *)

Lemma initial_db_In (docs : corpus) (p : CPS.Projection) :
  corpus_fits docs ->
  In p (CPS.initial_db docs) <->
  CPS.doc_id p < length docs /\
  CPS.pos p < length (doc_at docs (CPS.doc_id p)) /\
  CPS.origin p = CPS.pos p.
Proof.
  intros Hfit. unfold CPS.initial_db.
  rewrite (u32_small (length docs)) by apply Hfit.
  rewrite in_flat_map. split.
  - intros (i & Hi & Hp). apply in_seq in Hi.
    destruct (doc_at docs i) as [| t doc] eqn:E; [destruct Hp |].
    rewrite u32_small in Hp by (rewrite <- E; now apply doc_at_fits).
    apply in_map_iff in Hp as (j & <- & Hj). apply in_seq in Hj. simpl.
    rewrite E. repeat split; lia.
  - intros (Hd & Hpos & Ho). exists (CPS.doc_id p). split; [apply in_seq; lia |].
    destruct (doc_at docs (CPS.doc_id p)) as [| t doc] eqn:E; [simpl in Hpos; lia |].
    rewrite u32_small by (rewrite <- E; now apply doc_at_fits).
    apply in_map_iff. exists (CPS.pos p). split; [| apply in_seq; lia].
    destruct p as [d j o]. simpl in *. now subst.
Qed.

Lemma initial_db_NoDup (docs : corpus) : NoDup (CPS.initial_db docs).
Proof.
  unfold CPS.initial_db. generalize (seq_NoDup (u32 (length docs)) 0).
  induction (seq 0 (u32 (length docs))) as [| i l IH]; intros Hnd; simpl;
    [constructor |].
  inversion Hnd as [| ? ? Hi Hl]; subst. apply NoDup_app; [| now apply IH |].
  - destruct (doc_at docs i) as [| t doc]; [constructor |].
    apply Finite.Injective_map_NoDup; [| apply seq_NoDup].
    intros j j' H. now injection H.
  - intros p Hp Hq. apply in_flat_map in Hq as (i' & Hi' & Hq).
    assert (CPS.doc_id p = i) as Hpi.
    { destruct (doc_at docs i) as [| t doc]; [destruct Hp |].
      apply in_map_iff in Hp as (j & <- & _). reflexivity. }
    assert (CPS.doc_id p = i') as Hpi'.
    { destruct (doc_at docs i') as [| t doc]; [destruct Hq |].
      apply in_map_iff in Hq as (j & <- & _). reflexivity. }
    apply Hi. congruence.
Qed.

(** C3, as amended.  The database with which [run] starts holds one
    continuation point [(d, j)], with origin [j], for every document [d] of
    the corpus and every position [j] inside it, each once, and nothing
    else; an empty document contributes no point. *)
Theorem initial_db_points (docs : corpus) :
  corpus_fits docs ->
  NoDup (CPS.initial_db docs) /\
  forall p,
    In p (CPS.initial_db docs) <->
    CPS.doc_id p < length docs /\
    CPS.pos p < length (doc_at docs (CPS.doc_id p)) /\
    CPS.origin p = CPS.pos p.
Proof.
  intros Hfit. split.
  - apply initial_db_NoDup.
  - intros p. now apply initial_db_In.
Qed.

Lemma small_corpus_fits (docs : corpus) :
  length docs <= 100 -> Forall (fun d => length d <= 100) docs -> corpus_fits docs.
Proof.
  intros Hn Hd. split; [lia |].
  eapply Forall_impl; [| exact Hd]. simpl. intros d H. lia.
Qed.

Lemma initial_db_points_witness :
  corpus_fits [[0; 1]; []; [5]] /\
  (In (CPS.mkProj 0 1 1) (CPS.initial_db [[0; 1]; []; [5]]) <->
   0 < 3 /\ 1 < 2 /\ 1 = 1).
Proof.
  assert (corpus_fits [[0; 1]; []; [5]]) as Hfit.
  { apply small_corpus_fits; [simpl; lia | repeat constructor; simpl; lia]. }
  split; [exact Hfit |].
  exact (proj2 (initial_db_points [[0; 1]; []; [5]] Hfit) (CPS.mkProj 0 1 1)).
Defined.

(** C3 fails as stated: for the single document [a b] the initial database
    also holds the point [(0, 1)]. *)
Lemma initial_db_not_only_starts :
  CPS.initial_db [[0; 1]] = [CPS.mkProj 0 0 0; CPS.mkProj 0 1 1] /\
  CPS.initial_db [[0; 1]] <> [CPS.mkProj 0 0 0].
Proof.
  split; [vm_compute; reflexivity | vm_compute; discriminate].
Qed.

(** ** Maps from keys to vectors *)

Lemma filter_none {A : Type} (f : A -> bool) (l : list A) :
  (forall x, In x l -> f x = false) -> filter f l = [].
Proof.
  induction l as [| y l IH]; intros H; simpl; [reflexivity |].
  rewrite (H y) by now left. apply IH. intros x Hx. apply H. now right.
Qed.

Section Grouping.

Context {K V : Type} (eqb : K -> K -> bool).
Hypothesis eqb_eq : forall a b, eqb a b = true <-> a = b.

Lemma update_at_keys (k : K) (f : list V -> list V) (m : list (K * list V)) :
  (In k (map fst m) /\ map fst (update_at eqb k f m) = map fst m) \/
  (~ In k (map fst m) /\ map fst (update_at eqb k f m) = map fst m ++ [k]).
Proof.
  induction m as [| [k' vs] m IH]; simpl.
  - right. split; [intros [] | reflexivity].
  - destruct (eqb k k') eqn:E.
    + apply eqb_eq in E. subst k'. left. split; [now left | reflexivity].
    + assert (k' <> k) as Hne.
      { intros ->. rewrite (proj2 (eqb_eq k k) eq_refl) in E. discriminate. }
      destruct IH as [[Hin Heq] | [Hin Heq]]; simpl; rewrite Heq.
      * left. split; [now right | reflexivity].
      * right. split; [intros [H | H]; [now apply Hne | now apply Hin] | reflexivity].
Qed.

Lemma update_at_entries (k : K) (f : list V -> list V) (m : list (K * list V))
    (k1 : K) (vs1 : list V) :
  NoDup (map fst m) ->
  In (k1, vs1) (update_at eqb k f m) ->
  (k1 <> k /\ In (k1, vs1) m) \/
  (k1 = k /\ exists vs0, In (k, vs0) m /\ vs1 = f vs0) \/
  (k1 = k /\ ~ In k (map fst m) /\ vs1 = f []).
Proof.
  induction m as [| [k' vs] m IH]; simpl; intros Hnd Hin.
  - destruct Hin as [Hin | []]. injection Hin as <- <-.
    right. right. repeat split. intros [].
  - inversion Hnd as [| ? ? Hk' Hnd']; subst.
    destruct (eqb k k') eqn:E.
    + apply eqb_eq in E. subst k'. destruct Hin as [Hin | Hin].
      * injection Hin as <- <-. right. left. split; [reflexivity |].
        exists vs. split; [now left | reflexivity].
      * left. split; [| now right].
        intros ->. apply Hk'. apply in_map_iff. now exists (k, vs1).
    + assert (k' <> k) as Hne.
      { intros ->. rewrite (proj2 (eqb_eq k k) eq_refl) in E. discriminate. }
      destruct Hin as [Hin | Hin].
      * injection Hin as <- <-. left. split; [exact Hne | now left].
      * destruct (IH Hnd' Hin) as [[H1 H2] | [[H1 (vs0 & H2 & H3)] | (H1 & H2 & H3)]].
        -- left. split; [exact H1 | now right].
        -- right. left. split; [exact H1 |]. exists vs0. split; [now right | exact H3].
        -- right. right. repeat split; try assumption.
           intros [H | H]; [now apply Hne | now apply H2].
Qed.

Lemma grouped_step (ok : V -> bool) (key : V -> K) (l : list V)
    (m : list (K * list V)) (x : V) :
  grouped eqb ok key l m ->
  grouped eqb ok key (l ++ [x]) (if ok x then push_at eqb (key x) x m else m).
Proof.
  intros (Hnd & Hent & Hkeys). destruct (ok x) eqn:Hok.
  - unfold push_at.
    pose proof (update_at_keys (key x) (fun vs => vs ++ [x]) m) as Hk. split; [| split].
    + destruct Hk as [[_ ->] | [Hnin ->]]; [exact Hnd |].
      apply NoDup_app; [exact Hnd | repeat constructor; intros [] |].
      intros k Hin [<- | []]. now apply Hnin.
    + intros k vs Hin. rewrite filter_app. simpl. rewrite Hok. simpl.
      apply update_at_entries in Hin; [| exact Hnd].
      destruct Hin as [[Hne Hin] | [[-> (vs0 & Hin & ->)] | (-> & Hnin & ->)]].
      * destruct (eqb (key x) k) eqn:E; [apply eqb_eq in E; congruence |].
        rewrite app_nil_r. now apply Hent.
      * rewrite (proj2 (eqb_eq _ _) eq_refl).
        destruct (Hent _ _ Hin) as [_ <-]. split; [| reflexivity].
        intros H. now apply app_eq_nil in H as [_ H].
      * rewrite (proj2 (eqb_eq _ _) eq_refl). split; [discriminate |].
        rewrite filter_none; [reflexivity |].
        intros y Hy. destruct (ok y && eqb (key y) (key x)) eqn:E; [| reflexivity].
        apply andb_true_iff in E as [Hoky E]. apply eqb_eq in E.
        exfalso. apply Hnin. rewrite <- E. now apply Hkeys.
    + intros y Hy Hoky. apply in_app_or in Hy.
      destruct Hk as [[Hin ->] | [Hnin ->]].
      * destruct Hy as [Hy | [<- | []]]; [now apply Hkeys | exact Hin].
      * apply in_or_app. destruct Hy as [Hy | [<- | []]];
          [left; now apply Hkeys | right; now left].
  - split; [exact Hnd | split].
    + intros k vs Hin. rewrite filter_app. simpl. rewrite Hok. simpl.
      rewrite app_nil_r. now apply Hent.
    + intros y Hy Hoky. apply in_app_or in Hy.
      destruct Hy as [Hy | [<- | []]]; [now apply Hkeys | congruence].
Qed.

Lemma grouped_fold (ok : V -> bool) (key : V -> K) (l : list V) :
  grouped eqb ok key l
    (fold_left (fun m x => if ok x then push_at eqb (key x) x m else m) l []).
Proof.
  induction l as [| x l IH] using rev_ind.
  - split; [constructor | split]; intros; simpl in *; contradiction.
  - rewrite fold_left_app. simpl. now apply grouped_step.
Qed.

End Grouping.

(** ** The greedy engine: choice of the next word *)

Lemma select_best_app (min_docs : Z) (l : list (token * list GME.Occurrence))
    (e : token * list GME.Occurrence) :
  GME.select_best min_docs (l ++ [e])
  = GME.select_step min_docs (GME.select_best min_docs l) e.
Proof. unfold GME.select_best. now rewrite fold_left_app. Qed.

Lemma select_best_spec (min_docs : Z) (entries : list (token * list GME.Occurrence)) :
  let b := GME.select_best min_docs entries in
  (b = GME.mkBest 0 0 [] /\
   forall e, In e entries -> ~ reaches min_docs (GME.distinct_docs (snd e))) \/
  (exists before after,
     entries = before ++ (GME.best_word b, GME.best_next_occs b) :: after /\
     GME.max_support b = GME.distinct_docs (GME.best_next_occs b) /\
     reaches min_docs (GME.max_support b) /\
     (forall e, In e before -> reaches min_docs (GME.distinct_docs (snd e)) ->
        GME.distinct_docs (snd e) <= GME.max_support b) /\
     (forall e, In e after -> reaches min_docs (GME.distinct_docs (snd e)) ->
        GME.distinct_docs (snd e) < GME.max_support b)).
Proof.
  induction entries as [| e l IH] using rev_ind; cbv zeta.
  - left. split; [reflexivity | intros e []].
  - rewrite select_best_app. cbv zeta in IH.
    set (b := GME.select_best min_docs l) in *.
    unfold GME.select_step, reaches in *.
    destruct (Z.leb_spec (to_size_t min_docs) (Z.of_nat (GME.distinct_docs (snd e))))
      as [Hth | Hth]; simpl.
    + destruct (Nat.leb_spec (GME.max_support b) (GME.distinct_docs (snd e)))
        as [Hmax | Hmax]; simpl.
      * right. exists l, []. destruct e as [w os]. simpl in *.
        repeat split; try assumption; try (intros e []).
        intros e He Hre.
        destruct IH as [[_ Hnone] | (bf & af & Hl & Hu & _ & Hbf & Haf)].
        -- exfalso. now apply (Hnone e He).
        -- rewrite Hl in He. apply in_app_or in He.
           destruct He as [He | [<- | He]]; simpl.
           ++ specialize (Hbf e He Hre). lia.
           ++ lia.
           ++ specialize (Haf e He Hre). lia.
      * destruct IH as [[Hb _] | (bf & af & Hl & Hu & Hr & Hbf & Haf)].
        -- rewrite Hb in Hmax. simpl in Hmax. lia.
        -- right. exists bf, (af ++ [e]). rewrite Hl, <- app_assoc. simpl.
           repeat split; try assumption.
           intros e' He' Hre. apply in_app_or in He'.
           destruct He' as [He' | [<- | []]]; [now apply Haf | exact Hmax].
    + destruct IH as [[Hb Hnone] | (bf & af & Hl & Hu & Hr & Hbf & Haf)].
      * left. split; [exact Hb |]. intros e' He'. apply in_app_or in He'.
        destruct He' as [He' | [<- | []]]; [now apply Hnone | lia].
      * right. exists bf, (af ++ [e]). rewrite Hl, <- app_assoc. simpl.
        repeat split; try assumption.
        intros e' He' Hre. apply in_app_or in He'.
        destruct He' as [He' | [<- | []]]; [now apply Haf | lia].
Qed.

Lemma next_word_occs_grouped (docs : corpus) (cand : GME.Phrase) :
  grouped Nat.eqb
    (fun o => u32 (GME.pos o + length (GME.tokens cand))
              <? length (doc_at docs (GME.doc_id o)))
    (fun o => nth (u32 (GME.pos o + length (GME.tokens cand)))
                (doc_at docs (GME.doc_id o)) 0)
    (GME.occs cand) (GME.next_word_occs docs cand).
Proof. apply (grouped_fold Nat.eqb Nat.eqb_eq). Qed.

Lemma next_word_occs_bucket (docs : corpus) (cand : GME.Phrase) (w : token)
    (os : list GME.Occurrence) :
  In (w, os) (GME.next_word_occs docs cand) ->
  os <> [] /\ os = filter (next_is docs cand w) (GME.occs cand).
Proof.
  intros Hin. destruct (next_word_occs_grouped docs cand) as (_ & H & _).
  exact (H w os Hin).
Qed.

(** One turn of the extension loop, when it extends the candidate: the
    new occurrences are a bucket of the map of next words. *)
Lemma extend_once_bucket
    (next_order : list (token * list GME.Occurrence) -> list (token * list GME.Occurrence))
    (docs : corpus) (min_docs : Z) (cand cand' : GME.Phrase) :
  (forall m, Permutation (next_order m) m) ->
  GME.extend_once next_order docs min_docs cand = Some cand' ->
  exists w,
    In (w, GME.occs cand') (GME.next_word_occs docs cand) /\
    GME.tokens cand' = GME.tokens cand ++ [w] /\
    GME.support cand' = GME.distinct_docs (GME.occs cand') /\
    reaches min_docs (GME.support cand').
Proof.
  intros Hperm. unfold GME.extend_once.
  set (entries := next_order (GME.next_word_occs docs cand)).
  pose proof (select_best_spec min_docs entries) as Hsel. cbv zeta in Hsel.
  set (b := GME.select_best min_docs entries) in *.
  destruct (Nat.ltb_spec 0 (GME.max_support b)) as [Hpos | Hpos]; [| discriminate].
  intros Heq. injection Heq as <-. simpl.
  destruct Hsel as [[Hb _] | (bf & af & Hl & Hu & Hr & _)].
  { rewrite Hb in Hpos. simpl in Hpos. lia. }
  exists (GME.best_word b). repeat split; try assumption.
  apply (Permutation_in _ (Hperm _)). fold entries. rewrite Hl.
  apply in_or_app. right. now left.
Qed.

(** C5, as amended.  When one turn of the extension loop extends a
    candidate, the word [w] it appends heads a bucket of the map of next
    words; that bucket (the occurrences followed by [w]) becomes the
    occurrences of the phrase, and its number of distinct documents the
    support.  This support reaches [min_docs] and is the largest of all
    buckets; and every bucket that the map yields after the one of [w] has
    a strictly smaller support: among equal largest supports the word met
    last by the scan is the one chosen. *)
Theorem extend_once_choice
    (next_order : list (token * list GME.Occurrence) -> list (token * list GME.Occurrence))
    (docs : corpus) (min_docs : Z) (cand cand' : GME.Phrase) :
  (forall m, Permutation (next_order m) m) ->
  GME.extend_once next_order docs min_docs cand = Some cand' ->
  exists w before after,
    next_order (GME.next_word_occs docs cand) = before ++ (w, GME.occs cand') :: after /\
    GME.tokens cand' = GME.tokens cand ++ [w] /\
    GME.occs cand' = filter (next_is docs cand w) (GME.occs cand) /\
    GME.support cand' = GME.distinct_docs (GME.occs cand') /\
    reaches min_docs (GME.support cand') /\
    (forall w' os, In (w', os) (GME.next_word_occs docs cand) ->
       GME.distinct_docs os <= GME.support cand') /\
    (forall e, In e after -> GME.distinct_docs (snd e) < GME.support cand').
Proof.
  intros Hperm. unfold GME.extend_once.
  set (entries := next_order (GME.next_word_occs docs cand)).
  pose proof (select_best_spec min_docs entries) as Hsel. cbv zeta in Hsel.
  set (b := GME.select_best min_docs entries) in *.
  destruct (Nat.ltb_spec 0 (GME.max_support b)) as [Hpos | Hpos]; [| discriminate].
  intros Heq. injection Heq as <-. simpl.
  destruct Hsel as [[Hb _] | (bf & af & Hl & Hu & Hr & Hbf & Haf)].
  { rewrite Hb in Hpos. simpl in Hpos. lia. }
  exists (GME.best_word b), bf, af.
  assert (In (GME.best_word b, GME.best_next_occs b) (GME.next_word_occs docs cand)) as Hin.
  { apply (Permutation_in _ (Hperm _)). fold entries. rewrite Hl.
    apply in_or_app. right. now left. }
  assert (forall u, ~ reaches min_docs u -> u < GME.max_support b) as Hbelow.
  { unfold reaches in *. intros u Hu'. lia. }
  repeat split; try assumption.
  - now apply next_word_occs_bucket.
  - intros w' os Hw'.
    apply (Permutation_in _ (Permutation_sym (Hperm _))) in Hw'. fold entries in Hw'.
    rewrite Hl in Hw'. apply in_app_or in Hw'.
    destruct (Z_le_gt_dec (to_size_t min_docs) (Z.of_nat (GME.distinct_docs os)))
      as [Hre | Hre]; [| apply Nat.lt_le_incl, Hbelow; unfold reaches; lia].
    destruct Hw' as [He | [He | He]].
    + exact (Hbf _ He Hre).
    + injection He as _ <-. lia.
    + specialize (Haf _ He Hre). simpl in Haf. lia.
  - intros e He.
    destruct (Z_le_gt_dec (to_size_t min_docs) (Z.of_nat (GME.distinct_docs (snd e))))
      as [Hre | Hre]; [| apply Hbelow; unfold reaches; lia].
    exact (Haf e He Hre).
Qed.

Lemma insertion_order_perm {A : Type} (m : list A) : Permutation (insertion_order m) m.
Proof. reflexivity. Qed.

Lemma extend_once_choice_witness :
  (forall m : list (token * list GME.Occurrence), Permutation (insertion_order m) m) /\
  GME.extend_once insertion_order tie_docs 1 tie_cand
  = Some (GME.mkPhrase [0; 2] [GME.mkOcc 1 0] 1) /\
  exists w before after,
    insertion_order (GME.next_word_occs tie_docs tie_cand)
    = before ++ (w, [GME.mkOcc 1 0]) :: after /\
    [0; 2] = [0] ++ [w].
Proof.
  assert (GME.extend_once insertion_order tie_docs 1 tie_cand
          = Some (GME.mkPhrase [0; 2] [GME.mkOcc 1 0] 1)) as Hrun
    by (vm_compute; reflexivity).
  split; [exact insertion_order_perm | split; [exact Hrun |]].
  destruct (extend_once_choice insertion_order tie_docs 1 tie_cand _
              insertion_order_perm Hrun)
    as (w & before & after & Hsplit & Htok & _).
  exists w, before, after. split; [exact Hsplit | exact Htok].
Defined.

(** C5 fails as stated.  On the documents [a x] and [a y], with
    [min_docs = 1] and [ngrams = 1], the first candidate is [a]; [x] and
    [y] follow it in one document each, [x] being met first.  When the map
    of next words yields them in that order the scan keeps [y]; when it
    yields them in the opposite order the scan keeps [x], the second word
    it visits.  A tie goes to the word met last by the scan, never to the
    one met first. *)
Lemma tie_goes_to_last_visited :
  hd_error (std_sort GME.by_support (GME.candidates insertion_order tie_docs 1 1))
  = Some tie_cand /\
  GME.next_word_occs tie_docs tie_cand
  = [(1, [GME.mkOcc 0 0]); (2, [GME.mkOcc 1 0])] /\
  GME.distinct_docs [GME.mkOcc 0 0] = GME.distinct_docs [GME.mkOcc 1 0] /\
  GME.extend_once insertion_order tie_docs 1 tie_cand
  = Some (GME.mkPhrase [0; 2] [GME.mkOcc 1 0] 1) /\
  GME.extend_once (@rev _) tie_docs 1 tie_cand
  = Some (GME.mkPhrase [0; 1] [GME.mkOcc 0 0] 1).
Proof.
  repeat split; vm_compute; reflexivity.
Qed.

(** ** The greedy engine: seeds, extension, emitted phrases *)

Section GreedyInvariants.

Variable seeds_order :
  list (list token * list GME.Occurrence) -> list (list token * list GME.Occurrence).
Variable next_order :
  list (token * list GME.Occurrence) -> list (token * list GME.Occurrence).
Variable stop_requested : nat -> bool.
Variable docs : corpus.
Variable min_docs ngrams : Z.

Hypothesis seeds_order_perm : forall m, Permutation (seeds_order m) m.
Hypothesis next_order_perm : forall m, Permutation (next_order m) m.
Hypothesis docs_fit : corpus_fits docs.
Hypothesis ngrams_int : is_int ngrams.

Lemma ngram_occurs (d p : nat) :
  d < length docs ->
  (Z.of_nat (length (doc_at docs d)) <? to_size_t ngrams)%Z = false ->
  p <= Z.to_nat ((Z.of_nat (length (doc_at docs d)) - to_size_t ngrams) mod 2 ^ 64) ->
  occurs_at docs (GME.ngram_at ngrams (doc_at docs d) p) (GME.mkOcc d p).
Proof.
  intros Hd Hguard Hp. apply Z.ltb_ge in Hguard.
  pose proof (doc_at_fits docs d docs_fit) as Hfit.
  destruct (to_size_t_int ngrams ngrams_int) as [Hpos Hneg].
  assert (0 <= ngrams)%Z as Hn.
  { destruct (Z_lt_le_dec ngrams 0) as [H | H]; [| exact H].
    rewrite (Hneg H) in Hguard. unfold is_int in ngrams_int. lia. }
  rewrite (Hpos Hn) in *.
  rewrite Z.mod_small in Hp by lia.
  assert (length (GME.ngram_at ngrams (doc_at docs d) p) = Z.to_nat ngrams) as Hlen.
  { unfold GME.ngram_at. now rewrite length_map, length_seq. }
  unfold occurs_at. simpl. rewrite Hlen. split; [exact Hd | split; [lia |]].
  intros i Hi. unfold GME.ngram_at.
  rewrite nth_error_map, nth_error_seq.
  destruct (Nat.ltb_spec i (Z.to_nat ngrams)) as [_ | H]; [| lia]. simpl.
  rewrite u32_small by lia. apply nth_error_nth'. lia.
Qed.

Lemma seeds_contiguous :
  Forall (fun e => Forall (occurs_at docs (fst e)) (snd e)) (GME.gather_seeds docs ngrams).
Proof.
  unfold GME.gather_seeds.
  apply fold_left_Forall_inv with (Q := fun d => d < length docs).
  - intros seeds d Hseeds Hd. unfold GME.seeds_of_doc.
    destruct (Z.of_nat (length (doc_at docs d)) <? to_size_t ngrams)%Z eqn:Hguard;
      [exact Hseeds |].
    apply fold_left_Forall_inv
      with (Q := fun p => p <= Z.to_nat ((Z.of_nat (length (doc_at docs d))
                                        - to_size_t ngrams) mod 2 ^ 64)).
    + intros s p Hs Hp. apply push_at_Forall; [| now apply ngram_occurs | exact Hs].
      intros k'. apply tokens_eqb_eq.
    + apply Forall_forall. intros p Hp. apply in_seq in Hp. lia.
    + exact Hseeds.
  - apply Forall_forall. intros d Hd. apply in_seq in Hd. lia.
  - constructor.
Qed.

Lemma candidates_ok :
  Forall (fun c => contiguous docs c /\ supported min_docs c)
    (GME.candidates seeds_order docs min_docs ngrams).
Proof.
  unfold GME.candidates.
  apply fold_left_Forall_inv
    with (Q := fun e => Forall (occurs_at docs (fst e)) (snd e)).
  - intros cs e Hcs He.
    destruct (Z.leb_spec (to_size_t min_docs) (Z.of_nat (GME.distinct_docs (snd e))))
      as [Hth | Hth]; [| exact Hcs].
    apply Forall_app. split; [exact Hcs |]. constructor; [| constructor].
    split; [exact He | split; [reflexivity | exact Hth]].
  - pose proof seeds_contiguous as Hs. rewrite Forall_forall in *.
    intros e He. apply Hs. now apply (Permutation_in _ (seeds_order_perm _)).
  - constructor.
Qed.

Lemma next_is_occurs (cand : GME.Phrase) (w : token) (o : GME.Occurrence) :
  occurs_at docs (GME.tokens cand) o ->
  next_is docs cand w o = true ->
  occurs_at docs (GME.tokens cand ++ [w]) o.
Proof.
  intros (Hd & Hlen & Hnth) Hnext. unfold next_is in Hnext. cbv zeta in Hnext.
  pose proof (doc_at_fits docs (GME.doc_id o) docs_fit) as Hfit.
  rewrite u32_small in Hnext by lia.
  apply andb_true_iff in Hnext as [Hin Hw].
  apply Nat.ltb_lt in Hin. apply Nat.eqb_eq in Hw.
  unfold occurs_at. rewrite length_app. simpl.
  split; [exact Hd | split; [lia |]].
  intros i Hi. destruct (Nat.lt_ge_cases i (length (GME.tokens cand))) as [Hlt | Hge].
  - rewrite nth_error_app1 by exact Hlt. now apply Hnth.
  - replace i with (length (GME.tokens cand)) by lia.
    rewrite nth_error_app2, Nat.sub_diag by lia. simpl.
    rewrite <- Hw. apply nth_error_nth'. exact Hin.
Qed.

Lemma extend_once_ok (cand cand' : GME.Phrase) :
  contiguous docs cand ->
  GME.extend_once next_order docs min_docs cand = Some cand' ->
  contiguous docs cand' /\ supported min_docs cand'.
Proof.
  intros Hc Hext.
  destruct (extend_once_bucket next_order docs min_docs cand cand' next_order_perm Hext)
    as (w & Hin & Htok & Hsup & Hre).
  split; [| split; assumption].
  apply next_word_occs_bucket in Hin as [_ Hoccs].
  unfold contiguous in *. rewrite Htok, Hoccs.
  rewrite Forall_forall in *. intros o Ho. apply filter_In in Ho as [Ho Hnext].
  apply next_is_occurs; [now apply Hc | exact Hnext].
Qed.

Lemma expand_ok (fuel : nat) (cand cand' : GME.Phrase) :
  contiguous docs cand /\ supported min_docs cand ->
  GME.expand next_order docs min_docs fuel cand = Done cand' ->
  contiguous docs cand' /\ supported min_docs cand'.
Proof.
  revert cand. induction fuel as [| fuel IH]; intros cand Hc; simpl; [discriminate |].
  destruct (GME.extend_once next_order docs min_docs cand) as [c |] eqn:E.
  - apply IH. eapply extend_once_ok; [apply Hc | exact E].
  - intros H. injection H as <-. exact Hc.
Qed.

Lemma process_ok (fuel : nat) (cands : list GME.Phrase) (c_idx : nat)
    (processed : list (list bool)) (final res : list GME.Phrase) :
  Forall (fun c => contiguous docs c /\ supported min_docs c) cands ->
  Forall (fun c => contiguous docs c /\ supported min_docs c) final ->
  GME.process next_order stop_requested docs min_docs fuel cands c_idx processed final
  = Done res ->
  Forall (fun c => contiguous docs c /\ supported min_docs c) res.
Proof.
  revert c_idx processed final.
  induction cands as [| cand rest IH]; intros c_idx processed final Hcands Hfinal; simpl.
  - intros H. injection H as <-. exact Hfinal.
  - inversion Hcands as [| ? ? Hcand Hrest]; subst.
    destruct (stop_requested c_idx); [intros H; injection H as <-; exact Hfinal |].
    destruct (GME.all_processed processed (GME.occs cand)) as [[|] | |];
      simpl; try discriminate.
    + now apply IH.
    + destruct (GME.expand next_order docs min_docs fuel cand) as [cand' | |] eqn:E;
        simpl; try discriminate.
      apply IH; [exact Hrest |].
      apply Forall_app. split; [exact Hfinal |]. constructor; [| constructor].
      now apply (expand_ok fuel cand).
Qed.

Lemma final_phrases_ok (fuel : nat) (res : list GME.Phrase) :
  GME.final_phrases seeds_order next_order stop_requested docs min_docs ngrams fuel
  = Done res ->
  Forall (fun c => contiguous docs c /\ supported min_docs c) res.
Proof.
  unfold GME.final_phrases. apply process_ok; [| constructor].
  pose proof candidates_ok as Hc. rewrite Forall_forall in *.
  intros c Hin. apply Hc.
  now apply (Permutation_in _ (Permutation_sym (std_sort_perm GME.by_support _))).
Qed.

End GreedyInvariants.

(** ** The greedy engine: [mine] returns *)

Lemma set_nth_length {A : Type} (i : nat) (x : A) (v : list A) :
  length (set_nth i x v) = length v.
Proof.
  revert i. induction v as [| y v IH]; intros [| i]; simpl; try reflexivity.
  now rewrite IH.
Qed.

Lemma set_nth_row_lengths (d : nat) (row : list bool) (pr : list (list bool)) :
  length row = length (nth d pr []) ->
  map (@length bool) (set_nth d row pr) = map (@length bool) pr.
Proof.
  revert d. induction pr as [| r pr IH]; intros [| d] H; simpl in *; try reflexivity.
  - now rewrite H.
  - now rewrite IH.
Qed.

Lemma mark_lengths (docs : corpus) (cand : GME.Phrase) (processed : list (list bool)) :
  map (@length bool) (GME.mark cand processed) = map (@length bool) processed.
Proof.
  unfold GME.mark. generalize (GME.occs cand) as os.
  intros os. revert processed.
  induction os as [| o os IH]; intros processed; simpl; [reflexivity |].
  rewrite IH. unfold GME.mark_occ.
  generalize (seq 0 (length (GME.tokens cand))) as idxs. intros idxs. revert processed.
  induction idxs as [| i idxs IHi]; intros processed; simpl; [reflexivity |].
  rewrite IHi.
  destruct (u32 (GME.pos o + i) <? length (nth (GME.doc_id o) processed []));
    [| reflexivity].
  apply set_nth_row_lengths. apply set_nth_length.
Qed.

Section GreedyTotality.

Variable seeds_order :
  list (list token * list GME.Occurrence) -> list (list token * list GME.Occurrence).
Variable next_order :
  list (token * list GME.Occurrence) -> list (token * list GME.Occurrence).
Variable stop_requested : nat -> bool.
Variable docs : corpus.
Variable min_docs ngrams : Z.

Hypothesis seeds_order_perm : forall m, Permutation (seeds_order m) m.
Hypothesis next_order_perm : forall m, Permutation (next_order m) m.
Hypothesis docs_fit : corpus_fits docs.
Hypothesis ngrams_int : is_int ngrams.
Hypothesis ngrams_nonzero : ngrams <> 0%Z.

Lemma seeds_start_inside :
  Forall (fun e => Forall (starts_inside docs) (snd e)) (GME.gather_seeds docs ngrams).
Proof.
  unfold GME.gather_seeds.
  apply fold_left_Forall_inv with (Q := fun d => d < length docs).
  - intros seeds d Hseeds Hd. unfold GME.seeds_of_doc.
    destruct (Z.of_nat (length (doc_at docs d)) <? to_size_t ngrams)%Z eqn:Hguard;
      [exact Hseeds |].
    apply Z.ltb_ge in Hguard.
    pose proof (doc_at_fits docs d docs_fit) as Hfit.
    destruct (to_size_t_int ngrams ngrams_int) as [Hpos Hneg].
    assert (0 < ngrams)%Z as Hn.
    { destruct (Z_lt_le_dec ngrams 0) as [H | H]; [| lia].
      rewrite (Hneg H) in Hguard. unfold is_int in ngrams_int. lia. }
    rewrite Hpos in * by lia.
    apply fold_left_Forall_inv
      with (Q := fun p => p < length (doc_at docs d)).
    + intros s p Hs Hp.
      apply (push_at_Forall tokens_eqb (fun _ => starts_inside docs));
        [intros k'; apply tokens_eqb_eq | now split | exact Hs].
    + apply Forall_forall. intros p Hp. apply in_seq in Hp.
      rewrite Z.mod_small in Hp by lia. lia.
    + exact Hseeds.
  - apply Forall_forall. intros d Hd. apply in_seq in Hd. lia.
  - constructor.
Qed.

Lemma candidates_start_inside :
  Forall (fun c => Forall (starts_inside docs) (GME.occs c))
    (GME.candidates seeds_order docs min_docs ngrams).
Proof.
  unfold GME.candidates.
  apply fold_left_Forall_inv with (Q := fun e => Forall (starts_inside docs) (snd e)).
  - intros cs e Hcs He.
    destruct (to_size_t min_docs <=? Z.of_nat (GME.distinct_docs (snd e)))%Z;
      [| exact Hcs].
    apply Forall_app. split; [exact Hcs | now repeat constructor].
  - pose proof seeds_start_inside as Hs. rewrite Forall_forall in *.
    intros e He. apply Hs. now apply (Permutation_in _ (seeds_order_perm _)).
  - constructor.
Qed.

Lemma all_processed_returns (processed : list (list bool)) (os : list GME.Occurrence) :
  map (@length bool) processed = map (@length token) docs ->
  Forall (starts_inside docs) os ->
  exists skip, GME.all_processed processed os = Done skip.
Proof.
  intros Hdims. induction 1 as [| o os [Hd Hp] _ IH]; simpl; [eexists; reflexivity |].
  assert (length processed = length docs) as Hlen.
  { apply (f_equal (@length _)) in Hdims. now rewrite !length_map in Hdims. }
  destruct (nth_error processed (GME.doc_id o)) as [row |] eqn:Erow.
  - assert (length row = length (doc_at docs (GME.doc_id o))) as Hrow.
    { apply (f_equal (fun l => nth (GME.doc_id o) l 0)) in Hdims.
      rewrite (nth_indep _ 0 (length (@nil bool))) in Hdims
        by (rewrite length_map; lia).
      rewrite (nth_indep (map _ docs) 0 (length (@nil token))) in Hdims
        by (rewrite length_map; lia).
      rewrite !map_nth in Hdims. unfold doc_at. rewrite <- Hdims.
      f_equal. symmetry. apply nth_error_nth. exact Erow. }
    destruct (nth_error row (GME.pos o)) as [[|] |] eqn:Eflag.
    + exact IH.
    + eexists; reflexivity.
    + apply nth_error_None in Eflag. lia.
  - apply nth_error_None in Erow. lia.
Qed.

Lemma expand_returns (fuel : nat) :
  forall cand,
    contiguous docs cand ->
    1 <= fuel ->
    longest docs + 1 <= fuel + length (GME.tokens cand) ->
    exists cand', GME.expand next_order docs min_docs fuel cand = Done cand'.
Proof.
  induction fuel as [| fuel IH]; intros cand Hc Hpos Hfuel; [lia |]. simpl.
  destruct (GME.extend_once next_order docs min_docs cand) as [c |] eqn:E;
    [| eexists; reflexivity].
  destruct (extend_once_ok next_order docs min_docs next_order_perm docs_fit cand c Hc E)
    as [Hc' _].
  destruct (extend_once_bucket next_order docs min_docs cand c next_order_perm E)
    as (w & Hin & Htok & _).
  apply next_word_occs_bucket in Hin as [Hne _].
  assert (length (GME.tokens c) <= longest docs) as Hlen.
  { destruct (GME.occs c) as [| o os] eqn:Eo; [congruence |].
    unfold contiguous in Hc'. rewrite Eo in Hc'.
    inversion Hc' as [| ? ? (_ & Ho & _) _]; subst.
    pose proof (doc_at_longest docs (GME.doc_id o)). lia. }
  rewrite Htok, length_app in *. simpl in *.
  apply IH; [exact Hc' | lia | rewrite Htok, length_app; simpl; lia].
Qed.

Lemma process_returns (fuel : nat) (cands : list GME.Phrase) :
  forall c_idx processed final,
    longest docs + 1 <= fuel ->
    map (@length bool) processed = map (@length token) docs ->
    Forall (fun c => contiguous docs c /\ Forall (starts_inside docs) (GME.occs c)) cands ->
    exists res,
      GME.process next_order stop_requested docs min_docs fuel cands c_idx
        processed final = Done res.
Proof.
  induction cands as [| cand rest IH]; intros c_idx processed final Hfuel Hdims Hcands;
    simpl; [eexists; reflexivity |].
  inversion Hcands as [| ? ? [Hc Hin] Hrest]; subst.
  destruct (stop_requested c_idx); [eexists; reflexivity |].
  destruct (all_processed_returns processed (GME.occs cand) Hdims Hin) as [skip ->].
  simpl. destruct skip; [now apply IH |].
  destruct (expand_returns fuel cand Hc) as [cand' ->]; [lia | lia |].
  simpl. apply IH; [exact Hfuel | | exact Hrest].
  now rewrite mark_lengths.
Qed.

(** With a loop budget above the length of the longest document, and
    [ngrams] not zero, [mine] reads no vector past its end and hands a
    list of phrases to the writer. *)
Lemma final_phrases_returns (fuel : nat) :
  longest docs + 1 <= fuel ->
  exists res,
    GME.final_phrases seeds_order next_order stop_requested docs min_docs ngrams fuel
    = Done res.
Proof.
  intros Hfuel. unfold GME.final_phrases. apply process_returns; [exact Hfuel | |].
  - unfold GME.processed_init. rewrite map_map. apply map_ext.
    intros doc. apply repeat_length.
  - pose proof (candidates_ok seeds_order docs min_docs ngrams seeds_order_perm
                  docs_fit ngrams_int) as H1.
    pose proof candidates_start_inside as H2.
    rewrite Forall_forall in *. intros c Hc.
    apply (Permutation_in _ (Permutation_sym (std_sort_perm GME.by_support _))) in Hc.
    split; [apply (H1 c Hc) | apply (H2 c Hc)].
Qed.

End GreedyTotality.

(** C7.  Every occurrence [(d, p)] carried by a phrase of the greedy engine
    lies inside document [d] and reads the tokens of the phrase from
    position [p] on: this holds of the seeds kept as candidates, it is
    kept by every turn of the extension loop, and it holds of every phrase
    handed to the writer. *)
Theorem gme_occurrences_contiguous
    (seeds_order :
       list (list token * list GME.Occurrence) -> list (list token * list GME.Occurrence))
    (next_order : list (token * list GME.Occurrence) -> list (token * list GME.Occurrence))
    (stop_requested : nat -> bool) (docs : corpus) (min_docs ngrams : Z) :
  (forall m, Permutation (seeds_order m) m) ->
  (forall m, Permutation (next_order m) m) ->
  corpus_fits docs ->
  is_int ngrams ->
  Forall (contiguous docs) (GME.candidates seeds_order docs min_docs ngrams) /\
  (forall cand cand',
     contiguous docs cand ->
     GME.extend_once next_order docs min_docs cand = Some cand' ->
     contiguous docs cand') /\
  (forall fuel res,
     GME.final_phrases seeds_order next_order stop_requested docs min_docs ngrams fuel
     = Done res ->
     Forall (contiguous docs) res).
Proof.
  intros Hs Hn Hfit Hint. split; [| split].
  - eapply Forall_impl; [| apply (candidates_ok seeds_order docs min_docs ngrams Hs Hfit Hint)].
    intros c [Hc _]. exact Hc.
  - intros cand cand' Hc Hext.
    apply (extend_once_ok next_order docs min_docs Hn Hfit cand cand' Hc Hext).
  - intros fuel res Hres.
    eapply Forall_impl;
      [| apply (final_phrases_ok seeds_order next_order stop_requested docs min_docs
                  ngrams Hs Hn Hfit Hint fuel res Hres)].
    intros c [Hc _]. exact Hc.
Qed.

Lemma abc_fits : corpus_fits abc.
Proof. apply small_corpus_fits; [simpl; lia | repeat constructor; simpl; lia]. Qed.

Lemma gme_occurrences_contiguous_witness :
  (forall m : list (list token * list GME.Occurrence), Permutation (insertion_order m) m) /\
  (forall m : list (token * list GME.Occurrence), Permutation (insertion_order m) m) /\
  corpus_fits abc /\
  is_int 2 /\
  GME.final_phrases insertion_order insertion_order never abc 1 2 10
  = Done [GME.mkPhrase [0; 1; 2; 0; 1; 2; 0; 1; 2] [GME.mkOcc 0 0] 1] /\
  Forall (contiguous abc) [GME.mkPhrase [0; 1; 2; 0; 1; 2; 0; 1; 2] [GME.mkOcc 0 0] 1].
Proof.
  assert (is_int 2) as Hint by (unfold is_int; lia).
  assert (GME.final_phrases insertion_order insertion_order never abc 1 2 10
          = Done [GME.mkPhrase [0; 1; 2; 0; 1; 2; 0; 1; 2] [GME.mkOcc 0 0] 1]) as Hrun
    by (vm_compute; reflexivity).
  repeat (split; [first [exact insertion_order_perm | exact abc_fits
                        | exact Hint | exact Hrun] |]).
  exact (proj2 (proj2 (gme_occurrences_contiguous insertion_order insertion_order never
                         abc 1 2 insertion_order_perm insertion_order_perm abc_fits Hint))
           10 _ Hrun).
Defined.

(** The part of C1 that concerns the greedy engine: the support of every
    phrase handed to the writer is the number of distinct documents among
    its occurrences. *)
Lemma gme_support_counts_documents
    (seeds_order :
       list (list token * list GME.Occurrence) -> list (list token * list GME.Occurrence))
    (next_order : list (token * list GME.Occurrence) -> list (token * list GME.Occurrence))
    (stop_requested : nat -> bool) (docs : corpus) (min_docs ngrams : Z)
    (fuel : nat) (res : list GME.Phrase) :
  (forall m, Permutation (seeds_order m) m) ->
  (forall m, Permutation (next_order m) m) ->
  corpus_fits docs ->
  is_int ngrams ->
  GME.final_phrases seeds_order next_order stop_requested docs min_docs ngrams fuel
  = Done res ->
  Forall (fun p => GME.support p = length (unique_docs (map GME.doc_id (GME.occs p)))) res.
Proof.
  intros Hs Hn Hfit Hint Hres.
  eapply Forall_impl;
    [| apply (final_phrases_ok seeds_order next_order stop_requested docs min_docs
                ngrams Hs Hn Hfit Hint fuel res Hres)].
  intros c [_ [Hc _]]. exact Hc.
Qed.

(** The part of C6 that concerns the greedy engine: the support of every
    phrase handed to the writer is at least [min_docs]. *)
Lemma gme_support_floor
    (seeds_order :
       list (list token * list GME.Occurrence) -> list (list token * list GME.Occurrence))
    (next_order : list (token * list GME.Occurrence) -> list (token * list GME.Occurrence))
    (stop_requested : nat -> bool) (docs : corpus) (min_docs ngrams : Z)
    (fuel : nat) (res : list GME.Phrase) :
  (forall m, Permutation (seeds_order m) m) ->
  (forall m, Permutation (next_order m) m) ->
  corpus_fits docs ->
  is_int ngrams ->
  is_int min_docs ->
  GME.final_phrases seeds_order next_order stop_requested docs min_docs ngrams fuel
  = Done res ->
  Forall (fun p => (min_docs <= Z.of_nat (GME.support p))%Z) res.
Proof.
  intros Hs Hn Hfit Hint Hmin Hres.
  eapply Forall_impl;
    [| apply (final_phrases_ok seeds_order next_order stop_requested docs min_docs
                ngrams Hs Hn Hfit Hint fuel res Hres)].
  intros c [_ [_ Hc]]. unfold reaches in Hc.
  pose proof (to_size_t_ge min_docs Hmin). lia.
Qed.

(** ** The PrefixSpan engine: projection and termination *)

Lemma next_db_eq (docs : corpus) (db : list CPS.Projection) (tok : token) :
  CPS.next_db docs db tok = map advance (filter (advances docs tok) db).
Proof.
  unfold CPS.next_db.
  assert (forall acc,
            fold_left
              (fun acc proj =>
                 let doc := doc_at docs (CPS.doc_id proj) in
                 if (CPS.pos proj <? length doc) && (nth (CPS.pos proj) doc 0 =? tok)
                 then
                   if u32 (CPS.pos proj + 1) <? length doc
                   then acc ++ [CPS.mkProj (CPS.doc_id proj) (u32 (CPS.pos proj + 1))
                                  (CPS.origin proj)]
                   else acc
                 else acc) db acc
            = acc ++ map advance (filter (advances docs tok) db)) as H.
  { induction db as [| p db IH]; intros acc; simpl; [now rewrite app_nil_r |].
    rewrite IH. unfold advances at 2, reads. cbv zeta.
    destruct ((CPS.pos p <? length (doc_at docs (CPS.doc_id p)))
              && (nth (CPS.pos p) (doc_at docs (CPS.doc_id p)) 0 =? tok)); simpl;
      [| reflexivity].
    destruct (u32 (CPS.pos p + 1) <? length (doc_at docs (CPS.doc_id p))); simpl;
      [| reflexivity].
    now rewrite <- app_assoc. }
  apply (H []).
Qed.

Lemma advances_spec (docs : corpus) (tok : token) (p : CPS.Projection) :
  corpus_fits docs ->
  advances docs tok p = true <->
  nth (CPS.pos p) (doc_at docs (CPS.doc_id p)) 0 = tok /\
  CPS.pos p + 1 < length (doc_at docs (CPS.doc_id p)).
Proof.
  intros Hfit. unfold advances, reads. cbv zeta.
  pose proof (doc_at_fits docs (CPS.doc_id p) Hfit) as Hlen.
  rewrite !andb_true_iff, !Nat.ltb_lt, Nat.eqb_eq. split.
  - intros [[Hpos Htok] Hnext]. rewrite u32_small in Hnext by lia. now split.
  - intros [Htok Hnext]. rewrite u32_small by lia. repeat split; [lia | exact Htok | exact Hnext].
Qed.

Lemma next_db_In (docs : corpus) (db : list CPS.Projection) (tok : token)
    (q : CPS.Projection) :
  corpus_fits docs ->
  In q (CPS.next_db docs db tok) <->
  exists p, In p db /\
    nth (CPS.pos p) (doc_at docs (CPS.doc_id p)) 0 = tok /\
    CPS.pos p + 1 < length (doc_at docs (CPS.doc_id p)) /\
    q = CPS.mkProj (CPS.doc_id p) (CPS.pos p + 1) (CPS.origin p).
Proof.
  intros Hfit. rewrite next_db_eq, in_map_iff. split.
  - intros (p & <- & Hp). apply filter_In in Hp as [Hp Hadv].
    apply (advances_spec docs tok p Hfit) in Hadv as [Htok Hnext].
    exists p. repeat split; try assumption. unfold advance.
    pose proof (doc_at_fits docs (CPS.doc_id p) Hfit). now rewrite u32_small by lia.
  - intros (p & Hp & Htok & Hnext & ->). exists p. split.
    + unfold advance.
      pose proof (doc_at_fits docs (CPS.doc_id p) Hfit). now rewrite u32_small by lia.
    + apply filter_In. split; [exact Hp |]. now apply advances_spec.
Qed.

Lemma room_le_db_room (docs : corpus) (db : list CPS.Projection) (p : CPS.Projection) :
  In p db -> room docs p <= db_room docs db.
Proof.
  induction db as [| q db IH]; simpl; [intros [] |].
  intros [-> | H]; [lia | specialize (IH H); lia].
Qed.

Lemma db_room_bound (docs : corpus) (db : list CPS.Projection) (n : nat) :
  (forall p, In p db -> room docs p <= n) -> db_room docs db <= n.
Proof.
  induction db as [| q db IH]; simpl; intros H; [lia |].
  apply Nat.max_lub; [apply H; now left | apply IH; intros p Hp; apply H; now right].
Qed.

Lemma db_room_longest (docs : corpus) (db : list CPS.Projection) :
  db_room docs db <= longest docs.
Proof.
  apply db_room_bound. intros p _. unfold room.
  pose proof (doc_at_longest docs (CPS.doc_id p)). lia.
Qed.

(** The points of a child database have room left, and one token less than
    the points of the parent. *)
Lemma next_db_room (docs : corpus) (db : list CPS.Projection) (tok : token)
    (q : CPS.Projection) :
  corpus_fits docs ->
  In q (CPS.next_db docs db tok) ->
  1 <= room docs q /\ S (room docs q) <= db_room docs db.
Proof.
  intros Hfit Hq. apply (next_db_In docs db tok q Hfit) in Hq
    as (p & Hp & _ & Hnext & ->).
  pose proof (room_le_db_room docs db p Hp) as Hroom.
  unfold room in *. simpl. lia.
Qed.

Section PrefixSpanTermination.

Variable items_order : list (token * list nat) -> list (token * list nat).
Variable docs_order : list nat -> list nat.
Variable stop_requested : nat -> bool.
Variable docs : corpus.
Variable min_docs min_length : nat.

Hypothesis docs_fit : corpus_fits docs.

Lemma mine_recursive_returns (fuel : nat) :
  forall db prefix current_support mode st,
    Nat.max 1 (db_room docs db) <= fuel ->
    exists st',
      CPS.mine_recursive items_order docs_order stop_requested docs min_docs min_length
        fuel db prefix current_support mode st = Done st'.
Proof.
  induction fuel as [| fuel IH]; intros db prefix cs mode st Hfuel; [lia |].
  simpl. destruct (stop_requested (CPS.polls st)); [eexists; reflexivity |].
  generalize
    (CPS.mkState
       (if CPS.should_output min_length prefix mode
             (CPS.analyse min_docs (items_order (CPS.occ_delivery docs db)) cs)
        then CPS.results st ++ [CPS.emitted docs_order db prefix cs]
        else CPS.results st) (S (CPS.polls st))) as st0.
  induction (items_order (CPS.occ_delivery docs db)) as [| entry entries IHe];
    intros st0; simpl; [eexists; reflexivity |].
  destruct (min_docs <=? u32 (length (snd entry))); [| apply IHe].
  destruct (CPS.next_db docs db (fst entry)) as [| q ndb] eqn:E; [apply IHe |].
  destruct (IH (q :: ndb) (prefix ++ [fst entry]) (u32 (length (snd entry))) mode st0)
    as [st1 Hst1].
  - assert (In q (CPS.next_db docs db (fst entry))) as Hq by (rewrite E; now left).
    destruct (next_db_room docs db (fst entry) q docs_fit Hq) as [Hq1 Hq2].
    apply Nat.max_lub; [lia |].
    apply db_room_bound. intros p Hp. rewrite <- E in Hp.
    destruct (next_db_room docs db (fst entry) p docs_fit Hp). lia.
  - rewrite Hst1. apply IHe.
Qed.

End PrefixSpanTermination.

(** C10.  A child projected database holds, for every point of the parent
    that reads the extension token and is not at the last position of its
    document, that point advanced by exactly one position, and nothing
    else.  Hence [mine_recursive] returns, from any database and for all
    parameters and modes, as soon as it may nest one call per token of the
    longest document (one call at least); so does [run]. *)
Theorem mine_recursive_terminates
    (items_order : list (token * list nat) -> list (token * list nat))
    (docs_order : list nat -> list nat) (stop_requested : nat -> bool)
    (docs : corpus) (min_docs min_length : nat) :
  corpus_fits docs ->
  (forall db tok q,
     In q (CPS.next_db docs db tok) <->
     exists p, In p db /\
       nth (CPS.pos p) (doc_at docs (CPS.doc_id p)) 0 = tok /\
       CPS.pos p + 1 < length (doc_at docs (CPS.doc_id p)) /\
       q = CPS.mkProj (CPS.doc_id p) (CPS.pos p + 1) (CPS.origin p)) /\
  (forall fuel db prefix current_support mode st,
     Nat.max 1 (longest docs) <= fuel ->
     exists st',
       CPS.mine_recursive items_order docs_order stop_requested docs min_docs
         min_length fuel db prefix current_support mode st = Done st') /\
  (forall fuel mode,
     Nat.max 1 (longest docs) <= fuel ->
     exists st',
       CPS.run items_order docs_order stop_requested docs min_docs min_length
         fuel mode = Done st').
Proof.
  intros Hfit. split; [| split].
  - intros db tok q. now apply next_db_In.
  - intros fuel db prefix cs mode st Hfuel.
    apply mine_recursive_returns; [exact Hfit |].
    pose proof (db_room_longest docs db). lia.
  - intros fuel mode Hfuel. unfold CPS.run.
    apply mine_recursive_returns; [exact Hfit |].
    pose proof (db_room_longest docs (CPS.initial_db docs)). lia.
Qed.

Lemma mine_recursive_terminates_witness :
  corpus_fits abc /\
  exists st', CPS.run insertion_order insertion_order never abc 1 2 9 CPS.MODE_ALL = Done st'.
Proof.
  split; [exact abc_fits |].
  apply (proj2 (proj2 (mine_recursive_terminates insertion_order insertion_order never
                         abc 1 2 abc_fits))).
  simpl. lia.
Defined.

(** With eight nested calls the run on [a b c a b c a b c] does not
    complete: the bound of the theorem is the least one for this corpus. *)
Example run_abc_needs_nine_levels :
  CPS.run insertion_order insertion_order never abc 1 2 8 CPS.MODE_ALL = OutOfFuel.
Proof. vm_compute. reflexivity. Qed.

(** ** The PrefixSpan engine: what holds of every emitted phrase *)

Section PrefixSpanInduction.

Variable items_order : list (token * list nat) -> list (token * list nat).
Variable docs_order : list nat -> list nat.
Variable stop_requested : nat -> bool.
Variable docs : corpus.
Variable min_docs min_length : nat.
Variable mode : CPS.MiningMode.

(** [Node prefix support db]: what is known at a call; [Out p]: what is
    wanted of an emitted phrase. *)
Variable Node : list token -> nat -> list CPS.Projection -> Prop.
Variable Out : CPS.Phrase -> Prop.

Hypothesis emitted_out :
  forall db prefix current_support,
    Node prefix current_support db ->
    CPS.should_output min_length prefix mode
      (CPS.analyse min_docs (items_order (CPS.occ_delivery docs db)) current_support)
    = true ->
    Out (CPS.emitted docs_order db prefix current_support).

Hypothesis child_node :
  forall db prefix current_support entry,
    Node prefix current_support db ->
    In entry (items_order (CPS.occ_delivery docs db)) ->
    min_docs <= u32 (length (snd entry)) ->
    CPS.next_db docs db (fst entry) <> [] ->
    Node (prefix ++ [fst entry]) (u32 (length (snd entry)))
      (CPS.next_db docs db (fst entry)).

Lemma mine_recursive_results (fuel : nat) :
  forall db prefix current_support st st',
    Node prefix current_support db ->
    Forall Out (CPS.results st) ->
    CPS.mine_recursive items_order docs_order stop_requested docs min_docs min_length
      fuel db prefix current_support mode st = Done st' ->
    Forall Out (CPS.results st').
Proof.
  induction fuel as [| fuel IH]; intros db prefix cs st st' Hnode Hst; simpl;
    [discriminate |].
  destruct (stop_requested (CPS.polls st)).
  { intros H. injection H as <-. exact Hst. }
  set (items := items_order (CPS.occ_delivery docs db)).
  assert (forall entries acc,
            incl entries items ->
            (forall st0, acc = Done st0 -> Forall Out (CPS.results st0)) ->
            fold_left
              (fun acc entry =>
                 st1 <- acc ;;
                 (if min_docs <=? u32 (length (snd entry))
                  then
                    match CPS.next_db docs db (fst entry) with
                    | [] => Done st1
                    | p :: ndb =>
                        CPS.mine_recursive items_order docs_order stop_requested docs
                          min_docs min_length fuel (p :: ndb) (prefix ++ [fst entry])
                          (u32 (length (snd entry))) mode st1
                    end
                  else Done st1))
              entries acc = Done st' ->
            Forall Out (CPS.results st')) as Hfold.
  { induction entries as [| entry entries IHe]; intros acc Hincl Hacc; simpl.
    - apply Hacc.
    - apply IHe; [intros e He; apply Hincl; now right |].
      intros st0. destruct acc as [st1 | |]; simpl; try discriminate.
      specialize (Hacc st1 eq_refl).
      destruct (Nat.leb_spec min_docs (u32 (length (snd entry)))) as [Hth | Hth].
      + destruct (CPS.next_db docs db (fst entry)) as [| q ndb] eqn:E.
        * intros H. injection H as <-. exact Hacc.
        * apply IH; [| exact Hacc]. rewrite <- E.
          apply (child_node db prefix cs entry Hnode); [apply Hincl; now left | exact Hth |].
          rewrite E. discriminate.
      + intros H. injection H as <-. exact Hacc. }
  apply Hfold; [apply incl_refl |].
  intros st0 H. injection H as <-. simpl.
  destruct (CPS.should_output min_length prefix mode (CPS.analyse min_docs items cs)) eqn:E;
    [| exact Hst].
  apply Forall_app. split; [exact Hst |]. constructor; [| constructor].
  exact (emitted_out db prefix cs Hnode E).
Qed.

End PrefixSpanInduction.

(** The part of C6 that concerns the PrefixSpan engine beyond the empty
    prefix: the support of every emitted phrase that has a token is at
    least [min_docs]. *)
Lemma cps_support_floor_nonempty
    (items_order : list (token * list nat) -> list (token * list nat))
    (docs_order : list nat -> list nat) (stop_requested : nat -> bool)
    (m : Miner) (min_docs ngrams : Z) (fuel : nat) (res : list CPS.Phrase) :
  is_int min_docs ->
  CPS.found_phrases items_order docs_order stop_requested m min_docs ngrams fuel
  = Done res ->
  Forall (fun p => CPS.tokens p <> [] -> (min_docs <= Z.of_nat (CPS.support p))%Z) res.
Proof.
  intros Hint. unfold CPS.found_phrases, CPS.run.
  destruct (CPS.mine_recursive _ _ _ _ _ _ _ _ _ _ _ _) as [st | |] eqn:Hrun;
    simpl; try discriminate.
  intros H. injection H as <-.
  apply (mine_recursive_results items_order docs_order stop_requested (docs m)
           (Z.to_nat (to_uint32 min_docs)) (Z.to_nat (to_uint32 ngrams)) CPS.MODE_CLOSED
           (fun prefix cs _ => prefix = [] \/ Z.to_nat (to_uint32 min_docs) <= cs)
           (fun p => CPS.tokens p <> [] -> (min_docs <= Z.of_nat (CPS.support p))%Z))
    with (5 := Hrun).
  - intros db prefix cs [-> | Hcs] _; simpl; [congruence |].
    intros _. pose proof (to_uint32_ge min_docs Hint). lia.
  - intros db prefix cs entry _ _ Hth _. now right.
  - now left.
  - constructor.
Qed.

(** ** The PrefixSpan engine: the projected database of a prefix *)

Lemma firstn_snoc {A : Type} (k : nat) (l : list A) :
  firstn (S k) l
  = firstn k l ++ match nth_error l k with Some x => [x] | None => [] end.
Proof.
  revert l. induction k as [| k IH]; intros [| a l]; simpl; try reflexivity.
  - f_equal. apply (IH l).
Qed.

Lemma matches_at_snoc (doc prefix : list token) (tok : token) (j : nat) :
  matches_at doc (prefix ++ [tok]) j
  = matches_at doc prefix j
    && (j + length prefix <? length doc)
    && (nth (j + length prefix) doc 0 =? tok).
Proof.
  apply Bool.eq_iff_eq_true. unfold matches_at.
  rewrite !andb_true_iff, !tokens_eqb_eq, Nat.ltb_lt, Nat.eqb_eq.
  rewrite length_app. simpl. rewrite Nat.add_1_r, firstn_snoc, nth_error_skipn.
  split.
  - intros H.
    assert (length (firstn (length prefix) (skipn j doc)) <= length prefix) as Hlen
      by apply firstn_le_length.
    destruct (nth_error doc (j + length prefix)) as [x |] eqn:E.
    + apply app_inj_tail in H as [H ->].
      assert (j + length prefix < length doc) as Hlt
        by (apply nth_error_Some; congruence).
      repeat split; try assumption.
      rewrite (nth_error_nth' doc 0 Hlt) in E. congruence.
    + rewrite app_nil_r in H. apply (f_equal (@length _)) in H.
      rewrite length_app in H. simpl in H. lia.
  - intros [[H Hlt] Htok].
    rewrite (nth_error_nth' doc 0 Hlt), Htok. now rewrite H.
Qed.

Lemma matches_at_nil (doc : list token) (j : nat) : matches_at doc [] j = true.
Proof. reflexivity. Qed.

Lemma contains_spec (doc pat : list token) :
  contains doc pat = true <-> exists j, j <= length doc /\ matches_at doc pat j = true.
Proof.
  unfold contains. rewrite existsb_exists. split.
  - intros (j & Hj & Hm). apply in_seq in Hj. exists j. split; [lia | exact Hm].
  - intros (j & Hj & Hm). exists j. split; [apply in_seq; lia | exact Hm].
Qed.

Section ProjectedDatabase.

Variable docs : corpus.
Hypothesis docs_fit : corpus_fits docs.

Lemma db_of_nil : db_of docs [] = CPS.initial_db docs.
Proof.
  unfold db_of. simpl.
  rewrite (filter_ext_in (reached docs []) (fun _ => true)).
  - replace (filter (fun _ => true) (CPS.initial_db docs)) with (CPS.initial_db docs).
    + rewrite <- (map_id (CPS.initial_db docs)) at 2.
      apply map_ext_in. intros p Hp.
      apply (initial_db_In docs p docs_fit) in Hp as (_ & _ & Ho).
      destruct p as [d j o]. unfold shift. simpl in *. subst o. f_equal. lia.
    + induction (CPS.initial_db docs) as [| a l IH]; simpl; congruence.
  - intros p Hp. apply (initial_db_In docs p docs_fit) in Hp as (_ & Hpos & Ho).
    unfold reached. cbv zeta. rewrite matches_at_nil. simpl.
    apply Nat.ltb_lt. lia.
Qed.

Lemma reached_snoc (prefix : list token) (tok : token) (p0 : CPS.Projection) :
  reached docs (prefix ++ [tok]) p0
  = reached docs prefix p0 && advances docs tok (shift (length prefix) p0).
Proof.
  unfold reached, advances, reads, shift. cbv zeta. simpl.
  rewrite matches_at_snoc, length_app. simpl.
  pose proof (doc_at_fits docs (CPS.doc_id p0) docs_fit) as Hfit.
  set (doc := doc_at docs (CPS.doc_id p0)) in *.
  set (j := CPS.origin p0). set (k := length prefix).
  destruct (Nat.ltb_spec (j + k) (length doc)) as [Hlt | Hge].
  - rewrite u32_small by lia.
    replace (j + (k + 1)) with (j + k + 1) by lia.
    destruct (matches_at doc prefix j), (nth (j + k) doc 0 =? tok); reflexivity.
  - destruct (Nat.ltb_spec (j + (k + 1)) (length doc)); [lia |].
    destruct (matches_at doc prefix j); reflexivity.
Qed.

Lemma next_db_db_of (prefix : list token) (tok : token) :
  CPS.next_db docs (db_of docs prefix) tok = db_of docs (prefix ++ [tok]).
Proof.
  rewrite next_db_eq. unfold db_of.
  rewrite filter_map_swap, map_map.
  assert (forall l,
            filter (fun a => advances docs tok (shift (length prefix) a))
              (filter (reached docs prefix) l)
            = filter (reached docs (prefix ++ [tok])) l) as Hfilter.
  { induction l as [| a l IH]; simpl; [reflexivity |].
    rewrite (reached_snoc prefix tok a).
    destruct (reached docs prefix a); simpl; [| exact IH].
    destruct (advances docs tok (shift (length prefix) a)); simpl; [| exact IH].
    now rewrite IH. }
  rewrite Hfilter. apply map_ext_in. intros p0 Hp0.
  apply filter_In in Hp0 as [_ Hreach].
  unfold reached in Hreach. cbv zeta in Hreach.
  apply andb_true_iff in Hreach as [_ Hroom]. apply Nat.ltb_lt in Hroom.
  rewrite length_app in *. simpl in *.
  pose proof (doc_at_fits docs (CPS.doc_id p0) docs_fit) as Hfit.
  unfold advance, shift. simpl. rewrite u32_small by lia. f_equal. lia.
Qed.

End ProjectedDatabase.

(** ** The PrefixSpan engine: counting documents *)

Lemma StronglySorted_app {A : Type} (R : A -> A -> Prop) (l1 l2 : list A) :
  StronglySorted R l1 -> StronglySorted R l2 ->
  (forall a b, In a l1 -> In b l2 -> R a b) ->
  StronglySorted R (l1 ++ l2).
Proof.
  induction l1 as [| x l1 IH]; intros H1 H2 H12; simpl; [exact H2 |].
  inversion H1 as [| ? ? Hl1 Hx]; subst. constructor.
  - apply IH; [exact Hl1 | exact H2 |]. intros a b Ha Hb. apply H12; [now right | exact Hb].
  - apply Forall_app. split; [exact Hx |].
    apply Forall_forall. intros b Hb. apply H12; [now left | exact Hb].
Qed.

Lemma StronglySorted_snoc_inv {A : Type} (R : A -> A -> Prop) (l : list A) (x : A) :
  StronglySorted R (l ++ [x]) -> StronglySorted R l /\ Forall (fun a => R a x) l.
Proof.
  induction l as [| a l IH]; simpl; intros H; [split; constructor |].
  inversion H as [| ? ? Hl Ha]; subst. destruct (IH Hl) as [Hs Hf].
  apply Forall_app in Ha as [Ha Hax]. split.
  - now constructor.
  - constructor; [now inversion Hax | exact Hf].
Qed.

Lemma StronglySorted_filter {A : Type} (R : A -> A -> Prop) (f : A -> bool) (l : list A) :
  StronglySorted R l -> StronglySorted R (filter f l).
Proof.
  induction 1 as [| a l Hl IH Ha]; simpl; [constructor |].
  destruct (f a); [| exact IH]. constructor; [exact IH |].
  rewrite Forall_forall in *. intros b Hb. apply Ha. now apply filter_In in Hb as [Hb _].
Qed.

Lemma StronglySorted_map {A B : Type} (R : B -> B -> Prop) (f : A -> B) (l : list A) :
  StronglySorted (fun a b => R (f a) (f b)) l -> StronglySorted R (map f l).
Proof.
  induction 1 as [| a l Hl IH Ha]; simpl; constructor; [exact IH |].
  rewrite Forall_forall in *. intros b Hb.
  apply in_map_iff in Hb as (a' & <- & Ha'). now apply Ha.
Qed.

Lemma by_doc_initial (docs : corpus) : by_doc (CPS.initial_db docs).
Proof.
  unfold by_doc, CPS.initial_db.
  match goal with |- StronglySorted _ (flat_map ?g _) => set (points := g) end.
  assert (forall i p, In p (points i) -> CPS.doc_id p = i) as Hdoc.
  { intros i p. unfold points. destruct (doc_at docs i) as [| t doc]; [intros [] |].
    intros Hp. apply in_map_iff in Hp as (j & <- & _). reflexivity. }
  assert (forall len start,
            StronglySorted (fun a b => CPS.doc_id a <= CPS.doc_id b)
              (flat_map points (seq start len))) as H; [| apply H].
  induction len as [| len IH]; intros start; simpl; [constructor |].
  apply StronglySorted_app.
  - assert (forall l, (forall p, In p l -> CPS.doc_id p = start) ->
              StronglySorted (fun a b => CPS.doc_id a <= CPS.doc_id b) l) as Hconst.
    { induction l as [| a l IHl]; intros Hl; constructor.
      - apply IHl. intros p Hp. apply Hl. now right.
      - apply Forall_forall. intros b Hb.
        rewrite (Hl a) by now left. rewrite (Hl b) by now right. lia. }
    apply Hconst. apply Hdoc.
  - apply IH.
  - intros a b Ha Hb. rewrite (Hdoc start a Ha).
    apply in_flat_map in Hb as (i & Hi & Hb). apply in_seq in Hi.
    rewrite (Hdoc i b Hb). lia.
Qed.

Lemma by_doc_db_of (docs : corpus) (prefix : list token) : by_doc (db_of docs prefix).
Proof.
  unfold by_doc, db_of. apply StronglySorted_map. simpl.
  apply StronglySorted_filter. apply by_doc_initial.
Qed.

Lemma last_In (v : list nat) : v <> [] -> In (last v 0) v.
Proof.
  induction v as [| a v IH]; [congruence |]. intros _.
  destruct v as [| b v]; [now left |].
  right. apply IH. discriminate.
Qed.

Lemma reads_token (docs : corpus) (t : token) (p : CPS.Projection) :
  reads docs t p = true <->
  CPS.pos p < length (doc_at docs (CPS.doc_id p)) /\
  nth (CPS.pos p) (doc_at docs (CPS.doc_id p)) 0 = t.
Proof.
  unfold reads. cbv zeta. now rewrite andb_true_iff, Nat.ltb_lt, Nat.eqb_eq.
Qed.

Lemma delivered_step (docs : corpus) (l : list CPS.Projection)
    (m : list (token * list nat)) (x : CPS.Projection) :
  delivered docs l m ->
  (forall p, In p l -> CPS.doc_id p <= CPS.doc_id x) ->
  delivered docs (l ++ [x])
    (if CPS.pos x <? length (doc_at docs (CPS.doc_id x))
     then CPS.push_if_differs (nth (CPS.pos x) (doc_at docs (CPS.doc_id x)) 0)
            (CPS.doc_id x) m
     else m).
Proof.
  intros (Hnd & Hent & Hkeys) Hmax.
  destruct (Nat.ltb_spec (CPS.pos x) (length (doc_at docs (CPS.doc_id x)))) as [Hin | Hout].
  - cbv iota.
    set (t0 := nth (CPS.pos x) (doc_at docs (CPS.doc_id x)) 0).
    set (d' := CPS.doc_id x) in *.
    assert (forall t, reads docs t x = true <-> t = t0) as Hx.
    { intros t. rewrite reads_token. fold t0. intuition. }
    unfold CPS.push_if_differs.
    set (f := fun v : list nat => if CPS.back_differs v d' then v ++ [d'] else v).
    pose proof (update_at_keys Nat.eqb Nat.eqb_eq t0 f m) as Hk.
    split; [| split].
    + destruct Hk as [[_ ->] | [Hnin ->]]; [exact Hnd |].
      apply NoDup_app; [exact Hnd | repeat constructor; intros [] |].
      intros k Hk [<- | []]. now apply Hnin.
    + intros t v Htv.
      apply (update_at_entries Nat.eqb Nat.eqb_eq) in Htv; [| exact Hnd].
      destruct Htv as [[Hne Htv] | [[-> (v0 & Htv & ->)] | (-> & Hnin & ->)]].
      * destruct (Hent t v Htv) as (Hv & Hvnd & Hmem & Hlast).
        repeat split; try assumption.
        -- intros Hd. apply Hmem in Hd as (p & Hp & Hr & Hd).
           exists p. split; [apply in_or_app; now left | now split].
        -- intros (p & Hp & Hr & Hd). apply Hmem. apply in_app_or in Hp.
           destruct Hp as [Hp | [<- | []]]; [now exists p |].
           apply Hx in Hr. congruence.
        -- intros p Hp Hr. apply in_app_or in Hp.
           destruct Hp as [Hp | [<- | []]]; [now apply Hlast |].
           apply Hx in Hr. congruence.
      * destruct (Hent t0 v0 Htv) as (Hv & Hvnd & Hmem & Hlast).
        assert (CPS.back_differs v0 d' = negb (last v0 0 =? d')) as Hbd.
        { destruct v0; [congruence | reflexivity]. }
        unfold f. rewrite Hbd.
        destruct (Nat.eqb_spec (last v0 0) d') as [Heq | Hneq]; simpl.
        -- repeat split; try assumption.
           ++ intros Hd. apply Hmem in Hd as (p & Hp & Hr & Hd).
              exists p. split; [apply in_or_app; now left | now split].
           ++ intros (p & Hp & Hr & Hd). apply in_app_or in Hp.
              destruct Hp as [Hp | [<- | []]]; [apply Hmem; now exists p |].
              fold d' in Hd. subst d. rewrite <- Heq. now apply last_In.
           ++ intros p Hp Hr. apply in_app_or in Hp.
              destruct Hp as [Hp | [<- | []]]; [now apply Hlast |].
              fold d'. lia.
        -- assert (~ In d' v0) as Hfresh.
           { intros Hd. apply Hmem in Hd as (p & Hp & Hr & Hd).
             specialize (Hlast p Hp Hr).
             pose proof (last_In v0 Hv) as Hl.
             apply Hmem in Hl as (q & Hq & _ & Hql).
             specialize (Hmax q Hq). lia. }
           repeat split.
           ++ intros H. now apply app_eq_nil in H as [_ H].
           ++ apply NoDup_app; [exact Hvnd | repeat constructor; intros [] |].
              intros d Hd [<- | []]. now apply Hfresh.
           ++ intros Hd. apply in_app_or in Hd. destruct Hd as [Hd | [<- | []]].
              ** apply Hmem in Hd as (p & Hp & Hr & Hd).
                 exists p. split; [apply in_or_app; now left | now split].
              ** exists x. split; [apply in_or_app; right; now left |].
                 split; [now apply Hx | reflexivity].
           ++ intros (p & Hp & Hr & Hd). apply in_or_app. apply in_app_or in Hp.
              destruct Hp as [Hp | [<- | []]]; [left; apply Hmem; now exists p |].
              right. now left.
           ++ intros p Hp Hr. rewrite last_last. apply in_app_or in Hp.
              destruct Hp as [Hp | [<- | []]]; [now apply Hmax | fold d'; lia].
      * assert (forall p, In p l -> reads docs t0 p = true -> False) as Hnone.
        { intros p Hp Hr. apply Hnin. now apply (Hkeys p t0). }
        unfold f. simpl. repeat split.
        -- discriminate.
        -- repeat constructor. intros [].
        -- intros [<- | []]. exists x. split; [apply in_or_app; right; now left |].
           split; [now apply Hx | reflexivity].
        -- intros (p & Hp & Hr & Hd). apply in_app_or in Hp.
           destruct Hp as [Hp | [<- | []]]; [destruct (Hnone p Hp Hr) | now left].
        -- intros p Hp Hr. apply in_app_or in Hp.
           destruct Hp as [Hp | [<- | []]]; [destruct (Hnone p Hp Hr) | fold d'; lia].
    + intros p t Hp Hr. apply in_app_or in Hp.
      destruct Hk as [[Hin0 ->] | [Hnin ->]].
      * destruct Hp as [Hp | [<- | []]]; [now apply (Hkeys p) |].
        apply Hx in Hr. now subst t.
      * apply in_or_app. destruct Hp as [Hp | [<- | []]]; [left; now apply (Hkeys p) |].
        apply Hx in Hr. subst t. right. now left.
  - assert (forall t, reads docs t x = false) as Hx.
    { intros t. unfold reads. cbv zeta.
      destruct (Nat.ltb_spec (CPS.pos x) (length (doc_at docs (CPS.doc_id x))));
        [lia | reflexivity]. }
    cbv iota. split; [exact Hnd | split].
    + intros t v Htv. destruct (Hent t v Htv) as (Hv & Hvnd & Hmem & Hlast).
      repeat split; try assumption.
      * intros Hd. apply Hmem in Hd as (p & Hp & Hr & Hd).
        exists p. split; [apply in_or_app; now left | now split].
      * intros (p & Hp & Hr & Hd). apply Hmem. apply in_app_or in Hp.
        destruct Hp as [Hp | [<- | []]]; [now exists p |].
        rewrite Hx in Hr. discriminate.
      * intros p Hp Hr. apply in_app_or in Hp.
        destruct Hp as [Hp | [<- | []]]; [now apply Hlast |].
        rewrite Hx in Hr. discriminate.
    + intros p t Hp Hr. apply in_app_or in Hp.
      destruct Hp as [Hp | [<- | []]]; [now apply (Hkeys p) |].
      rewrite Hx in Hr. discriminate.
Qed.

Lemma occ_delivery_delivered (docs : corpus) (db : list CPS.Projection) :
  by_doc db -> delivered docs db (CPS.occ_delivery docs db).
Proof.
  unfold CPS.occ_delivery.
  induction db as [| x l IH] using rev_ind; intros Hsorted.
  - split; [constructor | split]; simpl; intros; contradiction.
  - apply StronglySorted_snoc_inv in Hsorted as [Hl Hx].
    rewrite fold_left_app. simpl. apply delivered_step; [now apply IH |].
    rewrite Forall_forall in Hx. exact Hx.
Qed.

Lemma filter_seq_length (f : list token -> bool) (docs : corpus) :
  length (filter (fun d => f (doc_at docs d)) (seq 0 (length docs)))
  = length (filter f docs).
Proof.
  unfold doc_at. induction docs as [| x docs IH] using rev_ind; [reflexivity |].
  rewrite length_app. simpl. rewrite Nat.add_1_r, seq_S, !filter_app, !length_app.
  simpl. rewrite nth_middle. f_equal.
  - rewrite <- IH. f_equal. apply filter_ext_in.
    intros d Hd. apply in_seq in Hd. now rewrite app_nth1 by lia.
  - now destruct (f x).
Qed.

Lemma doc_support_le (docs : corpus) (pat : list token) :
  doc_support docs pat <= length docs.
Proof. apply filter_length_le. Qed.

Lemma doc_support_positive (docs : corpus) (pat : list token) :
  1 <= doc_support docs pat ->
  exists d, d < length docs /\ contains (doc_at docs d) pat = true.
Proof.
  unfold doc_support. intros H.
  destruct (filter (fun doc => contains doc pat) docs) as [| doc l] eqn:E;
    [simpl in H; lia |].
  assert (In doc (filter (fun doc => contains doc pat) docs)) as Hin
    by (rewrite E; now left).
  apply filter_In in Hin as [Hin Hc].
  apply (In_nth _ _ []) in Hin as (d & Hd & Hnth).
  exists d. unfold doc_at. rewrite Hnth. now split.
Qed.

Section DocumentCounts.

Variable docs : corpus.
Hypothesis docs_fit : corpus_fits docs.

(** A point of the database of [prefix] reads [tok] in document [d]
    exactly when [prefix] followed by [tok] is a run of document [d]. *)
Lemma db_of_reads (prefix : list token) (tok : token) (d : nat) :
  (exists p, In p (db_of docs prefix) /\ reads docs tok p = true /\ CPS.doc_id p = d) <->
  d < length docs /\ contains (doc_at docs d) (prefix ++ [tok]) = true.
Proof.
  split.
  - intros (p & Hp & Hr & <-). unfold db_of in Hp.
    apply in_map_iff in Hp as (p0 & <- & Hp0). apply filter_In in Hp0 as [Hp0 Hreach].
    apply (initial_db_In docs p0 docs_fit) in Hp0 as (Hd & Hpos & Ho).
    simpl. split; [exact Hd |].
    apply contains_spec. exists (CPS.origin p0). split; [lia |].
    rewrite matches_at_snoc.
    unfold reached in Hreach. cbv zeta in Hreach.
    apply andb_true_iff in Hreach as [Hm Hroom].
    apply reads_token in Hr as [_ Hr]. simpl in Hr.
    rewrite Hm, Hroom, Hr. simpl. apply Nat.eqb_refl.
  - intros (Hd & Hc). apply contains_spec in Hc as (j & Hj & Hm).
    rewrite matches_at_snoc in Hm.
    apply andb_true_iff in Hm as [Hm Htok]. apply andb_true_iff in Hm as [Hm Hroom].
    apply Nat.ltb_lt in Hroom. apply Nat.eqb_eq in Htok.
    exists (shift (length prefix) (CPS.mkProj d j j)). split; [| split].
    + unfold db_of. apply in_map. apply filter_In. split.
      * apply (initial_db_In docs _ docs_fit). simpl. repeat split; lia.
      * unfold reached. cbv zeta. simpl. rewrite Hm. simpl. now apply Nat.ltb_lt.
    + apply reads_token. simpl. split; [exact Hroom | exact Htok].
    + reflexivity.
Qed.

Lemma bucket_length (prefix : list token) (tok : token) (v : list nat) :
  In (tok, v) (CPS.occ_delivery docs (db_of docs prefix)) ->
  v <> [] /\ length v = doc_support docs (prefix ++ [tok]).
Proof.
  intros Hin.
  destruct (occ_delivery_delivered docs (db_of docs prefix) (by_doc_db_of docs prefix))
    as (_ & Hent & _).
  destruct (Hent tok v Hin) as (Hv & Hnd & Hmem & _). split; [exact Hv |].
  unfold doc_support.
  rewrite <- (filter_seq_length (fun doc => contains doc (prefix ++ [tok])) docs).
  apply Permutation_length. apply NoDup_Permutation.
  - exact Hnd.
  - apply NoDup_filter. apply seq_NoDup.
  - intros d. rewrite Hmem, db_of_reads, filter_In, in_seq. intuition lia.
Qed.

Lemma bucket_present (prefix : list token) (tok : token) :
  1 <= doc_support docs (prefix ++ [tok]) ->
  exists v, In (tok, v) (CPS.occ_delivery docs (db_of docs prefix)).
Proof.
  intros H. apply doc_support_positive in H as (d & Hd & Hc).
  destruct (proj2 (db_of_reads prefix tok d) (conj Hd Hc)) as (p & Hp & Hr & _).
  destruct (occ_delivery_delivered docs (db_of docs prefix) (by_doc_db_of docs prefix))
    as (_ & _ & Hkeys).
  specialize (Hkeys p tok Hp Hr).
  apply in_map_iff in Hkeys as ([t v] & Ht & Hin). simpl in Ht. subst t. now exists v.
Qed.

End DocumentCounts.

Lemma analyse_same_support (min_docs : nat) (items : list (token * list nat))
    (current_support : nat) (e : token * list nat) :
  In e items ->
  min_docs <= u32 (length (snd e)) ->
  u32 (length (snd e)) = current_support ->
  snd (CPS.analyse min_docs items current_support) = true.
Proof.
  unfold CPS.analyse. intros Hin Hth Heq.
  assert (forall l flags,
            snd flags = true \/ In e l ->
            snd (fold_left
                   (fun flags entry =>
                      let support := u32 (length (snd entry)) in
                      if min_docs <=? support
                      then (true, if support =? current_support then true else snd flags)
                      else flags) l flags) = true) as H.
  { induction l as [| x l IH]; intros flags Hor; simpl.
    - destruct Hor as [H | []]. exact H.
    - apply IH. destruct Hor as [H | [-> | H]]; [| | now right]; left.
      + destruct (min_docs <=? u32 (length (snd x))); [| exact H]. simpl.
        destruct (u32 (length (snd x)) =? current_support); [reflexivity | exact H].
      + destruct (Nat.leb_spec min_docs (u32 (length (snd e)))); [| lia]. simpl.
        now rewrite Heq, Nat.eqb_refl. }
  apply H. now right.
Qed.

(** ** The PrefixSpan engine: phrases with at least one token *)

(** Every phrase with at least one token that the engine emits carries as
    support the number of documents of which it is a contiguous run, which
    is at least [min_docs]; it has at least [min_length] tokens and an
    occurrence that does not end its document; in mode CLOSED no extension
    of it by one token has the same support.  This is C8 without the empty
    prefix. *)
Lemma cps_emitted_phrases
    (items_order : list (token * list nat) -> list (token * list nat))
    (docs_order : list nat -> list nat) (stop_requested : nat -> bool)
    (docs : corpus) (min_docs min_length fuel : nat) (mode : CPS.MiningMode)
    (st : CPS.State) :
  (forall m, Permutation (items_order m) m) ->
  corpus_fits docs ->
  CPS.run items_order docs_order stop_requested docs min_docs min_length fuel mode
  = Done st ->
  Forall
    (fun p =>
       CPS.tokens p <> [] ->
       CPS.support p = doc_support docs (CPS.tokens p) /\
       min_docs <= CPS.support p /\
       min_length <= length (CPS.tokens p) /\
       db_of docs (CPS.tokens p) <> [] /\
       (mode = CPS.MODE_CLOSED ->
        forall w, doc_support docs (CPS.tokens p ++ [w]) <> CPS.support p))
    (CPS.results st).
Proof.
  intros Hperm Hfit Hrun. unfold CPS.run in Hrun.
  apply (mine_recursive_results items_order docs_order stop_requested docs
           min_docs min_length mode
           (fun prefix cs db =>
              db = db_of docs prefix /\
              (prefix <> [] ->
               cs = doc_support docs prefix /\ min_docs <= cs /\ 1 <= cs /\ db <> [])))
    with (5 := Hrun).
  - intros db prefix cs [-> Hnode] Hout. simpl. intros Hne.
    destruct (Hnode Hne) as (Hcs & Hmin & Hpos & Hdb).
    unfold CPS.should_output in Hout.
    destruct (Nat.leb_spec min_length (length prefix)) as [Hlen | Hlen];
      [| discriminate].
    split; [exact Hcs | split; [exact Hmin | split; [exact Hlen | split; [exact Hdb |]]]].
    intros -> w Hw. apply negb_true_iff in Hout.
    destruct (bucket_present docs Hfit prefix w) as [v Hv]; [lia |].
    destruct (bucket_length docs Hfit prefix w v Hv) as [_ Hbucket].
    assert (u32 (length v) = cs) as Hu.
    { rewrite u32_small; [lia |].
      pose proof (doc_support_le docs (prefix ++ [w])). destruct Hfit as [Hn _]. lia. }
    rewrite (analyse_same_support min_docs _ cs (w, v)) in Hout; try discriminate.
    + now apply (Permutation_in _ (Permutation_sym (Hperm _))).
    + simpl. lia.
    + exact Hu.
  - intros db prefix cs [tok v] [-> _] Hin Hth Hnext. simpl in *.
    apply (Permutation_in _ (Hperm _)) in Hin.
    destruct (bucket_length docs Hfit prefix tok v Hin) as [Hv Hbucket].
    assert (u32 (length v) = length v) as Hu.
    { apply u32_small.
      pose proof (doc_support_le docs (prefix ++ [tok])). destruct Hfit as [Hn _]. lia. }
    split; [now apply next_db_db_of |]. intros _. rewrite Hu in *.
    split; [exact Hbucket | split; [exact Hth | split; [| exact Hnext]]].
    destruct v; [congruence | simpl; lia].
  - split; [symmetry; now apply db_of_nil | congruence].
  - constructor.
Qed.

(** ** The PrefixSpan engine: which patterns mode ALL emits *)

Lemma matches_at_app (doc pat ext : list token) (j : nat) :
  matches_at doc (pat ++ ext) j = true -> matches_at doc pat j = true.
Proof.
  induction ext as [| x ext IH] using rev_ind; [now rewrite app_nil_r |].
  rewrite app_assoc, matches_at_snoc. intros H.
  apply andb_true_iff in H as [H _]. apply andb_true_iff in H as [H _]. now apply IH.
Qed.

Lemma filter_length_le_impl {A : Type} (f g : A -> bool) (l : list A) :
  (forall x, f x = true -> g x = true) ->
  length (filter f l) <= length (filter g l).
Proof.
  intros Hfg. induction l as [| x l IH]; simpl; [lia |].
  destruct (f x) eqn:E; [rewrite (Hfg x E); simpl; lia |].
  destruct (g x); simpl; lia.
Qed.

Lemma doc_support_app (docs : corpus) (pat ext : list token) :
  doc_support docs (pat ++ ext) <= doc_support docs pat.
Proof.
  unfold doc_support. apply filter_length_le_impl. intros doc H.
  apply contains_spec in H as (j & Hj & Hm). apply contains_spec.
  exists j. split; [exact Hj | now apply (matches_at_app doc pat ext)].
Qed.

Lemma next_db_nil (docs : corpus) (tok : token) : CPS.next_db docs [] tok = [].
Proof. reflexivity. Qed.

Lemma db_of_app (docs : corpus) (pat ext : list token) :
  corpus_fits docs -> db_of docs (pat ++ ext) <> [] -> db_of docs pat <> [].
Proof.
  intros Hfit. induction ext as [| x ext IH] using rev_ind; [now rewrite app_nil_r |].
  rewrite app_assoc, <- (next_db_db_of docs Hfit). intros H. apply IH.
  intros Hnil. apply H. now rewrite Hnil.
Qed.

Section AllMode.

Variable items_order : list (token * list nat) -> list (token * list nat).
Variable docs_order : list nat -> list nat.
Variable docs : corpus.
Variable min_docs min_length : nat.

Hypothesis items_order_perm : forall m, Permutation (items_order m) m.
Hypothesis docs_fit : corpus_fits docs.

(** The loop of step 4, from the state [acc] on. *)
Lemma expansion_Done (fuel : nat) (db : list CPS.Projection) (prefix : list token)
    (mode : CPS.MiningMode) (stop_requested : nat -> bool)
    (entries : list (token * list nat)) (acc : outcome CPS.State) (st' : CPS.State) :
  fold_left
    (fun acc entry =>
       st1 <- acc ;;
       (if min_docs <=? u32 (length (snd entry))
        then
          match CPS.next_db docs db (fst entry) with
          | [] => Done st1
          | p :: ndb =>
              CPS.mine_recursive items_order docs_order stop_requested docs
                min_docs min_length fuel (p :: ndb) (prefix ++ [fst entry])
                (u32 (length (snd entry))) mode st1
          end
        else Done st1))
    entries acc = Done st' ->
  exists st0, acc = Done st0.
Proof.
  revert acc. induction entries as [| e entries IH]; intros acc; simpl.
  - intros ->. now exists st'.
  - intros H. apply IH in H as [st0 H].
    destruct acc as [st1 | |]; simpl in H; try discriminate. now exists st1.
Qed.

Lemma mine_recursive_keeps (fuel : nat) (stop_requested : nat -> bool)
    (mode : CPS.MiningMode) :
  forall db prefix current_support st st' p,
    CPS.mine_recursive items_order docs_order stop_requested docs min_docs min_length
      fuel db prefix current_support mode st = Done st' ->
    In p (CPS.results st) -> In p (CPS.results st').
Proof.
  induction fuel as [| fuel IH]; intros db prefix cs st st' p Hrun Hp; simpl in Hrun;
    [discriminate |].
  destruct (stop_requested (CPS.polls st)).
  { injection Hrun as <-. exact Hp. }
  revert Hrun.
  match goal with
  | |- fold_left _ _ (Done ?s0) = _ -> _ =>
      assert (In p (CPS.results s0)) as Hp0;
      [simpl; destruct (CPS.should_output _ _ _ _);
       [apply in_or_app; now left | exact Hp] |];
      generalize dependent s0
  end.
  induction (items_order (CPS.occ_delivery docs db)) as [| e entries IHe];
    intros s0 Hp0; simpl.
  - intros H. injection H as <-. exact Hp0.
  - destruct (min_docs <=? u32 (length (snd e))); [| now apply IHe].
    destruct (CPS.next_db docs db (fst e)) as [| q ndb]; [now apply IHe |].
    intros H. destruct (expansion_Done _ _ _ _ _ _ _ _ H) as [s1 Hs1].
    rewrite Hs1 in H. apply (IHe s1); [| exact H].
    exact (IH _ _ _ _ _ _ Hs1 Hp0).
Qed.

Lemma expansion_keeps (fuel : nat) (db : list CPS.Projection) (prefix : list token)
    (mode : CPS.MiningMode) (stop_requested : nat -> bool)
    (entries : list (token * list nat)) (s0 st' : CPS.State) (p : CPS.Phrase) :
  fold_left
    (fun acc entry =>
       st1 <- acc ;;
       (if min_docs <=? u32 (length (snd entry))
        then
          match CPS.next_db docs db (fst entry) with
          | [] => Done st1
          | p :: ndb =>
              CPS.mine_recursive items_order docs_order stop_requested docs
                min_docs min_length fuel (p :: ndb) (prefix ++ [fst entry])
                (u32 (length (snd entry))) mode st1
          end
        else Done st1))
    entries (Done s0) = Done st' ->
  In p (CPS.results s0) -> In p (CPS.results st').
Proof.
  revert s0. induction entries as [| e entries IHe]; intros s0; simpl.
  - intros H. injection H as <-. trivial.
  - destruct (min_docs <=? u32 (length (snd e))); [| now apply IHe].
    destruct (CPS.next_db docs db (fst e)) as [| q ndb]; [now apply IHe |].
    intros H Hp. destruct (expansion_Done _ _ _ _ _ _ _ _ H) as [s1 Hs1].
    rewrite Hs1 in H. apply (IHe s1 H).
    exact (mine_recursive_keeps _ _ _ _ _ _ _ _ _ Hs1 Hp).
Qed.

(** In mode ALL, with the stop flag down, the call made for [prefix]
    emits every frequent pattern that extends [prefix] and has an
    occurrence that does not end its document. *)
Lemma all_mode_reaches (ext : list token) :
  forall fuel prefix current_support st st',
    CPS.mine_recursive items_order docs_order never docs min_docs min_length
      fuel (db_of docs prefix) prefix current_support CPS.MODE_ALL st = Done st' ->
    min_length <= length (prefix ++ ext) ->
    (ext <> [] ->
     min_docs <= doc_support docs (prefix ++ ext) /\
     db_of docs (prefix ++ ext) <> []) ->
    exists p, In p (CPS.results st') /\ CPS.tokens p = prefix ++ ext.
Proof.
  induction ext as [| w ext IH]; intros fuel prefix cs st st' Hrun Hlen Hext;
    (destruct fuel as [| fuel]; [discriminate |]); simpl in Hrun;
    unfold never at 1 in Hrun.
  - rewrite app_nil_r in *. unfold CPS.should_output at 1 in Hrun.
    destruct (Nat.leb_spec min_length (length prefix)) as [_ | H]; [| lia].
    exists (CPS.emitted docs_order (db_of docs prefix) prefix cs). split; [| reflexivity].
    apply (expansion_keeps _ _ _ _ _ _ _ _ _ Hrun). simpl.
    apply in_or_app. right. now left.
  - replace (prefix ++ w :: ext) with ((prefix ++ [w]) ++ ext) in *
      by now rewrite <- app_assoc.
    destruct Hext as [Hfreq Hdb]; [discriminate |].
    pose proof (doc_support_app docs (prefix ++ [w]) ext) as Hmono.
    pose proof (db_of_app docs _ _ docs_fit Hdb) as Hdb1.
    assert (exists v, In (w, v) (CPS.occ_delivery docs (db_of docs prefix))) as [v Hv].
    { rewrite <- (next_db_db_of docs docs_fit) in Hdb1.
      destruct (CPS.next_db docs (db_of docs prefix) w) as [| q ndb] eqn:E; [congruence |].
      assert (In q (CPS.next_db docs (db_of docs prefix) w)) as Hq by (rewrite E; now left).
      apply (next_db_In docs _ w q docs_fit) in Hq as (p0 & Hp0 & Htok & Hnext & _).
      destruct (occ_delivery_delivered docs (db_of docs prefix) (by_doc_db_of docs prefix))
        as (_ & _ & Hkeys).
      assert (reads docs w p0 = true) as Hr by (apply reads_token; split; [lia | exact Htok]).
      specialize (Hkeys p0 w Hp0 Hr).
      apply in_map_iff in Hkeys as ([t v] & Ht & Hin). simpl in Ht. subst t. now exists v. }
    destruct (bucket_length docs docs_fit prefix w v Hv) as [_ Hbucket].
    assert (u32 (length v) = length v) as Hu.
    { apply u32_small.
      pose proof (doc_support_le docs (prefix ++ [w])). destruct docs_fit as [Hn _]. lia. }
    apply (Permutation_in _ (Permutation_sym (items_order_perm _))) in Hv.
    apply in_split in Hv as (l1 & l2 & Hitems). rewrite Hitems in Hrun.
    rewrite fold_left_app in Hrun. simpl in Hrun.
    destruct (expansion_Done _ _ _ _ _ _ _ _ Hrun) as [s2 Hs2]. rewrite Hs2 in Hrun.
    match type of Hs2 with
    | bind ?c _ = _ => destruct c as [s1 | |] eqn:Hs1; simpl in Hs2; try discriminate
    end.
    rewrite Hu in Hs2.
    destruct (Nat.leb_spec min_docs (length v)) as [_ | H]; [| lia].
    destruct (CPS.next_db docs (db_of docs prefix) w) as [| q ndb] eqn:E.
    { rewrite (next_db_db_of docs docs_fit) in E. congruence. }
    rewrite <- E, (next_db_db_of docs docs_fit) in Hs2.
    destruct (IH _ _ _ _ _ Hs2 Hlen) as (p & Hp & Htok).
    { intros _. split; [exact Hfreq | exact Hdb]. }
    exists p. split; [| exact Htok].
    exact (expansion_keeps _ _ _ _ _ _ _ _ _ Hrun Hp).
Qed.

End AllMode.

Lemma db_of_nonempty (docs : corpus) (pat : list token) :
  corpus_fits docs ->
  db_of docs pat <> [] <->
  exists d j,
    d < length docs /\
    matches_at (doc_at docs d) pat j = true /\
    j + length pat < length (doc_at docs d).
Proof.
  intros Hfit. unfold db_of. split.
  - intros H.
    destruct (filter (reached docs pat) (CPS.initial_db docs)) as [| p0 l] eqn:E;
      [now destruct H |].
    assert (In p0 (filter (reached docs pat) (CPS.initial_db docs))) as Hin
      by (rewrite E; now left).
    apply filter_In in Hin as [Hin Hreach].
    apply (initial_db_In docs p0 Hfit) in Hin as (Hd & _ & _).
    unfold reached in Hreach. cbv zeta in Hreach.
    apply andb_true_iff in Hreach as [Hm Hroom]. apply Nat.ltb_lt in Hroom.
    now exists (CPS.doc_id p0), (CPS.origin p0).
  - intros (d & j & Hd & Hm & Hroom) H.
    apply map_eq_nil in H.
    assert (In (CPS.mkProj d j j) (filter (reached docs pat) (CPS.initial_db docs))) as Hin.
    { apply filter_In. split.
      - apply (initial_db_In docs _ Hfit). simpl. repeat split; lia.
      - unfold reached. cbv zeta. simpl. rewrite Hm. simpl. now apply Nat.ltb_lt. }
    rewrite H in Hin. destruct Hin.
Qed.

(** X1.  What mode ALL emits.  When the stop flag stays down and the run
    completes, a pattern with at least one token is emitted exactly when
    it has at least [min_length] tokens, lies in at least [min_docs]
    documents, and has an occurrence that is followed by one more token
    of its document.  The last condition is what C2 does not have. *)
Lemma all_mode_emits
    (items_order : list (token * list nat) -> list (token * list nat))
    (docs_order : list nat -> list nat) (docs : corpus)
    (min_docs min_length fuel : nat) (st : CPS.State) (pat : list token) :
  (forall m, Permutation (items_order m) m) ->
  corpus_fits docs ->
  CPS.run items_order docs_order never docs min_docs min_length fuel CPS.MODE_ALL
  = Done st ->
  pat <> [] ->
  (exists p, In p (CPS.results st) /\ CPS.tokens p = pat) <->
  min_length <= length pat /\
  min_docs <= doc_support docs pat /\
  exists d j,
    d < length docs /\
    matches_at (doc_at docs d) pat j = true /\
    j + length pat < length (doc_at docs d).
Proof.
  intros Hperm Hfit Hrun Hne. rewrite <- (db_of_nonempty docs pat Hfit). split.
  - intros (p & Hp & <-).
    pose proof (cps_emitted_phrases items_order docs_order never docs min_docs
                  min_length fuel CPS.MODE_ALL st Hperm Hfit Hrun) as Hall.
    rewrite Forall_forall in Hall.
    destruct (Hall p Hp Hne) as (Hs & Hmin & Hlen & Hdb & _).
    split; [exact Hlen | split; [lia | exact Hdb]].
  - intros (Hlen & Hfreq & Hdb). unfold CPS.run in Hrun.
    rewrite <- (db_of_nil docs Hfit) in Hrun.
    now apply (all_mode_reaches items_order docs_order docs min_docs min_length
                 Hperm Hfit pat fuel [] _ _ st Hrun).
Qed.

Lemma all_mode_emits_witness :
  corpus_fits abc /\
  exists st,
    CPS.run insertion_order insertion_order never abc 1 2 10 CPS.MODE_ALL = Done st /\
    ((exists p, In p (CPS.results st) /\ CPS.tokens p = [0; 1]) <->
     2 <= length [0; 1] /\
     1 <= doc_support abc [0; 1] /\
     exists d j,
       d < length abc /\
       matches_at (doc_at abc d) [0; 1] j = true /\
       j + length [0; 1] < length (doc_at abc d)).
Proof.
  split; [exact abc_fits |].
  eexists. split; [vm_compute; reflexivity |].
  apply (all_mode_emits insertion_order insertion_order abc 1 2 10 _ [0; 1]
           insertion_order_perm abc_fits); [vm_compute; reflexivity | discriminate].
Defined.

(** ** The PrefixSpan engine on documents that end with a phrase *)

(** C1 at a failing input.  On the three documents [the quick brown fox],
    [see the quick brown fox run], [the quick brown fox jumps], with
    [min_docs = 3] and [ngrams = 3], [CorpusMiner::mine] finds
    [the quick brown fox] with support 3 and hands it over with the ids of
    two documents only: the first document, which the phrase ends, was
    counted in the support and then left out of the projected database
    from which the occurrences are collected. *)
Theorem cps_support_exceeds_emitted_documents :
  let fox := CPS.mkPhrase [0; 1; 2; 3] 3 [CPS.mkOcc 1; CPS.mkOcc 2] in
  CPS.found_phrases insertion_order insertion_order never fox_miner 3 3 10
  = Done [fox; CPS.mkPhrase [1; 2; 3] 3 [CPS.mkOcc 1; CPS.mkOcc 2]] /\
  doc_support (docs fox_miner) (CPS.tokens fox) = 3 /\
  CPS.support fox = 3 /\
  length (unique_docs (map CPS.occ_doc_id (CPS.occs fox))) = 2.
Proof.
  cbv zeta. split; [vm_compute; reflexivity |].
  repeat split; vm_compute; reflexivity.
Qed.

(** C2 at two failing inputs, in mode ALL.  With five documents [a b], one
    document [a c], [min_docs = 5] and [L = 2], the pattern [a b] lies in
    five documents and nothing is emitted.  On the single document
    [a b c a b c a b c], with [min_docs = 1] and [L = 2], the eighteen
    emitted patterns all have at most eight tokens: the document itself,
    and the patterns of seven and eight tokens that end it, lie in one
    document and are not emitted. *)
Theorem cps_all_misses_patterns_at_document_end :
  (2 <= length [0; 1] /\
   5 <= doc_support boundary_docs [0; 1] /\
   exists st,
     CPS.run insertion_order insertion_order never boundary_docs 5 2 10 CPS.MODE_ALL
     = Done st /\
     CPS.results st = []) /\
  (exists st,
     CPS.run insertion_order insertion_order never abc 1 2 10 CPS.MODE_ALL = Done st /\
     length (CPS.results st) = 18 /\
     forallb (fun p => length (CPS.tokens p) <=? 8) (CPS.results st) = true /\
     forallb (fun pat => (1 <=? doc_support abc pat)
                         && negb (existsb (fun p => tokens_eqb (CPS.tokens p) pat)
                                    (CPS.results st)))
       [[0; 1; 2; 0; 1; 2; 0; 1; 2]; [1; 2; 0; 1; 2; 0; 1; 2]; [2; 0; 1; 2; 0; 1; 2]]
     = true).
Proof.
  split.
  - split; [simpl; lia | split; [vm_compute; lia |]].
    eexists. split; vm_compute; reflexivity.
  - eexists. split; [vm_compute; reflexivity |].
    repeat split; vm_compute; reflexivity.
Qed.

(** ** The PrefixSpan engine on the empty prefix *)

(** C6 at a failing input.  On one document holding the single word [a],
    with [min_docs = 2] and [ngrams = 0], [CorpusMiner::mine] emits the
    empty prefix with support 1: the support of the first call is the
    number of non-empty documents and is not compared with [min_docs]. *)
Theorem cps_empty_prefix_below_min_docs :
  CPS.found_phrases insertion_order insertion_order never one_word_miner 2 0 10
  = Done [CPS.mkPhrase [] 1 [CPS.mkOcc 0]] /\
  (Z.of_nat (CPS.support (CPS.mkPhrase [] 1 [CPS.mkOcc 0])) < 2)%Z.
Proof.
  split; [vm_compute; reflexivity | simpl; lia].
Qed.

(** C8 at a failing input, the same as for C6.  In mode CLOSED the empty
    prefix is emitted with support 1 although its extension by [a] lies
    in one document too: an extension counts against the prefix only once
    it has reached [min_docs]. *)
Theorem cps_closed_empty_prefix_has_equal_extension :
  let root := CPS.mkPhrase [] 1 [CPS.mkOcc 0] in
  CPS.run insertion_order insertion_order never (docs one_word_miner) 2 0 10
    CPS.MODE_CLOSED = Done (CPS.mkState [root] 1) /\
  doc_support (docs one_word_miner) (CPS.tokens root ++ [0]) = CPS.support root.
Proof.
  cbv zeta. split; vm_compute; reflexivity.
Qed.

(** ** Runs of the whole program *)

(** C4 fails as stated, for both engines.  Greedy engine: on a directory
    with the files [a.txt] (the word [a]) and [b.txt] (the word [b]), with
    [min_docs = 1], [ngrams = 1] and every file kept, the run in which the
    shuffle leaves [a.txt] first and the run in which it leaves [b.txt]
    first write different files: each writes first the row of the word of
    its first file.  PrefixSpan engine: on the three files of
    [three_entries], with the same parameters, the two runs write the rows
    of [x] and [z], which have the same [freq] and [length], in opposite
    orders. *)
Lemma two_shuffles_two_outputs :
  (exists out1 out2,
     GME.main insertion_order insertion_order insertion_order never
       insertion_order keep_all two_files 1 1 10 = Done out1 /\
     GME.main insertion_order insertion_order insertion_order never
       (@rev GME.DirEntry) keep_all two_files 1 1 10 = Done out2 /\
     out1 <> out2) /\
  (exists out1 out2,
     CPS.main insertion_order insertion_order insertion_order never "*.txt" tokenize
       no_words insertion_order keep_all three_entries 1 1 10 = Done (Some out1) /\
     CPS.main insertion_order insertion_order insertion_order never "*.txt" tokenize
       no_words (@rev CPS.DirEntry) keep_all three_entries 1 1 10 = Done (Some out2) /\
     out1 <> out2).
Proof.
  split.
  - eexists. eexists. split; [vm_compute; reflexivity |].
    split; [vm_compute; reflexivity |].
    vm_compute. intros H. discriminate H.
  - eexists. eexists. split; [vm_compute; reflexivity |].
    split; [vm_compute; reflexivity |].
    vm_compute. intros H. discriminate H.
Qed.

(** ** The tokenizer *)

Lemma string_app_nil_r (s : string) : (s ++ EmptyString)%string = s.
Proof. induction s as [| c s IH]; simpl; [reflexivity | now rewrite IH]. Qed.

Lemma string_app_assoc (a b c : string) : ((a ++ b) ++ c)%string = (a ++ (b ++ c))%string.
Proof. induction a as [| x a IH]; simpl; [reflexivity | now rewrite IH]. Qed.

Lemma all_chars_app (f : ascii -> bool) (a b : string) :
  all_chars f (a ++ b) = all_chars f a && all_chars f b.
Proof.
  induction a as [| c a IH]; simpl; [reflexivity |].
  now rewrite IH, andb_assoc.
Qed.

Lemma isalnum_tolower (c : ascii) : isalnum c = true -> is_word_char (tolower c) = true.
Proof.
  destruct c as [[] [] [] [] [] [] [] []]; vm_compute; congruence.
Qed.

Lemma tolower_word_char (c : ascii) : is_word_char c = true -> tolower c = c.
Proof.
  destruct c as [[] [] [] [] [] [] [] []]; vm_compute; congruence.
Qed.

Lemma word_char_isalnum (c : ascii) : is_word_char c = true -> isalnum c = true.
Proof.
  destruct c as [[] [] [] [] [] [] [] []]; vm_compute; congruence.
Qed.

Lemma isalnum_tolower_eq (c : ascii) : isalnum (tolower c) = isalnum c.
Proof.
  destruct c as [[] [] [] [] [] [] [] []]; vm_compute; congruence.
Qed.

Lemma tolower_idem (c : ascii) : tolower (tolower c) = tolower c.
Proof.
  destruct c as [[] [] [] [] [] [] [] []]; vm_compute; congruence.
Qed.

Lemma tokenize_from_tokens (text current : string) (tokens : list string) :
  tokenize_from text current tokens = tokens ++ tokenize_from text current [].
Proof.
  revert current tokens. induction text as [| c rest IH]; intros current tokens; simpl.
  - destruct current; [now rewrite app_nil_r | reflexivity].
  - destruct (isalnum c); [apply IH |].
    destruct current as [| x cur]; [apply IH |].
    rewrite (IH EmptyString (tokens ++ _)), (IH EmptyString [_]).
    now rewrite <- app_assoc.
Qed.

Lemma tokenize_from_words (text current : string) :
  all_chars is_word_char current = true ->
  Forall (fun w => is_word w = true) (tokenize_from text current []).
Proof.
  revert current. induction text as [| c rest IH]; intros current Hcur; simpl.
  - destruct current as [| x cur]; [constructor |].
    constructor; [exact Hcur | constructor].
  - destruct (isalnum c) eqn:Hc.
    + apply IH. rewrite all_chars_app, Hcur. simpl.
      now rewrite (isalnum_tolower c Hc).
    + destruct current as [| x cur]; [now apply IH |].
      rewrite tokenize_from_tokens. apply Forall_app. split.
      * constructor; [exact Hcur | constructor].
      * now apply IH.
Qed.

Lemma tokenize_from_separator (a b current : string) (c : ascii) :
  isalnum c = false ->
  tokenize_from (a ++ String c b) current []
  = tokenize_from a current [] ++ tokenize b.
Proof.
  intros Hc. revert current. induction a as [| x a IH]; intros current; simpl.
  - rewrite Hc. destruct current as [| y cur]; [reflexivity |].
    now rewrite tokenize_from_tokens.
  - destruct (isalnum x); [apply IH |].
    destruct current as [| y cur]; [apply IH |].
    rewrite tokenize_from_tokens, (tokenize_from_tokens a EmptyString [_]).
    rewrite IH. now rewrite <- app_assoc.
Qed.

Lemma tokenize_from_word (w current : string) :
  all_chars is_word_char w = true ->
  tokenize_from w current []
  = match (current ++ w)%string with
    | EmptyString => []
    | String _ _ => [(current ++ w)%string]
    end.
Proof.
  revert current. induction w as [| x w IH]; intros current Hw; simpl.
  - rewrite string_app_nil_r. now destruct current.
  - simpl in Hw. apply andb_true_iff in Hw as [Hx Hw].
    rewrite (word_char_isalnum x Hx), (tolower_word_char x Hx), (IH _ Hw).
    now rewrite string_app_assoc.
Qed.

Lemma tokenize_lower_from (text current : string) (tokens : list string) :
  tokenize_from (lower text) current tokens = tokenize_from text current tokens.
Proof.
  revert current tokens. induction text as [| c rest IH]; intros current tokens; simpl;
    [reflexivity |].
  rewrite isalnum_tolower_eq, tolower_idem.
  destruct (isalnum c); [apply IH |].
  destruct current; apply IH.
Qed.

(** X2.  Every word that [tokenize] returns has at least one byte and holds
    digits and lower-case letters only, whatever the text. *)
Theorem tokenize_yields_words (text : string) :
  Forall (fun w => is_word w = true) (tokenize text).
Proof.
  unfold tokenize. now apply tokenize_from_words.
Qed.

(** X3.  A byte that is neither a letter nor a digit separates words and
    nothing else: the words of [a], that byte, [b] are the words of [a]
    followed by the words of [b]. *)
Theorem tokenize_splits_at_separator (a b : string) (c : ascii) :
  isalnum c = false ->
  tokenize (a ++ String c b) = (tokenize a ++ tokenize b)%list.
Proof.
  intros Hc. unfold tokenize at 1 2. now apply tokenize_from_separator.
Qed.

Lemma tokenize_splits_at_separator_witness :
  isalnum "," = false /\
  tokenize ("Nice day" ++ String "," " isn't it?")
  = (tokenize "Nice day" ++ tokenize " isn't it?")%list.
Proof.
  split; [reflexivity |].
  apply (tokenize_splits_at_separator "Nice day" " isn't it?" ","). reflexivity.
Defined.

Lemma tokenize_join (ws : list string) :
  Forall (fun w => is_word w = true) ws ->
  tokenize (String.concat " " ws) = ws.
Proof.
  induction 1 as [| w ws Hw Hws IH]; [reflexivity |].
  assert (all_chars is_word_char w = true /\ w <> EmptyString) as [Hall Hne].
  { destruct w; [discriminate | split; [exact Hw | discriminate]]. }
  assert (tokenize w = [w]) as Hone.
  { unfold tokenize. rewrite (tokenize_from_word w EmptyString Hall). simpl.
    destruct w; [congruence | reflexivity]. }
  destruct ws as [| w' ws'].
  - exact Hone.
  - change (String.concat " " (w :: w' :: ws'))
      with (w ++ String " " (String.concat " " (w' :: ws')))%string.
    unfold tokenize at 1. rewrite tokenize_from_separator by reflexivity.
    fold (tokenize w). now rewrite Hone, IH.
Qed.

(** X4.  Words written one after the other with a blank between them are
    read back by [tokenize] as they were. *)
Theorem tokenize_joined_words (ws : list string) :
  Forall (fun w => is_word w = true) ws ->
  tokenize (String.concat " " ws) = ws.
Proof.
  intros Hws. now apply tokenize_join.
Qed.

Lemma tokenize_joined_words_witness :
  Forall (fun w => is_word w = true) three_words /\
  tokenize (String.concat " " three_words) = three_words.
Proof.
  assert (Forall (fun w => is_word w = true) three_words) as H
    by (repeat constructor).
  split; [exact H | exact (tokenize_joined_words _ H)].
Defined.

(** X5.  [tokenize] does not see the case of letters: a text and the same
    text in lower case have the same words. *)
Theorem tokenize_ignores_case (text : string) :
  tokenize (lower text) = tokenize text.
Proof.
  unfold tokenize. apply tokenize_lower_from.
Qed.

(** ** The loader: dictionary and documents *)

Lemma first_occurrences_snoc (ws : list string) (w : string) :
  first_occurrences (ws ++ [w])
  = if in_dec string_dec w ws then first_occurrences ws else first_occurrences ws ++ [w].
Proof.
  unfold first_occurrences. rewrite rev_app_distr. simpl.
  destruct (in_dec string_dec w (rev ws)) as [Hin | Hin];
    destruct (in_dec string_dec w ws) as [Hin' | Hin']; try reflexivity.
  - exfalso. apply Hin'. now apply in_rev.
  - exfalso. apply Hin. now apply in_rev in Hin'.
Qed.

Lemma first_occurrences_In (ws : list string) (w : string) :
  In w (first_occurrences ws) <-> In w ws.
Proof.
  unfold first_occurrences. rewrite <- in_rev, nodup_In. symmetry. apply in_rev.
Qed.

Lemma first_occurrences_length (ws : list string) :
  length (first_occurrences ws) <= length ws.
Proof.
  induction ws as [| w ws IH] using rev_ind; [simpl; lia |].
  rewrite first_occurrences_snoc, length_app. simpl.
  destruct (in_dec string_dec w ws); [lia | rewrite length_app; simpl; lia].
Qed.

Lemma first_occurrences_NoDup (ws : list string) : NoDup (first_occurrences ws).
Proof.
  unfold first_occurrences. apply NoDup_rev. apply NoDup_nodup.
Qed.

Lemma find_word_snoc (w w' : string) (id : nat) (m : list (string * nat)) :
  find_word w (m ++ [(w', id)])
  = match find_word w m with
    | Some i => Some i
    | None => if String.eqb w w' then Some id else None
    end.
Proof.
  induction m as [| [x i] m IH]; simpl; [reflexivity |].
  destruct (String.eqb w x); [reflexivity | exact IH].
Qed.

Lemma encode_word_ok (seen : list string)
    (st : list (string * nat) * list string * list token) (w : string) :
  encoding_ok seen st ->
  (Z.of_nat (length seen) < 2 ^ 32)%Z ->
  let '(w2i, i2w, encoded) := st in
  let '(w2i', i2w', encoded') := encode_word st w in
  encoding_ok (seen ++ [w]) (w2i', i2w', encoded') /\
  (exists ext, i2w' = i2w ++ ext) /\
  exists id, encoded' = encoded ++ [id] /\ nth_error i2w' id = Some w.
Proof.
  destruct st as [[w2i i2w] encoded]. intros [Hi2w Hbij] Hlen. simpl.
  destruct (find_word w w2i) as [id |] eqn:Hfind.
  - assert (In w seen) as Hin.
    { apply first_occurrences_In. rewrite <- Hi2w.
      apply (nth_error_In _ id). now apply Hbij. }
    split; [split |].
    + rewrite first_occurrences_snoc.
      destruct (in_dec string_dec w seen); [exact Hi2w | contradiction].
    + exact Hbij.
    + split; [exists []; now rewrite app_nil_r |].
      exists id. split; [reflexivity | now apply Hbij].
  - assert (~ In w seen) as Hin.
    { intros Hin. apply first_occurrences_In in Hin. rewrite <- Hi2w in Hin.
      apply In_nth_error in Hin as [id Hid]. apply Hbij in Hid. congruence. }
    assert (u32 (length i2w) = length i2w) as Hu.
    { apply u32_small. pose proof (first_occurrences_length seen). subst i2w. lia. }
    rewrite Hu. split; [split |].
    + rewrite first_occurrences_snoc.
      destruct (in_dec string_dec w seen); [contradiction | now rewrite Hi2w].
    + intros w' id. rewrite find_word_snoc.
      destruct (find_word w' w2i) as [i |] eqn:Hf'.
      * apply Hbij in Hf'.
        assert (i < length i2w) as Hlt by (apply nth_error_Some; congruence).
        split.
        -- intros H. injection H as <-. now rewrite nth_error_app1.
        -- intros H. f_equal.
           destruct (Nat.lt_ge_cases id (length i2w)) as [Hid | Hid].
           ++ rewrite nth_error_app1 in H by exact Hid.
              apply Hbij in H. apply Hbij in Hf'. congruence.
           ++ rewrite nth_error_app2 in H by exact Hid.
              destruct (id - length i2w) as [| k] eqn:Ek; simpl in H;
                [| destruct k; discriminate].
              injection H as ->. apply Hbij in Hf'. congruence.
      * destruct (String.eqb_spec w' w) as [-> | Hne].
        -- split.
           ++ intros H. injection H as <-.
              now rewrite nth_error_app2, Nat.sub_diag by lia.
           ++ intros H. f_equal.
              destruct (Nat.lt_ge_cases id (length i2w)) as [Hid | Hid].
              ** rewrite nth_error_app1 in H by exact Hid. apply Hbij in H. congruence.
              ** rewrite nth_error_app2 in H by exact Hid.
                 destruct (id - length i2w) as [| k] eqn:Ek; simpl in H;
                   [lia | destruct k; discriminate].
        -- split; [discriminate |]. intros H.
           destruct (Nat.lt_ge_cases id (length i2w)) as [Hid | Hid].
           ++ rewrite nth_error_app1 in H by exact Hid. apply Hbij in H. congruence.
           ++ rewrite nth_error_app2 in H by exact Hid.
              destruct (id - length i2w) as [| k] eqn:Ek; simpl in H;
                [congruence | destruct k; discriminate].
    + split; [now exists [w] |].
      exists (length i2w). split; [reflexivity |].
      now rewrite nth_error_app2, Nat.sub_diag by lia.
Qed.

Lemma encodes_app (i2w ext : list string) (doc : list token) (ws : list string) :
  encodes i2w doc ws -> encodes (i2w ++ ext) doc ws.
Proof.
  unfold encodes. revert ws. induction doc as [| t doc IH]; intros [| w ws] H;
    simpl in *; try discriminate; [reflexivity |].
  injection H as Ht H. rewrite (IH ws H). f_equal.
  rewrite nth_error_app1; [exact Ht |]. apply nth_error_Some. congruence.
Qed.

Lemma encodes_decode (i2w : list string) (doc : list token) (ws : list string) :
  encodes i2w doc ws -> decode i2w doc = ws.
Proof.
  unfold encodes, decode. revert ws. induction doc as [| t doc IH]; intros [| w ws] H;
    simpl in *; try discriminate; [reflexivity |].
  injection H as Ht H. rewrite (IH ws H). f_equal. now apply nth_error_nth.
Qed.

Lemma encodes_bound (i2w : list string) (doc : list token) (ws : list string) :
  encodes i2w doc ws -> Forall (fun t => t < length i2w) doc.
Proof.
  unfold encodes. revert ws. induction doc as [| t doc IH]; intros [| w ws] H;
    simpl in *; try discriminate; constructor.
  - injection H as Ht _. apply nth_error_Some. congruence.
  - injection H as _ H. now apply (IH ws).
Qed.

Lemma encode_words_ok (ws : list string) :
  forall seen w2i i2w encoded,
    encoding_ok seen (w2i, i2w, encoded) ->
    (Z.of_nat (length seen + length ws) < 2 ^ 32)%Z ->
    exists w2i' ext ids,
      fold_left encode_word ws (w2i, i2w, encoded) = (w2i', i2w ++ ext, encoded ++ ids) /\
      encoding_ok (seen ++ ws) (w2i', i2w ++ ext, encoded ++ ids) /\
      encodes (i2w ++ ext) ids ws.
Proof.
  induction ws as [| w ws IH]; intros seen w2i i2w encoded Hok Hlen.
  - exists w2i, [], []. rewrite !app_nil_r. repeat split; try apply Hok.
  - pose proof (encode_word_ok seen (w2i, i2w, encoded) w Hok) as Hstep.
    change (length (w :: ws)) with (S (length ws)) in Hlen.
    specialize (Hstep ltac:(lia)). cbv beta iota in Hstep.
    change (fold_left encode_word (w :: ws) (w2i, i2w, encoded))
      with (fold_left encode_word ws (encode_word (w2i, i2w, encoded) w)).
    destruct (encode_word (w2i, i2w, encoded) w) as [[w2i1 i2w1] encoded1].
    destruct Hstep as (Hok1 & [ext1 ->] & id & -> & Hid).
    destruct (IH (seen ++ [w]) w2i1 (i2w ++ ext1) (encoded ++ [id]) Hok1)
      as (w2i' & ext & ids & Hfold & Hok' & Henc).
    { rewrite length_app. change (length [w]) with 1. lia. }
    exists w2i', (ext1 ++ ext), (id :: ids).
    rewrite <- !app_assoc in *. cbn [app] in *.
    split; [exact Hfold | split; [exact Hok' |]].
    unfold encodes in *. simpl. rewrite Henc. f_equal.
    rewrite app_assoc. rewrite nth_error_app1; [exact Hid |].
    apply nth_error_Some. congruence.
Qed.

(** Phase II over the files [files], from a miner whose dictionary holds
    the words [seen] in the order of their first occurrence. *)
Lemma encode_docs_ok (files : list (string * list string)) :
  forall seen m,
    encoding_ok seen (word_to_id m, id_to_word m, []) ->
    (Z.of_nat (length seen + length (concat (map snd files))) < 2 ^ 32)%Z ->
    let m' := fold_left encode_doc files m in
    encoding_ok (seen ++ concat (map snd files)) (word_to_id m', id_to_word m', []) /\
    file_paths m' = file_paths m ++ map fst files /\
    exists ext new_docs,
      id_to_word m' = id_to_word m ++ ext /\
      docs m' = docs m ++ new_docs /\
      Forall2 (encodes (id_to_word m')) new_docs (map snd files).
Proof.
  induction files as [| [p ws] files IH]; intros seen m Hok Hlen; cbv zeta.
  - simpl. rewrite !app_nil_r. split; [exact Hok | split; [reflexivity |]].
    exists [], []. rewrite !app_nil_r. repeat split. constructor.
  - simpl in Hlen. rewrite length_app in Hlen.
    destruct (encode_words_ok ws seen (word_to_id m) (id_to_word m) [] Hok)
      as (w2i' & ext & ids & Hfold & Hok' & Henc); [lia |].
    simpl in Hok', Henc.
    set (m1 := mkMiner w2i' (id_to_word m ++ ext) (docs m ++ [ids]) (file_paths m ++ [p])).
    assert (encode_doc m (p, ws) = m1) as Hm1
      by (unfold encode_doc; simpl; now rewrite Hfold).
    change (fold_left encode_doc ((p, ws) :: files) m)
      with (fold_left encode_doc files (encode_doc m (p, ws))).
    rewrite Hm1. clear Hm1 Hfold.
    destruct (IH (seen ++ ws) m1) as (Hok2 & Hpaths & ext2 & nd & Hi2w & Hdocs & Hall).
    { exact Hok'. }
    { rewrite length_app. lia. }
    cbv zeta in *. simpl in Hi2w, Hdocs, Hpaths.
    split; [| split].
    + simpl. rewrite app_assoc. exact Hok2.
    + rewrite Hpaths. simpl. now rewrite <- app_assoc.
    + exists (ext ++ ext2), (ids :: nd). rewrite Hi2w, Hdocs, <- !app_assoc.
      repeat split. simpl. constructor.
      * rewrite app_assoc. now apply encodes_app.
      * rewrite app_assoc. rewrite <- Hi2w. exact Hall.
Qed.

Lemma empty_encoding_ok : encoding_ok [] ([], [], []).
Proof.
  split; [reflexivity |]. intros w id. simpl. split; [discriminate |].
  now destruct id.
Qed.

Lemma gme_load_directory_eq shuffled sample_size entries m :
  GME.load_directory shuffled sample_size entries m
  = fold_left encode_doc
      (combine (map GME.path (gme_sample shuffled sample_size entries))
         (map gme_words (gme_sample shuffled sample_size entries))) m.
Proof.
  unfold GME.load_directory, gme_sample. cbv zeta.
  set (paths := shuffled (filter GME.is_txt entries)).
  assert ((if length paths <? sample_size (length paths)
           then length paths else sample_size (length paths))
          = Nat.min (length paths) (sample_size (length paths))) as ->.
  { destruct (Nat.ltb_spec (length paths) (sample_size (length paths))); lia. }
  reflexivity.
Qed.

Lemma combine_map_fst {A B : Type} (l : list A) (l' : list B) :
  length l = length l' -> map fst (combine l l') = l.
Proof.
  revert l'. induction l as [| a l IH]; intros [| b l'] H; simpl in *;
    try discriminate; [reflexivity |].
  f_equal. apply IH. lia.
Qed.

Lemma combine_map_snd {A B : Type} (l : list A) (l' : list B) :
  length l = length l' -> map snd (combine l l') = l'.
Proof.
  revert l'. induction l as [| a l IH]; intros [| b l'] H; simpl in *;
    try discriminate; [reflexivity |].
  f_equal. apply IH. lia.
Qed.

Lemma Forall2_decode (i2w : list string) (ds : corpus) (raw : list (list string)) :
  Forall2 (encodes i2w) ds raw -> map (decode i2w) ds = raw.
Proof.
  induction 1 as [| d ws ds raw H _ IH]; simpl; [reflexivity |].
  now rewrite IH, (encodes_decode i2w d ws H).
Qed.

Lemma Forall2_bound (i2w : list string) (ds : corpus) (raw : list (list string)) :
  Forall2 (encodes i2w) ds raw -> Forall (Forall (fun t => t < length i2w)) ds.
Proof.
  induction 1 as [| d ws ds raw H _ IH]; constructor; [| exact IH].
  now apply (encodes_bound _ d ws).
Qed.

(** X6.  [load_directory], from an empty miner, on files that hold fewer
    than 2^32 words in all: the paths are those of the sampled files in the
    order in which they were read; every document, decoded with
    [id_to_word], is the sequence of words of its file; every token id lies
    inside [id_to_word]; [word_to_id] maps a word to an id exactly when
    [id_to_word] holds the word at that id; and every word of the
    dictionary is a word as [tokenize] produces them. *)
Theorem gme_load_directory_round_trip
    (shuffled : list GME.DirEntry -> list GME.DirEntry) (sample_size : nat -> nat)
    (entries : list GME.DirEntry) :
  let files := gme_sample shuffled sample_size entries in
  let m := GME.load_directory shuffled sample_size entries empty_miner in
  (Z.of_nat (length (concat (map gme_words files))) < 2 ^ 32)%Z ->
  file_paths m = map GME.path files /\
  map (decode (id_to_word m)) (docs m) = map gme_words files /\
  Forall (Forall (fun t => t < length (id_to_word m))) (docs m) /\
  dictionary_agrees m /\
  Forall (fun w => is_word w = true) (id_to_word m).
Proof.
  intros files m Hlen. subst m. rewrite gme_load_directory_eq. fold files.
  set (fs := combine (map GME.path files) (map gme_words files)).
  assert (map fst fs = map GME.path files) as Hfst
    by (apply combine_map_fst; now rewrite !length_map).
  assert (map snd fs = map gme_words files) as Hsnd
    by (apply combine_map_snd; now rewrite !length_map).
  destruct (encode_docs_ok fs [] empty_miner empty_encoding_ok)
    as (Hok & Hpaths & ext & nd & _ & Hdocs & Hall).
  { rewrite Hsnd. simpl. exact Hlen. }
  cbv zeta in *. simpl in Hpaths, Hdocs. rewrite Hsnd in Hall. subst nd.
  split; [now rewrite Hpaths, Hfst | split; [now apply Forall2_decode | split]].
  - now apply (Forall2_bound _ _ (map gme_words files)).
  - split; [destruct Hok as [_ Hbij]; exact Hbij |].
    destruct Hok as [Hi2w _]. simpl in Hi2w. rewrite Hsnd in Hi2w.
    apply Forall_forall. intros w Hw. rewrite Hi2w in Hw. clear Hi2w.
    apply (proj1 (first_occurrences_In _ _)) in Hw.
    apply in_concat in Hw as (ws & Hws & Hw).
    apply in_map_iff in Hws as (e & <- & _).
    unfold gme_words in Hw. destruct (GME.content e) as [text |]; [| destruct Hw].
    pose proof (tokenize_from_words text EmptyString eq_refl) as Hshape.
    rewrite Forall_forall in Hshape. now apply Hshape.
Qed.

Lemma gme_load_directory_round_trip_witness :
  let files := gme_sample insertion_order keep_all five_files in
  let m := GME.load_directory insertion_order keep_all five_files empty_miner in
  (Z.of_nat (length (concat (map gme_words files))) < 2 ^ 32)%Z /\
  file_paths m = map GME.path files /\
  map (decode (id_to_word m)) (docs m) = map gme_words files.
Proof.
  cbv zeta.
  assert (Z.of_nat (length (concat (map gme_words
                                      (gme_sample insertion_order keep_all five_files))))
          < 2 ^ 32)%Z as Hlen by (vm_compute; reflexivity).
  split; [exact Hlen |].
  destruct (gme_load_directory_round_trip insertion_order keep_all five_files Hlen)
    as (Hpaths & Hdocs & _).
  split; [exact Hpaths | exact Hdocs].
Defined.

(** X7.  [load_directory] numbers the words in the order in which it meets
    them: [id_to_word] is the list of the distinct words of the sampled
    files, each at the place of its first occurrence. *)
Theorem gme_dictionary_first_occurrences
    (shuffled : list GME.DirEntry -> list GME.DirEntry) (sample_size : nat -> nat)
    (entries : list GME.DirEntry) :
  let files := gme_sample shuffled sample_size entries in
  let m := GME.load_directory shuffled sample_size entries empty_miner in
  (Z.of_nat (length (concat (map gme_words files))) < 2 ^ 32)%Z ->
  id_to_word m = first_occurrences (concat (map gme_words files)).
Proof.
  intros files m Hlen. subst m. rewrite gme_load_directory_eq. fold files.
  set (fs := combine (map GME.path files) (map gme_words files)).
  assert (map snd fs = map gme_words files) as Hsnd
    by (apply combine_map_snd; now rewrite !length_map).
  destruct (encode_docs_ok fs [] empty_miner empty_encoding_ok) as ([Hok _] & _).
  { rewrite Hsnd. simpl. exact Hlen. }
  simpl in Hok. now rewrite Hsnd in Hok.
Qed.

Lemma gme_dictionary_first_occurrences_witness :
  (Z.of_nat (length (concat (map gme_words
                               (gme_sample insertion_order keep_all five_files))))
   < 2 ^ 32)%Z /\
  id_to_word (GME.load_directory insertion_order keep_all five_files empty_miner)
  = first_occurrences
      (concat (map gme_words (gme_sample insertion_order keep_all five_files))).
Proof.
  assert (Z.of_nat (length (concat (map gme_words
                                      (gme_sample insertion_order keep_all five_files))))
          < 2 ^ 32)%Z as Hlen by (vm_compute; reflexivity).
  split; [exact Hlen |].
  exact (gme_dictionary_first_occurrences insertion_order keep_all five_files Hlen).
Defined.

(** ** The writer: phrase cells *)

Lemma gme_write_tokens_join (i2w : list string) (toks : list token) :
  GME.write_tokens i2w toks = String.concat " " (decode i2w toks).
Proof.
  induction toks as [| t toks IH]; [reflexivity |].
  destruct toks as [| t' toks]; [reflexivity |].
  change (GME.write_tokens i2w (t :: t' :: toks))
    with (nth t i2w EmptyString ++ " " ++ GME.write_tokens i2w (t' :: toks))%string.
  now rewrite IH.
Qed.

Lemma cps_write_tokens_join (i2w : list string) (toks : list token) :
  Forall (fun t => t < length i2w) toks ->
  CPS.write_tokens i2w toks = String.concat " " (decode i2w toks).
Proof.
  induction 1 as [| t toks Ht Htoks IH]; [reflexivity |].
  cbn [CPS.write_tokens]. apply Nat.ltb_lt in Ht. rewrite Ht, IH.
  destruct toks as [| t' toks]; simpl.
  - now rewrite !string_app_nil_r.
  - now rewrite string_app_assoc.
Qed.

Lemma decode_words (i2w : list string) (toks : list token) :
  Forall (fun w => is_word w = true) i2w ->
  Forall (fun t => t < length i2w) toks ->
  Forall (fun w => is_word w = true) (decode i2w toks).
Proof.
  intros Hwords Htoks. unfold decode. apply Forall_map.
  eapply Forall_impl; [| exact Htoks]. intros t Ht.
  rewrite Forall_forall in Hwords. apply Hwords. now apply nth_In.
Qed.

(** X8.  The phrase cell that either [save_to_csv] writes for tokens of the
    dictionary is the words of the phrase with one blank between them, and
    [tokenize] reads it back as these words, when the dictionary holds
    words as [tokenize] produces them. *)
Theorem phrase_cell_is_the_joined_words (i2w : list string) (toks : list token) :
  Forall (fun w => is_word w = true) i2w ->
  Forall (fun t => t < length i2w) toks ->
  GME.write_tokens i2w toks = String.concat " " (decode i2w toks) /\
  CPS.write_tokens i2w toks = String.concat " " (decode i2w toks) /\
  tokenize (String.concat " " (decode i2w toks)) = decode i2w toks.
Proof.
  intros Hwords Htoks.
  split; [apply gme_write_tokens_join |].
  split; [now apply cps_write_tokens_join |].
  apply tokenize_join. now apply decode_words.
Qed.

Lemma phrase_cell_is_the_joined_words_witness :
  Forall (fun w => is_word w = true) the_fox /\
  Forall (fun t => t < length the_fox) [1; 0; 1] /\
  GME.write_tokens the_fox [1; 0; 1] = String.concat " " (decode the_fox [1; 0; 1]) /\
  CPS.write_tokens the_fox [1; 0; 1] = String.concat " " (decode the_fox [1; 0; 1]) /\
  tokenize (String.concat " " (decode the_fox [1; 0; 1])) = decode the_fox [1; 0; 1].
Proof.
  assert (Forall (fun w => is_word w = true) the_fox) as Hwords
    by (repeat constructor).
  assert (Forall (fun t => t < length the_fox) [1; 0; 1]) as Htoks
    by (repeat constructor).
  split; [exact Hwords | split; [exact Htoks |]].
  exact (phrase_cell_is_the_joined_words the_fox [1; 0; 1] Hwords Htoks).
Defined.

(** ** The PrefixSpan loader: tables and document frequencies *)

Lemma nth_error_set_nth_eq {A : Type} (i : nat) (x : A) (v : list A) :
  i < length v -> nth_error (set_nth i x v) i = Some x.
Proof.
  revert i. induction v as [| y v IH]; intros [| i] H; simpl in *; try lia;
    [reflexivity |].
  apply IH. lia.
Qed.

Lemma nth_error_set_nth_neq {A : Type} (i j : nat) (x : A) (v : list A) :
  j <> i -> nth_error (set_nth i x v) j = nth_error v j.
Proof.
  revert i j. induction v as [| y v IH]; intros [| i] [| j] H; simpl; try reflexivity;
    try lia.
  apply IH. lia.
Qed.

Lemma existsb_eqb_In (w : string) (ws : list string) :
  existsb (String.eqb w) ws = true <-> In w ws.
Proof.
  rewrite existsb_exists. split.
  - intros (x & Hx & E). apply String.eqb_eq in E. now subst.
  - intros H. exists w. split; [exact H | apply String.eqb_refl].
Qed.

Lemma doc_frequency_absent (w : string) (raw_docs : list (list string)) :
  ~ In w (concat raw_docs) -> doc_frequency w raw_docs = 0.
Proof.
  intros H. unfold doc_frequency. rewrite filter_none; [reflexivity |].
  intros ws Hws. destruct (existsb (String.eqb w) ws) eqn:E; [| reflexivity].
  exfalso. apply H. apply in_concat. exists ws. split; [exact Hws |].
  now apply existsb_eqb_In.
Qed.

Lemma doc_frequency_snoc (w : string) (raw_docs : list (list string)) (ws : list string) :
  doc_frequency w (raw_docs ++ [ws])
  = doc_frequency w raw_docs + (if existsb (String.eqb w) ws then 1 else 0).
Proof.
  unfold doc_frequency. rewrite filter_app, length_app. simpl.
  now destruct (existsb (String.eqb w) ws).
Qed.

Lemma doc_frequency_le (w : string) (raw_docs : list (list string)) :
  doc_frequency w raw_docs <= length raw_docs.
Proof. apply filter_length_le. Qed.

Lemma count_word_counting (i : nat) (done : list (list string)) (pre : list string)
    (t : Loader.Tables) (last : list nat) (encoded : list token) (w : string) :
  counting i done pre t last ->
  i = length done ->
  (Z.of_nat (length done) + 1 < 2 ^ 32)%Z ->
  (Z.of_nat (length (concat done ++ pre)) < 2 ^ 32)%Z ->
  exists t' last' id,
    Loader.count_word i (t, last, encoded) w = Done (t', last', encoded ++ [id]) /\
    encode_word (word_to_id (Loader.miner t), id_to_word (Loader.miner t), encoded) w
    = (word_to_id (Loader.miner t'), id_to_word (Loader.miner t'), encoded ++ [id]) /\
    docs (Loader.miner t') = docs (Loader.miner t) /\
    file_paths (Loader.miner t') = file_paths (Loader.miner t) /\
    Loader.doc_lengths t' = Loader.doc_lengths t /\
    counting i done (pre ++ [w]) t' last'.
Proof.
  intros (Hok & Hdf & Hlast & Hcount) Hi Hdocs Hwords.
  pose proof (encode_word_ok (concat done ++ pre)
                (word_to_id (Loader.miner t), id_to_word (Loader.miner t), []) w
                Hok Hwords) as Hstep.
  cbv beta iota in Hstep.
  assert (u32 (u32 i + 1) = i + 1) as Hmark.
  { rewrite (u32_small i) by lia. apply u32_small. lia. }
  unfold Loader.count_word. rewrite Hmark.
  unfold encode_word in *.
  destruct t as [[w2i i2w ds fps] df dl].
  cbn [Loader.miner Loader.word_df Loader.doc_lengths word_to_id id_to_word docs
       file_paths] in *.
  (* the dictionary step *)
  assert (exists w2i1 i2w1 df1 last1 id,
            match find_word w w2i with
            | Some id => (id, mkMiner w2i i2w ds fps, df, last)
            | None =>
                (u32 (length i2w),
                 mkMiner (w2i ++ [(w, u32 (length i2w))]) (i2w ++ [w]) ds fps,
                 df ++ [0], last ++ [0])
            end = (id, mkMiner w2i1 i2w1 ds fps, df1, last1) /\
            match find_word w w2i with
            | Some id => (w2i, i2w, encoded ++ [id])
            | None => (w2i ++ [(w, u32 (length i2w))], i2w ++ [w],
                       encoded ++ [u32 (length i2w)])
            end = (w2i1, i2w1, encoded ++ [id]) /\
            encoding_ok ((concat done ++ pre) ++ [w]) (w2i1, i2w1, []) /\
            nth_error i2w1 id = Some w /\
            length df1 = length i2w1 /\ length last1 = length i2w1 /\
            forall id' w',
              nth_error i2w1 id' = Some w' ->
              nth_error df1 id'
              = Some (doc_frequency w' done + (if existsb (String.eqb w') pre then 1 else 0)) /\
              exists l,
                nth_error last1 id' = Some l /\
                if existsb (String.eqb w') pre then l = i + 1 else l <= i)
    as (w2i1 & i2w1 & df1 & last1 & id & -> & -> & Hok1 & Hid & Hdf1 & Hlast1 & Hcount1).
  { destruct (find_word w w2i) as [id |] eqn:Hfind.
    - exists w2i, i2w, df, last, id.
      destruct Hstep as (Hok1 & _ & id' & Heq & Hid').
      assert (id' = id) as -> by (injection Heq as H; congruence).
      split; [reflexivity | split; [reflexivity | split; [exact Hok1 |]]].
      split; [exact Hid' | split; [exact Hdf | split; [exact Hlast | exact Hcount]]].
    - exists (w2i ++ [(w, u32 (length i2w))]), (i2w ++ [w]), (df ++ [0]), (last ++ [0]),
        (u32 (length i2w)).
      destruct Hstep as (Hok1 & _ & id' & Heq & Hid').
      assert (id' = u32 (length i2w)) as -> by (injection Heq as H; congruence).
      assert (~ In w (concat done ++ pre)) as Hnew.
      { destruct Hok as [Hi2w Hbij]. intros Hin.
        apply first_occurrences_In in Hin. rewrite <- Hi2w in Hin.
        apply In_nth_error in Hin as [k Hk]. apply Hbij in Hk. congruence. }
      split; [reflexivity | split; [reflexivity | split; [exact Hok1 |]]].
      split; [exact Hid' |].
      split; [rewrite !length_app; simpl; lia |].
      split; [rewrite !length_app; simpl; lia |].
      intros k w' H.
      destruct (Nat.lt_ge_cases k (length i2w)) as [Hlt | Hge].
      + rewrite nth_error_app1 in H by exact Hlt.
        rewrite !nth_error_app1 by lia. now apply Hcount.
      + rewrite nth_error_app2 in H by exact Hge.
        rewrite !nth_error_app2 by lia. rewrite Hdf, Hlast.
        destruct (k - length i2w) as [| k']; [| destruct k'; discriminate].
        cbn [nth_error] in *. injection H as <-.
        rewrite doc_frequency_absent
          by (intros Hin; apply Hnew; apply in_or_app; now left).
        destruct (existsb (String.eqb w) pre) eqn:E.
        * exfalso. apply Hnew. apply in_or_app. right. now apply existsb_eqb_In.
        * split; [reflexivity |]. exists 0. split; [reflexivity | lia]. }
  (* the count *)
  assert (forall id' w', nth_error i2w1 id' = Some w' -> (id' = id <-> w' = w)) as Hsame.
  { destruct Hok1 as [_ Hbij]. intros id' w' H. split.
    - intros ->. congruence.
    - intros ->. apply Hbij in H, Hid. congruence. }
  destruct (Hcount1 id w Hid) as (Hn & l & Hl & Hmarked).
  rewrite Hl.
  destruct (existsb (String.eqb w) pre) eqn:Hpre.
  - subst l. rewrite Nat.eqb_refl.
    eexists. eexists. exists id. split; [reflexivity |].
    cbn [Loader.miner Loader.word_df Loader.doc_lengths word_to_id id_to_word docs
         file_paths].
    split; [reflexivity |]. do 3 (split; [reflexivity |]).
    split; [rewrite <- app_assoc in Hok1; exact Hok1 |].
    split; [exact Hdf1 |]. split; [exact Hlast1 |].
    intros id' w' H. rewrite existsb_app. simpl.
    destruct (Hcount1 id' w' H) as (Hd & l & Hl0 & Hm).
    destruct (existsb (String.eqb w') pre) eqn:E.
    + split; [exact Hd | now exists l].
    + destruct (String.eqb_spec w' w) as [-> | _]; [congruence |].
      split; [exact Hd | now exists l].
  - destruct (Nat.eqb_spec l (i + 1)) as [-> | _]; [lia |].
    rewrite Hn.
    assert (id < length i2w1) as Hlt by (apply nth_error_Some; congruence).
    assert (u32 (doc_frequency w done + 0 + 1) = doc_frequency w done + 1) as Hu.
    { rewrite Nat.add_0_r. apply u32_small.
      pose proof (doc_frequency_le w done). lia. }
    rewrite Hu.
    eexists. eexists. exists id. split; [reflexivity |].
    cbn [Loader.miner Loader.word_df Loader.doc_lengths word_to_id id_to_word docs
         file_paths].
    split; [reflexivity |]. do 3 (split; [reflexivity |]).
    unfold counting.
    cbn [Loader.miner Loader.word_df Loader.doc_lengths word_to_id id_to_word docs
         file_paths].
    split; [rewrite <- app_assoc in Hok1; exact Hok1 |].
    split; [now rewrite set_nth_length |]. split; [now rewrite set_nth_length |].
    intros id' w' H. rewrite existsb_app. simpl.
    destruct (Hcount1 id' w' H) as (Hd & l' & Hl' & Hm).
    destruct (Nat.eq_dec id' id) as [-> | Hne].
    + assert (w' = w) as -> by congruence.
      rewrite !nth_error_set_nth_eq by lia. rewrite Hpre, String.eqb_refl. simpl.
      split; [reflexivity |]. now exists (i + 1).
    + assert (w' <> w) as Hw by (intros ->; apply Hne; now apply (Hsame id' w)).
      rewrite !nth_error_set_nth_neq by exact Hne.
      apply String.eqb_neq in Hw. rewrite Hw, orb_false_r.
      split; [exact Hd |]. now exists l'.
Qed.

Lemma count_words_counting (i : nat) (done : list (list string)) (ws : list string) :
  forall pre t last encoded,
    counting i done pre t last ->
    i = length done ->
    (Z.of_nat (length done) + 1 < 2 ^ 32)%Z ->
    (Z.of_nat (length (concat done ++ pre ++ ws)) < 2 ^ 32)%Z ->
    exists t' last' ids,
      fold_left (fun acc w => s <- acc ;; Loader.count_word i s w) ws
        (Done (t, last, encoded))
      = Done (t', last', encoded ++ ids) /\
      fold_left encode_word ws
        (word_to_id (Loader.miner t), id_to_word (Loader.miner t), encoded)
      = (word_to_id (Loader.miner t'), id_to_word (Loader.miner t'), encoded ++ ids) /\
      docs (Loader.miner t') = docs (Loader.miner t) /\
      file_paths (Loader.miner t') = file_paths (Loader.miner t) /\
      Loader.doc_lengths t' = Loader.doc_lengths t /\
      counting i done (pre ++ ws) t' last'.
Proof.
  induction ws as [| w ws IH]; intros pre t last encoded Hc Hi Hdocs Hwords.
  - exists t, last, []. rewrite !app_nil_r. simpl.
    do 5 (split; [reflexivity |]). exact Hc.
  - rewrite !length_app in Hwords. change (length (w :: ws)) with (S (length ws)) in Hwords.
    destruct (count_word_counting i done pre t last encoded w Hc Hi Hdocs)
      as (t1 & last1 & id & Hrun & Henc & Hd1 & Hp1 & Hl1 & Hc1).
    { rewrite length_app. lia. }
    destruct (IH (pre ++ [w]) t1 last1 (encoded ++ [id]) Hc1 Hi Hdocs)
      as (t' & last' & ids & Hrun' & Henc' & Hd' & Hp' & Hl' & Hc').
    { rewrite !length_app. change (length [w]) with 1. lia. }
    exists t', last', (id :: ids).
    rewrite <- !app_assoc in *. cbn [app] in *.
    change (fold_left (fun acc w0 => s <- acc ;; Loader.count_word i s w0) (w :: ws)
              (Done (t, last, encoded)))
      with (fold_left (fun acc w0 => s <- acc ;; Loader.count_word i s w0) ws
              (Loader.count_word i (t, last, encoded) w)).
    change (fold_left encode_word (w :: ws)
              (word_to_id (Loader.miner t), id_to_word (Loader.miner t), encoded))
      with (fold_left encode_word ws
              (encode_word
                 (word_to_id (Loader.miner t), id_to_word (Loader.miner t), encoded) w)).
    rewrite Hrun, Henc.
    split; [exact Hrun' | split; [exact Henc' |]].
    split; [congruence | split; [congruence | split; [congruence | exact Hc']]].
Qed.

Lemma encode_words_length (ws : list string) :
  forall a b c a' b' c',
    fold_left encode_word ws (a, b, c) = (a', b', c') ->
    length c' = length c + length ws.
Proof.
  induction ws as [| w ws IH]; intros a b c a' b' c' H; simpl in *.
  - injection H as _ _ <-. lia.
  - destruct (find_word w a); apply IH in H; rewrite length_app in H;
      simpl in H; lia.
Qed.

Lemma combine_snoc {A B : Type} (l : list A) (l' : list B) (a : A) (b : B) :
  length l = length l' ->
  combine (l ++ [a]) (l' ++ [b]) = combine l l' ++ [(a, b)].
Proof.
  revert l'. induction l as [| x l IH]; intros [| y l'] H; simpl in *; try discriminate;
    [reflexivity |].
  f_equal. apply IH. lia.
Qed.

(** Phase II from an empty miner: it reads no vector past its end, fills
    the dictionary and the documents as [encode_doc] does, and leaves in
    [word_df] the document frequency of every word. *)
Lemma encode_all_counting (files : list (string * list string)) :
  (Z.of_nat (length files) < 2 ^ 32)%Z ->
  (Z.of_nat (length (concat (map snd files))) < 2 ^ 32)%Z ->
  exists t last,
    fold_left (fun acc file => s <- acc ;; Loader.count_doc s file)
      (combine (seq 0 (length files)) files) (Done (Loader.empty_tables, []))
    = Done (t, last) /\
    Loader.miner t = fold_left encode_doc files empty_miner /\
    Loader.doc_lengths t = map (fun f => length (snd f)) files /\
    counting (length files) (map snd files) [] t last.
Proof.
  induction files as [| [p ws] files IH] using rev_ind; intros Hn Hwords.
  - exists Loader.empty_tables, []. simpl. repeat split; try reflexivity.
    + intros H. discriminate.
    + now destruct id.
    + now destruct id.
    + now destruct id.
  - rewrite length_app in Hn. change (length [(p, ws)]) with 1 in Hn.
    rewrite map_app, concat_app in Hwords. cbn [map concat snd] in Hwords.
    rewrite app_nil_r, length_app in Hwords.
    destruct IH as (t & last & Hrun & Hm & Hl & Hc); [lia | lia |].
    rewrite length_app. change (length [(p, ws)]) with 1.
    rewrite seq_app. change (seq (0 + length files) 1) with [length files].
    rewrite combine_snoc by now rewrite length_seq.
    rewrite !fold_left_app, Hrun. cbn [fold_left bind].
    unfold Loader.count_doc. cbn [fst snd].
    set (t0 := Loader.mkTables
                 (mkMiner (word_to_id (Loader.miner t)) (id_to_word (Loader.miner t))
                    (docs (Loader.miner t)) (file_paths (Loader.miner t) ++ [p]))
                 (Loader.word_df t) (Loader.doc_lengths t)).
    assert (counting (length files) (map snd files) [] t0 last) as Hc0 by exact Hc.
    destruct (count_words_counting (length files) (map snd files) ws [] t0 last [] Hc0)
      as (t' & last' & ids & Hrun' & Henc' & Hd' & Hp' & Hl' & Hc');
      [now rewrite length_map | rewrite length_map; lia
       | rewrite !length_app; simpl; lia |].
    rewrite Hrun'. cbn [bind app].
    eexists. eexists. split; [reflexivity |].
    cbn [Loader.miner Loader.doc_lengths].
    split; [| split].
    + unfold encode_doc at 1. rewrite <- Hm. cbn [fst snd].
      change (word_to_id (Loader.miner t)) with (word_to_id (Loader.miner t0)).
      change (id_to_word (Loader.miner t)) with (id_to_word (Loader.miner t0)).
      rewrite Henc'. rewrite Hd', Hp'. reflexivity.
    + rewrite Hl', map_app. cbn [map snd]. subst t0. cbn [Loader.doc_lengths].
      rewrite Hl. do 2 f_equal.
      apply encode_words_length in Henc'. rewrite length_app in Henc'. lia.
    + destruct Hc' as (Hok & Hdf & Hlast & Hcount).
      unfold counting.
      cbn [Loader.miner Loader.word_df word_to_id id_to_word].
      rewrite map_app, concat_app. cbn [map concat snd]. rewrite !app_nil_r.
      simpl in Hok. split; [exact Hok | split; [exact Hdf | split; [exact Hlast |]]].
      intros id w H. destruct (Hcount id w H) as (Hd & l & Hlst & Hm').
      rewrite doc_frequency_snoc. simpl. rewrite Nat.add_0_r. simpl in Hd.
      split; [exact Hd |]. exists l. split; [exact Hlst |].
      cbn [app] in Hm'. destruct (existsb (String.eqb w) ws); lia.
Qed.

Lemma encode_all_Done (files : list (string * list string)) :
  (Z.of_nat (length files) < 2 ^ 32)%Z ->
  (Z.of_nat (length (concat (map snd files))) < 2 ^ 32)%Z ->
  exists t,
    Loader.encode_all files Loader.empty_tables = Done t /\
    Loader.miner t = fold_left encode_doc files empty_miner /\
    Loader.doc_lengths t = map (fun f => length (snd f)) files /\
    length (Loader.word_df t) = length (id_to_word (Loader.miner t)) /\
    forall id w,
      nth_error (id_to_word (Loader.miner t)) id = Some w ->
      nth_error (Loader.word_df t) id = Some (doc_frequency w (map snd files)).
Proof.
  intros Hn Hwords.
  destruct (encode_all_counting files Hn Hwords)
    as (t & last & Hrun & Hm & Hl & _ & Hdf & _ & Hcount).
  exists t. unfold Loader.encode_all. rewrite Hrun. simpl.
  split; [reflexivity | split; [exact Hm | split; [exact Hl | split; [exact Hdf |]]]].
  intros id w H. destruct (Hcount id w H) as [Hd _]. simpl in Hd.
  now rewrite Nat.add_0_r in Hd.
Qed.

Lemma cps_load_directory_eq file_mask tokenize_bytes tokenize_utf16 shuffled
    sample_size entries :
  CPS.load_directory file_mask tokenize_bytes tokenize_utf16 shuffled sample_size
    entries empty_miner
  = fold_left encode_doc
      (combine (map CPS.path (cps_sample file_mask shuffled sample_size entries))
         (map (CPS.raw_doc tokenize_bytes tokenize_utf16)
            (cps_sample file_mask shuffled sample_size entries)))
      empty_miner.
Proof.
  unfold CPS.load_directory, cps_sample. cbv zeta.
  set (paths := shuffled (filter _ entries)).
  assert ((if length paths <? sample_size (length paths)
           then length paths else sample_size (length paths))
          = Nat.min (length paths) (sample_size (length paths))) as ->.
  { destruct (Nat.ltb_spec (length paths) (sample_size (length paths))); lia. }
  reflexivity.
Qed.

Lemma loader_load_directory_eq file_mask tokenize_bytes tokenize_utf16 shuffled
    sample_size entries :
  Loader.load_directory file_mask tokenize_bytes tokenize_utf16 shuffled sample_size
    entries Loader.empty_tables
  = Loader.encode_all
      (combine (map CPS.path (cps_sample file_mask shuffled sample_size entries))
         (map (CPS.raw_doc tokenize_bytes tokenize_utf16)
            (cps_sample file_mask shuffled sample_size entries)))
      Loader.empty_tables.
Proof.
  unfold Loader.load_directory, cps_sample. cbv zeta.
  set (paths := shuffled (filter _ entries)).
  assert ((if length paths <? sample_size (length paths)
           then length paths else sample_size (length paths))
          = Nat.min (length paths) (sample_size (length paths))) as ->.
  { destruct (Nat.ltb_spec (length paths) (sample_size (length paths))); lia. }
  reflexivity.
Qed.

(** X9.  [load_directory] of the PrefixSpan miner, with its tables, from an
    empty miner, on fewer than 2^32 files in which the first phase reads
    fewer than 2^32 words: it reads no vector past its end; the
    dictionary, the documents and the paths are those of
    [CPS.load_directory]; the paths are those of the sampled files; the
    documents decode to the words that the first phase reads in the files
    ([CPS.raw_doc]); and [doc_lengths] holds the length of every document. *)
Theorem load_directory_fills_tables
    (file_mask : string) (tokenize_bytes : string -> list string)
    (tokenize_utf16 : list Z -> list string)
    (shuffled : list CPS.DirEntry -> list CPS.DirEntry)
    (sample_size : nat -> nat) (entries : list CPS.DirEntry) :
  let files := cps_sample file_mask shuffled sample_size entries in
  let raw_docs := map (CPS.raw_doc tokenize_bytes tokenize_utf16) files in
  (Z.of_nat (length files) < 2 ^ 32)%Z ->
  (Z.of_nat (length (concat raw_docs)) < 2 ^ 32)%Z ->
  exists t,
    Loader.load_directory file_mask tokenize_bytes tokenize_utf16 shuffled sample_size
      entries Loader.empty_tables
    = Done t /\
    Loader.miner t
    = CPS.load_directory file_mask tokenize_bytes tokenize_utf16 shuffled sample_size
        entries empty_miner /\
    file_paths (Loader.miner t) = map CPS.path files /\
    map (decode (id_to_word (Loader.miner t))) (docs (Loader.miner t)) = raw_docs /\
    Loader.doc_lengths t = map (@length token) (docs (Loader.miner t)).
Proof.
  intros files raw_docs Hn Hwords.
  rewrite loader_load_directory_eq, cps_load_directory_eq. fold files. fold raw_docs.
  set (fs := combine (map CPS.path files) raw_docs).
  assert (length fs = length files) as Hlen
    by (unfold fs, raw_docs; rewrite length_combine, !length_map; lia).
  assert (map fst fs = map CPS.path files) as Hfst
    by (apply combine_map_fst; unfold raw_docs; now rewrite !length_map).
  assert (map snd fs = raw_docs) as Hsnd
    by (apply combine_map_snd; unfold raw_docs; now rewrite !length_map).
  destruct (encode_all_Done fs) as (t & Hrun & Hm & Hl & _);
    [lia | now rewrite Hsnd |].
  destruct (encode_docs_ok fs [] empty_miner empty_encoding_ok)
    as (_ & Hpaths & ext & nd & _ & Hdocs & Hall).
  { rewrite Hsnd. simpl. exact Hwords. }
  cbv zeta in *. simpl in Hpaths, Hdocs. rewrite Hsnd in Hall. subst nd.
  exists t. rewrite Hm.
  split; [exact Hrun | split; [reflexivity |]].
  split; [now rewrite Hpaths, Hfst |].
  pose proof (Forall2_decode _ _ _ Hall) as Hdec.
  split; [exact Hdec |].
  rewrite Hl.
  transitivity (map (@length string) (map snd fs)); [now rewrite map_map |].
  rewrite Hsnd, <- Hdec, map_map. apply map_ext.
  intros doc. unfold decode. now rewrite length_map.
Qed.

Lemma load_directory_fills_tables_witness :
  (Z.of_nat (length (cps_sample "*.txt" insertion_order keep_all two_entries)) < 2 ^ 32)%Z /\
  exists t,
    Loader.load_directory "*.txt" tokenize no_words insertion_order keep_all two_entries
      Loader.empty_tables
    = Done t /\
    Loader.miner t
    = CPS.load_directory "*.txt" tokenize no_words insertion_order keep_all two_entries
        empty_miner.
Proof.
  assert (Z.of_nat (length (cps_sample "*.txt" insertion_order keep_all two_entries))
          < 2 ^ 32)%Z as Hn by (vm_compute; reflexivity).
  assert (Z.of_nat (length (concat (map (CPS.raw_doc tokenize no_words)
                                      (cps_sample "*.txt" insertion_order keep_all
                                         two_entries)))) < 2 ^ 32)%Z as Hw
    by (vm_compute; reflexivity).
  split; [exact Hn |].
  destruct (load_directory_fills_tables "*.txt" tokenize no_words insertion_order keep_all
              two_entries Hn Hw)
    as (t & Hrun & Hm & _).
  exists t. split; [exact Hrun | exact Hm].
Defined.

(** X10.  After [load_directory], [word_df] has one entry for every word of
    the dictionary, and the entry of a word is the number of loaded files
    in which the first phase reads the word ([CPS.raw_doc]). *)
Theorem word_df_counts_documents
    (file_mask : string) (tokenize_bytes : string -> list string)
    (tokenize_utf16 : list Z -> list string)
    (shuffled : list CPS.DirEntry -> list CPS.DirEntry)
    (sample_size : nat -> nat) (entries : list CPS.DirEntry) (t : Loader.Tables) :
  let files := cps_sample file_mask shuffled sample_size entries in
  let raw_docs := map (CPS.raw_doc tokenize_bytes tokenize_utf16) files in
  (Z.of_nat (length files) < 2 ^ 32)%Z ->
  (Z.of_nat (length (concat raw_docs)) < 2 ^ 32)%Z ->
  Loader.load_directory file_mask tokenize_bytes tokenize_utf16 shuffled sample_size
    entries Loader.empty_tables
  = Done t ->
  length (Loader.word_df t) = length (id_to_word (Loader.miner t)) /\
  forall id w,
    nth_error (id_to_word (Loader.miner t)) id = Some w ->
    nth_error (Loader.word_df t) id = Some (doc_frequency w raw_docs).
Proof.
  intros files raw_docs Hn Hwords. rewrite loader_load_directory_eq. fold files.
  fold raw_docs.
  set (fs := combine (map CPS.path files) raw_docs).
  assert (length fs = length files) as Hlen
    by (unfold fs, raw_docs; rewrite length_combine, !length_map; lia).
  assert (map snd fs = raw_docs) as Hsnd
    by (apply combine_map_snd; unfold raw_docs; now rewrite !length_map).
  destruct (encode_all_Done fs) as (t' & Hrun & _ & _ & Hdf & Hcount);
    [lia | now rewrite Hsnd |].
  rewrite Hrun. intros H. injection H as <-. rewrite Hsnd in Hcount.
  split; [exact Hdf | exact Hcount].
Qed.

Lemma word_df_counts_documents_witness :
  exists t,
    Loader.load_directory "*.txt" tokenize no_words insertion_order keep_all two_entries
      Loader.empty_tables
    = Done t /\
    length (Loader.word_df t) = length (id_to_word (Loader.miner t)) /\
    nth_error (Loader.word_df t) 1 = Some 2.
Proof.
  eexists. split; [vm_compute; reflexivity |].
  destruct (word_df_counts_documents "*.txt" tokenize no_words insertion_order keep_all
              two_entries _
              ltac:(vm_compute; reflexivity) ltac:(vm_compute; reflexivity)
              ltac:(vm_compute; reflexivity)) as [Hlen Hcount].
  split; [exact Hlen |].
  exact (Hcount 1 "y"%string eq_refl).
Defined.

(** X11.  [load_csv] with [sampling] at least 1.0, from an empty miner: it
    reads no vector past its end; the rows are the documents, in the order
    of the file, under the paths [row_0], [row_1], ...; the document of a
    row decodes to the words that the tokenizer finds in the row; and
    [word_df] holds for every word the number of rows in which it
    occurs. *)
Theorem load_csv_rows_become_documents
    (shuffled : list string -> list string) (sample_size : nat -> nat)
    (tokenize_row : string -> list string) (text : string) (delimiter : ascii) :
  let rows := Loader.csv_rows delimiter text in
  (Z.of_nat (length rows) < 2 ^ 32)%Z ->
  (Z.of_nat (length (concat (map tokenize_row rows))) < 2 ^ 32)%Z ->
  exists t,
    Loader.load_csv shuffled sample_size tokenize_row (Some text) delimiter false
      Loader.empty_tables = Done t /\
    file_paths (Loader.miner t) = row_paths (length rows) /\
    map (decode (id_to_word (Loader.miner t))) (docs (Loader.miner t))
    = map tokenize_row rows /\
    forall id w,
      nth_error (id_to_word (Loader.miner t)) id = Some w ->
      nth_error (Loader.word_df t) id = Some (doc_frequency w (map tokenize_row rows)).
Proof.
  intros rows Hn Hwords. unfold Loader.load_csv. fold rows. cbv zeta.
  fold (row_paths (length rows)).
  change (Loader.mkTables _ _ _) with Loader.empty_tables.
  set (fs := combine (row_paths (length rows)) (map tokenize_row rows)).
  assert (length (row_paths (length rows)) = length (map tokenize_row rows)) as Hsame
    by (unfold row_paths; now rewrite !length_map, length_seq).
  assert (length fs = length rows) as Hlen
    by (unfold fs; rewrite length_combine, Hsame, length_map; lia).
  assert (map fst fs = row_paths (length rows)) as Hfst
    by now apply combine_map_fst.
  assert (map snd fs = map tokenize_row rows) as Hsnd
    by now apply combine_map_snd.
  destruct (encode_all_Done fs) as (t & Hrun & Hm & _ & _ & Hcount);
    [lia | now rewrite Hsnd |].
  destruct (encode_docs_ok fs [] empty_miner empty_encoding_ok)
    as (_ & Hpaths & ext & nd & _ & Hdocs & Hall).
  { rewrite Hsnd. simpl. exact Hwords. }
  cbv zeta in *. simpl in Hpaths, Hdocs. rewrite Hsnd in Hall, Hcount. subst nd.
  exists t. rewrite Hm.
  split; [exact Hrun | split; [now rewrite Hpaths, Hfst | split]].
  - now apply Forall2_decode.
  - rewrite <- Hm. exact Hcount.
Qed.

Lemma load_csv_rows_become_documents_witness :
  (Z.of_nat (length (Loader.csv_rows "," two_rows)) < 2 ^ 32)%Z /\
  exists t,
    Loader.load_csv insertion_order keep_all tokenize (Some two_rows) "," false
      Loader.empty_tables = Done t /\
    file_paths (Loader.miner t) = row_paths (length (Loader.csv_rows "," two_rows)).
Proof.
  assert (Z.of_nat (length (Loader.csv_rows "," two_rows)) < 2 ^ 32)%Z as Hn
    by (vm_compute; reflexivity).
  split; [exact Hn |].
  destruct (load_csv_rows_become_documents insertion_order keep_all tokenize two_rows ","
              Hn ltac:(vm_compute; reflexivity)) as (t & Hrun & Hpaths & _).
  exists t. split; [exact Hrun | exact Hpaths].
Defined.

Lemma fold_count_word_OutOfRange (i : nat) (ws : list string) :
  fold_left (fun acc w => s <- acc ;; Loader.count_word i s w) ws OutOfRange
  = OutOfRange.
Proof. induction ws as [| w ws IH]; simpl; [reflexivity | exact IH]. Qed.

Lemma fold_count_doc_OutOfRange (files : list (nat * (string * list string))) :
  fold_left (fun acc file => s <- acc ;; Loader.count_doc s file) files OutOfRange
  = OutOfRange.
Proof. induction files as [| f files IH]; simpl; [reflexivity | exact IH]. Qed.

Lemma encode_all_known_first_word
    (t : Loader.Tables) (p w : string) (ws : list string)
    (files : list (string * list string)) (id : nat) :
  find_word w (word_to_id (Loader.miner t)) = Some id ->
  Loader.encode_all ((p, w :: ws) :: files) t = OutOfRange.
Proof.
  intros Hfind. unfold Loader.encode_all.
  change (length ((p, w :: ws) :: files)) with (S (length files)).
  cbn [seq combine fold_left bind]. unfold Loader.count_doc at 2.
  cbn [fst snd fold_left bind]. unfold Loader.count_word at 2.
  cbn [Loader.miner word_to_id]. rewrite Hfind.
  replace (nth_error [] id) with (@None nat) by now destruct id.
  rewrite fold_count_word_OutOfRange. cbn [bind].
  now rewrite fold_count_doc_OutOfRange.
Qed.

Lemma loader_load_directory_from file_mask tokenize_bytes tokenize_utf16 shuffled
    sample_size entries t :
  Loader.load_directory file_mask tokenize_bytes tokenize_utf16 shuffled sample_size entries t
  = Loader.encode_all
      (combine (map CPS.path (cps_sample file_mask shuffled sample_size entries))
         (map (CPS.raw_doc tokenize_bytes tokenize_utf16)
            (cps_sample file_mask shuffled sample_size entries)))
      (Loader.mkTables
         (mkMiner (word_to_id (Loader.miner t)) (id_to_word (Loader.miner t)) []
            (file_paths (Loader.miner t)))
         [] (Loader.doc_lengths t)).
Proof.
  unfold Loader.load_directory, cps_sample. cbv zeta.
  set (paths := shuffled (filter _ entries)).
  assert ((if length paths <? sample_size (length paths)
           then length paths else sample_size (length paths))
          = Nat.min (length paths) (sample_size (length paths))) as ->.
  { destruct (Nat.ltb_spec (length paths) (sample_size (length paths))); lia. }
  reflexivity.
Qed.

(** X12.  A second [load_directory] on the same miner: the dictionary is kept
    and [word_last_doc_id] starts empty again, so when the first word read
    in the first file is a word of the first load, [word_last_doc_id] is
    read past its end. *)
Theorem second_load_reads_out_of_range
    (file_mask : string) (tokenize_bytes : string -> list string)
    (tokenize_utf16 : list Z -> list string)
    (shuffled : list CPS.DirEntry -> list CPS.DirEntry)
    (sample_size : nat -> nat) (entries1 entries2 : list CPS.DirEntry)
    (t : Loader.Tables) (e : CPS.DirEntry) (rest : list CPS.DirEntry)
    (w : string) (ws : list string) :
  let files1 := cps_sample file_mask shuffled sample_size entries1 in
  let raw_docs1 := map (CPS.raw_doc tokenize_bytes tokenize_utf16) files1 in
  (Z.of_nat (length files1) < 2 ^ 32)%Z ->
  (Z.of_nat (length (concat raw_docs1)) < 2 ^ 32)%Z ->
  Loader.load_directory file_mask tokenize_bytes tokenize_utf16 shuffled sample_size
    entries1 Loader.empty_tables
  = Done t ->
  cps_sample file_mask shuffled sample_size entries2 = e :: rest ->
  CPS.raw_doc tokenize_bytes tokenize_utf16 e = w :: ws ->
  In w (concat raw_docs1) ->
  Loader.load_directory file_mask tokenize_bytes tokenize_utf16 shuffled sample_size
    entries2 t
  = OutOfRange.
Proof.
  intros files1 raw_docs1 Hn Hwords Hload Hfiles2 He Hknown.
  rewrite loader_load_directory_eq in Hload. fold files1 in Hload. fold raw_docs1 in Hload.
  set (fs := combine (map CPS.path files1) raw_docs1) in *.
  assert (length fs = length files1) as Hlen
    by (unfold fs, raw_docs1; rewrite length_combine, !length_map; lia).
  assert (map snd fs = raw_docs1) as Hsnd
    by (apply combine_map_snd; unfold raw_docs1; now rewrite !length_map).
  destruct (encode_all_Done fs) as (t' & Hrun & Hm & _);
    [lia | now rewrite Hsnd |].
  rewrite Hrun in Hload. injection Hload as ->.
  destruct (encode_docs_ok fs [] empty_miner empty_encoding_ok) as ([Hi2w Hbij] & _).
  { rewrite Hsnd. simpl. exact Hwords. }
  rewrite <- Hm in Hi2w, Hbij. simpl in Hi2w. rewrite Hsnd in Hi2w.
  apply (proj2 (first_occurrences_In _ _)) in Hknown. rewrite <- Hi2w in Hknown.
  apply In_nth_error in Hknown as [id Hid]. apply Hbij in Hid.
  rewrite loader_load_directory_from, Hfiles2. cbn [map combine]. rewrite He.
  now apply (encode_all_known_first_word _ _ w ws _ id).
Qed.

Lemma second_load_reads_out_of_range_witness :
  exists t,
    Loader.load_directory "*.txt" tokenize no_words insertion_order keep_all two_entries
      Loader.empty_tables
    = Done t /\
    In "x"%string
      (concat (map (CPS.raw_doc tokenize no_words)
                 (cps_sample "*.txt" insertion_order keep_all two_entries))) /\
    Loader.load_directory "*.txt" tokenize no_words insertion_order keep_all two_entries t
    = OutOfRange.
Proof.
  eexists. split; [vm_compute; reflexivity |].
  split; [now left |].
  apply (second_load_reads_out_of_range "*.txt" tokenize no_words insertion_order keep_all
           two_entries two_entries _
           (CPS.mkEntry "d/a.txt" ".txt" "a.txt" true (Some "x y"%string))
           [CPS.mkEntry "d/b.txt" ".txt" "b.txt" true (Some "y z"%string)]
           "x" ["y"%string]);
    try (vm_compute; reflexivity).
  now left.
Defined.

(** ** The PrefixSpan loader: CSV rows *)

Lemma add_field_nonempty (row field : string) :
  Loader.has_text row field = true -> Loader.add_field row field <> EmptyString.
Proof.
  unfold Loader.has_text, Loader.add_field. destruct row as [| c row]; simpl.
  - destruct field; [discriminate | discriminate].
  - discriminate.
Qed.

Lemma parse_rows_nonempty (delimiter : ascii) (text : string) :
  forall skip inQuotes row field rows,
    Forall (fun r => r <> EmptyString) rows ->
    Forall (fun r => r <> EmptyString)
      (Loader.parse_rows delimiter text skip inQuotes row field rows).
Proof.
  induction text as [| c rest IH]; intros skip inQuotes row field rows Hrows; simpl.
  - destruct (Loader.has_text row field) eqn:E; [| exact Hrows].
    apply Forall_app. split; [exact Hrows |].
    constructor; [now apply add_field_nonempty | constructor].
  - destruct skip; [now apply IH |].
    destruct inQuotes.
    { destruct (Ascii.eqb c Loader.quote_char); [| now apply IH].
      destruct (Loader.peek_is rest Loader.quote_char); now apply IH. }
    destruct (Ascii.eqb c Loader.quote_char); [now apply IH |].
    destruct (Ascii.eqb c delimiter); [now apply IH |].
    destruct (Ascii.eqb c Loader.lf_char || Ascii.eqb c Loader.cr_char); [| now apply IH].
    destruct (Loader.has_text row field) eqn:E; [| now apply IH].
    apply IH. apply Forall_app. split; [exact Hrows |].
    constructor; [now apply add_field_nonempty | constructor].
Qed.

(** X13.  [load_csv] never produces an empty row, whatever the file and the
    delimiter: a line without text gives no row. *)
Theorem csv_rows_not_empty (delimiter : ascii) (text : string) :
  Forall (fun r => r <> EmptyString) (Loader.csv_rows delimiter text).
Proof.
  unfold Loader.csv_rows. apply parse_rows_nonempty. constructor.
Qed.

Section PlainRows.

Variable delimiter : ascii.
Hypothesis delimiter_proper : proper_delimiter delimiter = true.

Lemma delimiter_plain :
  Ascii.eqb delimiter Loader.quote_char = false /\
  Ascii.eqb delimiter Loader.lf_char = false /\
  Ascii.eqb delimiter Loader.cr_char = false.
Proof.
  unfold proper_delimiter in delimiter_proper.
  rewrite !andb_true_iff, !negb_true_iff in delimiter_proper. tauto.
Qed.

Lemma parse_plain_field (f rest row field : string) (rows : list string) :
  all_chars (plain_char delimiter) f = true ->
  Loader.parse_rows delimiter (f ++ rest) false false row field rows
  = Loader.parse_rows delimiter rest false false row (field ++ f) rows.
Proof.
  revert field. induction f as [| c f IH]; intros field Hf; simpl.
  - now rewrite string_app_nil_r.
  - simpl in Hf. apply andb_true_iff in Hf as [Hc Hf].
    unfold plain_char in Hc. rewrite !andb_true_iff, !negb_true_iff in Hc.
    destruct Hc as [[[Hq Hd] Hlf] Hcr]. rewrite Hq, Hd, Hlf, Hcr. simpl.
    rewrite (IH _ Hf). now rewrite string_app_assoc.
Qed.

Lemma parse_delimiter (rest row field : string) (rows : list string) :
  Loader.parse_rows delimiter (String delimiter rest) false false row field rows
  = Loader.parse_rows delimiter rest false false (Loader.add_field row field)
      EmptyString rows.
Proof.
  destruct delimiter_plain as (Hq & _). simpl. now rewrite Hq, Ascii.eqb_refl.
Qed.

Lemma parse_end_of_line (crlf : bool) (rest row field : string) (rows : list string) :
  Loader.has_text row field = true ->
  Loader.parse_rows delimiter
    ((if crlf then String Loader.cr_char (String Loader.lf_char EmptyString)
      else String Loader.lf_char EmptyString) ++ rest) false false row field rows
  = Loader.parse_rows delimiter rest false false EmptyString EmptyString
      (rows ++ [Loader.add_field row field]).
Proof.
  intros Htext. destruct delimiter_plain as (_ & Hlf & Hcr).
  rewrite Ascii.eqb_sym in Hlf. rewrite Ascii.eqb_sym in Hcr.
  assert (Ascii.eqb Loader.lf_char Loader.quote_char = false) as H1 by reflexivity.
  assert (Ascii.eqb Loader.cr_char Loader.quote_char = false) as H2 by reflexivity.
  assert (Ascii.eqb Loader.lf_char Loader.cr_char = false) as H3 by reflexivity.
  assert (Ascii.eqb Loader.cr_char Loader.lf_char = false) as H4 by reflexivity.
  destruct crlf; cbn [append Loader.parse_rows Loader.peek_is];
    rewrite ?H1, ?H2, ?H3, ?H4, ?Hlf, ?Hcr, ?Ascii.eqb_refl, Htext; reflexivity.
Qed.

Lemma has_text_field (row field : string) :
  field <> EmptyString -> Loader.has_text row field = true.
Proof.
  intros H. unfold Loader.has_text. apply String.eqb_neq in H. rewrite H.
  apply orb_true_r.
Qed.

Lemma plain_field_spec (f : string) :
  plain_field delimiter f = true ->
  f <> EmptyString /\ all_chars (plain_char delimiter) f = true.
Proof.
  unfold plain_field. rewrite andb_true_iff, negb_true_iff, String.eqb_neq. tauto.
Qed.

Lemma parse_line (crlf : bool) (fields : list string) :
  forall rest row rows,
    fields <> [] ->
    Forall (fun f => plain_field delimiter f = true) fields ->
    Loader.parse_rows delimiter (csv_line delimiter crlf fields ++ rest)
      false false row EmptyString rows
    = Loader.parse_rows delimiter rest false false EmptyString EmptyString
        (rows ++ [fold_left Loader.add_field fields row]).
Proof.
  unfold csv_line.
  induction fields as [| f fields IH]; intros rest row rows Hne Hall; [congruence |].
  inversion Hall as [| ? ? Hf Hfields]; subst.
  apply plain_field_spec in Hf as [Hfne Hf].
  destruct fields as [| g fields].
  - cbn [String.concat fold_left]. rewrite !string_app_assoc.
    rewrite (parse_plain_field f _ row EmptyString rows Hf). cbn [append].
    apply parse_end_of_line. now apply has_text_field.
  - change (String.concat (String delimiter EmptyString) (f :: g :: fields))
      with (f ++ String delimiter
                   (String.concat (String delimiter EmptyString) (g :: fields)))%string.
    rewrite !string_app_assoc.
    rewrite (parse_plain_field f _ row EmptyString rows Hf). cbn [append].
    rewrite parse_delimiter. rewrite <- string_app_assoc.
    rewrite IH; [reflexivity | discriminate | exact Hfields].
Qed.

Lemma add_fields_join (fields : list string) :
  forall row,
    row <> EmptyString ->
    fold_left Loader.add_field fields row = String.concat " " (row :: fields).
Proof.
  induction fields as [| g fields IH]; intros row Hrow; [reflexivity |].
  cbn [fold_left]. rewrite IH.
  - unfold Loader.add_field. destruct row as [| c row]; [congruence |].
    destruct fields as [| h fields]; cbn [String.concat].
    + now rewrite string_app_assoc.
    + now rewrite !string_app_assoc.
  - unfold Loader.add_field. destruct row; [congruence | discriminate].
Qed.

Lemma parse_lines (crlf : bool) (lines : list (list string)) :
  forall rows,
    Forall (fun fields =>
              fields <> [] /\ Forall (fun f => plain_field delimiter f = true) fields)
      lines ->
    Loader.parse_rows delimiter
      (String.concat EmptyString (map (csv_line delimiter crlf) lines))
      false false EmptyString EmptyString rows
    = rows ++ map (String.concat " ") lines.
Proof.
  induction lines as [| fields lines IH]; intros rows Hall.
  - simpl. now rewrite app_nil_r.
  - inversion Hall as [| ? ? [Hne Hfields] Hlines]; subst.
    assert (String.concat EmptyString (map (csv_line delimiter crlf) (fields :: lines))
            = (csv_line delimiter crlf fields
               ++ String.concat EmptyString (map (csv_line delimiter crlf) lines))%string)
      as ->.
    { cbn [map String.concat]. destruct (map (csv_line delimiter crlf) lines);
        [now rewrite string_app_nil_r | reflexivity]. }
    rewrite (parse_line crlf fields _ _ _ Hne Hfields), (IH _ Hlines).
    rewrite <- app_assoc. cbn [app map]. do 2 f_equal.
    destruct fields as [| f fields]; [congruence |].
    inversion Hfields as [| ? ? Hf _]; subst. apply plain_field_spec in Hf as [Hf _].
    cbn [fold_left]. unfold Loader.add_field at 2. now apply add_fields_join.
Qed.

End PlainRows.

Lemma parse_quoted (delimiter : ascii) (s rest row field : string) (rows : list string) :
  Loader.peek_is rest Loader.quote_char = false ->
  Loader.parse_rows delimiter
    (csv_escape s ++ String Loader.quote_char rest) false true row field rows
  = Loader.parse_rows delimiter rest false false row (field ++ s) rows.
Proof.
  intros Hpeek. revert field. induction s as [| c s IH]; intros field.
  - cbn [csv_escape append Loader.parse_rows]. rewrite Ascii.eqb_refl, Hpeek.
    now rewrite string_app_nil_r.
  - cbn [csv_escape]. destruct (Ascii.eqb c Loader.quote_char) eqn:Hc.
    + apply Ascii.eqb_eq in Hc. subst c.
      cbn [append Loader.parse_rows Loader.peek_is]. rewrite !Ascii.eqb_refl.
      rewrite IH. now rewrite string_app_assoc.
    + cbn [append Loader.parse_rows]. rewrite Hc, IH. now rewrite string_app_assoc.
Qed.

(** X14.  On a file of lines that end in [\n] or in [\r\n], whose fields
    are not empty and are written without quotes, [load_csv] produces one
    row for every line: its fields with one blank between them.  The
    delimiter may be any byte but a quote, [\n] and [\r]. *)
Theorem csv_rows_of_plain_lines (delimiter : ascii) (crlf : bool)
    (lines : list (list string)) :
  proper_delimiter delimiter = true ->
  Forall (fun fields =>
            fields <> [] /\ Forall (fun f => plain_field delimiter f = true) fields)
    lines ->
  Loader.csv_rows delimiter
    (String.concat EmptyString (map (csv_line delimiter crlf) lines))
  = map (String.concat " ") lines.
Proof.
  intros Hd Hlines. unfold Loader.csv_rows.
  now rewrite (parse_lines delimiter Hd crlf lines []).
Qed.

Lemma csv_rows_of_plain_lines_witness :
  proper_delimiter "," = true /\
  Loader.csv_rows "," (String.concat EmptyString (map (csv_line "," true) two_lines))
  = map (String.concat " ") two_lines.
Proof.
  split; [reflexivity |].
  apply (csv_rows_of_plain_lines "," true two_lines); [reflexivity |].
  repeat (constructor; [split; [discriminate | repeat constructor] |]).
  constructor.
Defined.

(** X15.  A field between quotes, with every quote of its contents doubled,
    is read as its contents, whatever bytes they are (delimiters and ends
    of line included) and whatever the delimiter is. *)
Theorem csv_rows_of_quoted_field (delimiter : ascii) (s : string) :
  s <> EmptyString ->
  Loader.csv_rows delimiter (csv_quoted s) = [s].
Proof.
  intros Hs. unfold Loader.csv_rows, csv_quoted.
  cbn [Loader.parse_rows]. rewrite Ascii.eqb_refl.
  rewrite parse_quoted by reflexivity.
  cbn [Loader.parse_rows append]. rewrite (has_text_field EmptyString s Hs).
  reflexivity.
Qed.

Lemma csv_rows_of_quoted_field_witness :
  Loader.csv_rows "," (csv_quoted ("a,b" ++ newline ++ "c")) = ["a,b" ++ newline ++ "c"]%string.
Proof.
  apply (csv_rows_of_quoted_field "," ("a,b" ++ newline ++ "c")). discriminate.
Defined.

(** ** The PrefixSpan loader: file masks *)

Lemma substring_all (s : string) : substring 0 (String.length s) s = s.
Proof. induction s as [| c s IH]; simpl; [reflexivity | now rewrite IH]. Qed.

(** X16.  A mask [*.ext] selects the files whose extension is [.ext], and
    no other: the mask is compared, without its star, with the whole
    extension of the file. *)
Theorem mask_selects_extension (ext : string) (e : CPS.DirEntry) :
  CPS.mask_matches ("*." ++ ext) e = String.eqb (CPS.extension e) ("." ++ ext).
Proof.
  unfold CPS.mask_matches.
  change ("*." ++ ext)%string with (String "*" (String "." ext)).
  change ("." ++ ext)%string with (String "." ext).
  assert (String.eqb (String "*" (String "." ext)) EmptyString = false) as -> by reflexivity.
  assert (String.eqb (String "*" (String "." ext)) "*" = false) as -> by reflexivity.
  cbn [orb String.length Nat.leb andb Nat.sub].
  assert (substring 0 2 (String "*" (String "." ext)) = "*."%string) as ->
    by (destruct ext; reflexivity).
  rewrite String.eqb_refl. cbn [andb].
  f_equal. cbn [substring]. f_equal. apply substring_all.
Qed.

(** ** The greedy engine: occurrences, support and extension *)

Lemma tie_docs_fit : corpus_fits tie_docs.
Proof. apply small_corpus_fits; [simpl; lia | repeat constructor; simpl; lia]. Qed.

Lemma fox_docs_fit : corpus_fits (docs fox_miner).
Proof. apply small_corpus_fits; [simpl; lia | repeat constructor; simpl; lia]. Qed.

Lemma is_int_small (i : Z) : (0 <= i < 100)%Z -> is_int i.
Proof. unfold is_int. lia. Qed.

Lemma fold_left_flat_map {A B C : Type} (f : A -> C -> A) (g : B -> list C)
    (l : list B) (a : A) :
  fold_left f (flat_map g l) a = fold_left (fun a x => fold_left f (g x) a) l a.
Proof.
  revert a. induction l as [| x l IH]; intros a; simpl; [reflexivity |].
  now rewrite fold_left_app, IH.
Qed.

Lemma fold_left_map_list {A B C : Type} (f : A -> C -> A) (g : B -> C)
    (l : list B) (a : A) :
  fold_left f (map g l) a = fold_left (fun a x => f a (g x)) l a.
Proof.
  revert a. induction l as [| x l IH]; intros a; simpl; [reflexivity | apply IH].
Qed.

Lemma filter_flat_map {A B : Type} (f : B -> bool) (g : A -> list B) (l : list A) :
  filter f (flat_map g l) = flat_map (fun x => filter f (g x)) l.
Proof.
  induction l as [| x l IH]; simpl; [reflexivity |].
  now rewrite filter_app, IH.
Qed.

Lemma flat_map_ext_in {A B : Type} (f g : A -> list B) (l : list A) :
  (forall x, In x l -> f x = g x) -> flat_map f l = flat_map g l.
Proof.
  induction l as [| x l IH]; intros H; simpl; [reflexivity |].
  rewrite (H x) by now left. f_equal. apply IH. intros y Hy. apply H. now right.
Qed.

Lemma filter_filter {A : Type} (f g : A -> bool) (l : list A) :
  filter f (filter g l) = filter (fun x => g x && f x) l.
Proof.
  induction l as [| x l IH]; simpl; [reflexivity |].
  destruct (g x); simpl; [destruct (f x) |]; now rewrite IH.
Qed.

Lemma firstn_skipn_nth (doc : list token) (n p : nat) :
  p + n <= length doc ->
  firstn n (skipn p doc) = map (fun i => nth (p + i) doc 0) (seq 0 n).
Proof.
  induction n as [| n IH]; intros H; [reflexivity |].
  rewrite firstn_snoc, IH by lia. rewrite seq_S, map_app. simpl. f_equal.
  rewrite nth_error_skipn, (nth_error_nth' doc 0) by lia. reflexivity.
Qed.

Lemma matches_at_length (doc pat : list token) (p : nat) :
  matches_at doc pat p = true -> p + length pat <= length doc \/ pat = [].
Proof.
  unfold matches_at. intros H. apply tokens_eqb_eq in H.
  apply (f_equal (@length _)) in H. rewrite length_firstn, length_skipn in H.
  destruct pat as [| t pat]; [now right | left].
  change (length (t :: pat)) with (S (length pat)) in *. lia.
Qed.

Lemma matches_at_bound (doc pat : list token) (p : nat) :
  p <= length doc -> matches_at doc pat p = true -> p + length pat <= length doc.
Proof.
  unfold matches_at. intros Hp H. apply tokens_eqb_eq in H.
  apply (f_equal (@length _)) in H. rewrite length_firstn, length_skipn in H. lia.
Qed.

Lemma all_occurrences_docs (docs : corpus) (toks : list token) (d : nat) :
  In d (map GME.doc_id (all_occurrences docs toks)) <->
  d < length docs /\ contains (doc_at docs d) toks = true.
Proof.
  unfold all_occurrences, positions_of. rewrite in_map_iff. split.
  - intros (o & <- & Ho). apply in_flat_map in Ho as (d & Hd & Ho).
    apply in_seq in Hd. apply in_map_iff in Ho as (p & <- & Hp).
    apply filter_In in Hp as [Hp Hm]. apply in_seq in Hp. simpl.
    split; [lia |]. apply contains_spec. exists p. split; [lia | exact Hm].
  - intros [Hd Hc]. apply contains_spec in Hc as (p & Hp & Hm).
    exists (GME.mkOcc d p). split; [reflexivity |].
    apply in_flat_map. exists d. split; [apply in_seq; lia |].
    apply in_map. apply filter_In. split; [apply in_seq; lia | exact Hm].
Qed.

Lemma all_occurrences_support (docs : corpus) (toks : list token) :
  GME.distinct_docs (all_occurrences docs toks) = doc_support docs toks.
Proof.
  unfold GME.distinct_docs, doc_support.
  rewrite <- (filter_seq_length (fun doc => contains doc toks) docs).
  apply Permutation_length. apply NoDup_Permutation.
  - apply unique_docs_NoDup.
  - apply NoDup_filter. apply seq_NoDup.
  - intros d. rewrite unique_docs_In, all_occurrences_docs, filter_In, in_seq.
    intuition lia.
Qed.

Section GreedyExact.

Variable seeds_order :
  list (list token * list GME.Occurrence) -> list (list token * list GME.Occurrence).
Variable next_order :
  list (token * list GME.Occurrence) -> list (token * list GME.Occurrence).
Variable docs : corpus.
Variable min_docs ngrams : Z.

Hypothesis seeds_order_perm : forall m, Permutation (seeds_order m) m.
Hypothesis next_order_perm : forall m, Permutation (next_order m) m.
Hypothesis docs_fit : corpus_fits docs.
Hypothesis ngrams_int : is_int ngrams.

Lemma gather_seeds_flat :
  GME.gather_seeds docs ngrams
  = fold_left
      (fun m o => if (fun _ => true) o
                  then push_at tokens_eqb (seed_key docs ngrams o) o m else m)
      (flat_map (seed_starts docs ngrams) (seq 0 (length docs))) [].
Proof.
  unfold GME.gather_seeds. rewrite fold_left_flat_map.
  generalize (@nil (list token * list GME.Occurrence)).
  induction (seq 0 (length docs)) as [| d l IH]; intros s; simpl; [reflexivity |].
  rewrite <- IH. f_equal.
  unfold GME.seeds_of_doc, seed_starts. cbv zeta.
  destruct (Z.of_nat (length (doc_at docs d)) <? to_size_t ngrams)%Z; [reflexivity |].
  now rewrite fold_left_map_list.
Qed.

Lemma gather_seeds_grouped :
  grouped tokens_eqb (fun _ => true) (seed_key docs ngrams)
    (flat_map (seed_starts docs ngrams) (seq 0 (length docs)))
    (GME.gather_seeds docs ngrams).
Proof.
  rewrite gather_seeds_flat.
  exact (grouped_fold tokens_eqb tokens_eqb_eq (fun _ => true) (seed_key docs ngrams) _).
Qed.

Lemma seed_bucket (k : list token) (d : nat) :
  (0 <= ngrams)%Z ->
  d < length docs ->
  length k = Z.to_nat ngrams ->
  filter (fun o => true && tokens_eqb (seed_key docs ngrams o) k)
    (seed_starts docs ngrams d)
  = map (GME.mkOcc d) (positions_of (doc_at docs d) k).
Proof.
  intros Hn Hd Hk. unfold seed_starts, positions_of. cbv zeta.
  pose proof (doc_at_fits docs d docs_fit) as Hfit.
  destruct (to_size_t_int ngrams ngrams_int) as [Hpos _].
  specialize (Hpos Hn).
  set (doc := doc_at docs d) in *.
  destruct (Z.ltb_spec (Z.of_nat (length doc)) (to_size_t ngrams)) as [Hguard | Hguard].
  - cbn [filter]. rewrite (filter_none (matches_at doc k)); [reflexivity |].
    intros p Hp. apply in_seq in Hp.
    destruct (matches_at doc k p) eqn:E; [| reflexivity].
    apply matches_at_bound in E; [| lia].
    rewrite Hpos in Hguard. lia.
  - rewrite Hpos in *. rewrite Z.mod_small by lia.
    replace (Z.to_nat (Z.of_nat (length doc) - ngrams))
      with (length doc - length k) by lia.
    rewrite filter_map_swap. f_equal.
    replace (S (length doc)) with (S (length doc - length k) + length k) by lia.
    rewrite seq_app, filter_app.
    rewrite (filter_none (matches_at doc k) (seq _ (length k))).
    + rewrite app_nil_r. apply filter_ext_in. intros p Hp. apply in_seq in Hp.
      unfold seed_key, GME.ngram_at, matches_at. simpl.
      fold doc. rewrite firstn_skipn_nth by lia. rewrite Hk.
      f_equal. apply map_ext_in. intros i Hi. apply in_seq in Hi.
      rewrite u32_small by lia. reflexivity.
    + intros p Hp. apply in_seq in Hp.
      destruct (matches_at doc k p) eqn:E; [| reflexivity].
      apply matches_at_length in E as [E | E]; [lia |].
      subst k. simpl in *. lia.
Qed.

Lemma seed_entry_exact (k : list token) (vs : list GME.Occurrence) :
  In (k, vs) (GME.gather_seeds docs ngrams) ->
  vs = all_occurrences docs k /\ length k = Z.to_nat ngrams /\ (0 <= ngrams)%Z.
Proof.
  intros Hin. destruct gather_seeds_grouped as (_ & Hent & _).
  destruct (Hent k vs Hin) as [Hne Hvs].
  assert (exists o, In o vs) as [o Ho].
  { destruct vs as [| o vs']; [congruence | exists o; now left]. }
  rewrite Hvs in Ho. apply filter_In in Ho as [Ho Hkey].
  simpl in Hkey. apply tokens_eqb_eq in Hkey.
  assert (length k = Z.to_nat ngrams) as Hk.
  { rewrite <- Hkey. unfold seed_key, GME.ngram_at. now rewrite length_map, length_seq. }
  assert (0 <= ngrams)%Z as Hn.
  { apply in_flat_map in Ho as (d & Hd & Ho). apply in_seq in Hd.
    unfold seed_starts in Ho. cbv zeta in Ho.
    pose proof (doc_at_fits docs d docs_fit) as Hfit.
    destruct (Z.ltb_spec (Z.of_nat (length (doc_at docs d))) (to_size_t ngrams))
      as [Hguard | Hguard]; [destruct Ho |].
    destruct (Z_lt_le_dec ngrams 0) as [H | H]; [| exact H].
    destruct (to_size_t_int ngrams ngrams_int) as [_ Hneg].
    rewrite (Hneg H) in Hguard. unfold is_int in ngrams_int. lia. }
  split; [| split; [exact Hk | exact Hn]].
  rewrite Hvs, filter_flat_map. unfold all_occurrences.
  apply flat_map_ext_in. intros d Hd. apply in_seq in Hd.
  apply seed_bucket; [exact Hn | lia | exact Hk].
Qed.

Lemma all_occurrences_next (cand : GME.Phrase) (w : token) :
  filter (next_is docs cand w) (all_occurrences docs (GME.tokens cand))
  = all_occurrences docs (GME.tokens cand ++ [w]).
Proof.
  unfold all_occurrences. rewrite filter_flat_map.
  apply flat_map_ext_in. intros d Hd. apply in_seq in Hd.
  rewrite filter_map_swap. f_equal. unfold positions_of.
  rewrite filter_filter. apply filter_ext_in. intros p Hp. apply in_seq in Hp.
  rewrite matches_at_snoc. unfold next_is. cbv zeta. simpl.
  destruct (matches_at (doc_at docs d) (GME.tokens cand) p) eqn:E; [| reflexivity].
  apply matches_at_bound in E; [| lia].
  pose proof (doc_at_fits docs d docs_fit) as Hfit.
  rewrite u32_small by lia. reflexivity.
Qed.

Lemma candidates_exact :
  Forall (fun c => exact docs c /\ length (GME.tokens c) = Z.to_nat ngrams
                   /\ (0 <= ngrams)%Z)
    (GME.candidates seeds_order docs min_docs ngrams).
Proof.
  unfold GME.candidates.
  apply fold_left_Forall_inv
    with (Q := fun e => In e (GME.gather_seeds docs ngrams)).
  - intros cs [k vs] Hcs He. simpl.
    destruct (to_size_t min_docs <=? Z.of_nat (GME.distinct_docs vs))%Z; [| exact Hcs].
    apply Forall_app. split; [exact Hcs |]. constructor; [| constructor].
    destruct (seed_entry_exact k vs He) as (Hvs & Hk & Hn).
    split; [split |]; simpl; [exact Hvs | | split; [exact Hk | exact Hn]].
    rewrite Hvs. apply all_occurrences_support.
  - apply Forall_forall. intros e He.
    now apply (Permutation_in _ (seeds_order_perm _)).
  - constructor.
Qed.

Lemma extend_once_exact (cand cand' : GME.Phrase) :
  exact docs cand ->
  GME.extend_once next_order docs min_docs cand = Some cand' ->
  exact docs cand' /\ exists w, GME.tokens cand' = GME.tokens cand ++ [w].
Proof.
  intros [Hoccs _] Hext.
  destruct (extend_once_bucket next_order docs min_docs cand cand' next_order_perm Hext)
    as (w & Hin & Htok & Hsup & _).
  apply next_word_occs_bucket in Hin as [_ Hb].
  split; [| now exists w].
  assert (GME.occs cand' = all_occurrences docs (GME.tokens cand')) as H.
  { rewrite Hb, Htok, Hoccs. apply all_occurrences_next. }
  split; [exact H |]. rewrite Hsup, H. apply all_occurrences_support.
Qed.

Lemma expand_exact (fuel : nat) :
  forall cand cand',
    exact docs cand ->
    GME.expand next_order docs min_docs fuel cand = Done cand' ->
    exact docs cand' /\
    GME.extend_once next_order docs min_docs cand' = None /\
    exists ext, GME.tokens cand' = GME.tokens cand ++ ext.
Proof.
  induction fuel as [| fuel IH]; intros cand cand' Hc; simpl; [discriminate |].
  destruct (GME.extend_once next_order docs min_docs cand) as [c |] eqn:E.
  - intros H. destruct (extend_once_exact cand c Hc E) as (Hc1 & w & Hw).
    destruct (IH c cand' Hc1 H) as (Hc' & Hstop & ext & Hext).
    split; [exact Hc' | split; [exact Hstop |]].
    exists (w :: ext). rewrite Hext, Hw, <- app_assoc. reflexivity.
  - intros H. injection H as <-. split; [exact Hc | split; [exact E |]].
    exists []. now rewrite app_nil_r.
Qed.

Lemma process_grown (stop_requested : nat -> bool) (fuel : nat)
    (cands : list GME.Phrase) :
  forall c_idx processed final res,
    incl cands (GME.candidates seeds_order docs min_docs ngrams) ->
    Forall (grown seeds_order next_order docs min_docs ngrams) final ->
    GME.process next_order stop_requested docs min_docs fuel cands c_idx processed final
    = Done res ->
    Forall (grown seeds_order next_order docs min_docs ngrams) res.
Proof.
  induction cands as [| cand rest IH]; intros c_idx processed final res Hincl Hfinal; simpl.
  - intros H. injection H as <-. exact Hfinal.
  - destruct (stop_requested c_idx); [intros H; injection H as <-; exact Hfinal |].
    assert (incl rest (GME.candidates seeds_order docs min_docs ngrams)) as Hrest
      by (intros x Hx; apply Hincl; now right).
    destruct (GME.all_processed processed (GME.occs cand)) as [[|] | |];
      simpl; try discriminate.
    + now apply IH.
    + destruct (GME.expand next_order docs min_docs fuel cand) as [cand' | |] eqn:E;
        simpl; try discriminate.
      apply IH; [exact Hrest |].
      apply Forall_app. split; [exact Hfinal |]. constructor; [| constructor].
      assert (In cand (GME.candidates seeds_order docs min_docs ngrams)) as Hc
        by (apply Hincl; now left).
      pose proof candidates_exact as Hall. rewrite Forall_forall in Hall.
      destruct (Hall cand Hc) as (Hex & _).
      destruct (expand_exact fuel cand cand' Hex E) as (Hex' & Hstop & ext & Hext).
      split; [exact Hex' | split; [exact Hstop |]]. now exists cand, ext.
Qed.

Lemma final_phrases_grown (stop_requested : nat -> bool) (fuel : nat)
    (res : list GME.Phrase) :
  GME.final_phrases seeds_order next_order stop_requested docs min_docs ngrams fuel
  = Done res ->
  Forall (grown seeds_order next_order docs min_docs ngrams) res.
Proof.
  unfold GME.final_phrases. apply process_grown; [| constructor].
  intros c Hc.
  now apply (Permutation_in _ (Permutation_sym (std_sort_perm GME.by_support _))).
Qed.

End GreedyExact.

Lemma distinct_docs_positive (os : list GME.Occurrence) :
  os <> [] -> 1 <= GME.distinct_docs os.
Proof.
  intros H. unfold GME.distinct_docs.
  destruct os as [| o os]; [congruence |].
  assert (In (GME.doc_id o) (unique_docs (map GME.doc_id (o :: os)))) as Hin
    by (apply unique_docs_In; now left).
  destruct (unique_docs (map GME.doc_id (o :: os))); [destruct Hin | simpl; lia].
Qed.

Lemma extend_once_none
    (next_order : list (token * list GME.Occurrence) -> list (token * list GME.Occurrence))
    (docs : corpus) (min_docs : Z) (cand : GME.Phrase) :
  (forall m, Permutation (next_order m) m) ->
  GME.extend_once next_order docs min_docs cand = None ->
  forall w os,
    In (w, os) (GME.next_word_occs docs cand) ->
    ~ reaches min_docs (GME.distinct_docs os).
Proof.
  intros Hperm. unfold GME.extend_once.
  set (entries := next_order (GME.next_word_occs docs cand)).
  pose proof (select_best_spec min_docs entries) as Hsel. cbv zeta in Hsel.
  set (b := GME.select_best min_docs entries) in *.
  destruct (Nat.ltb_spec 0 (GME.max_support b)) as [Hpos | Hpos]; [discriminate |].
  intros _ w os Hin.
  destruct Hsel as [[_ Hnone] | (bf & af & Hl & Hu & _)].
  - apply (Hnone (w, os)). now apply (Permutation_in _ (Permutation_sym (Hperm _))).
  - exfalso.
    assert (In (GME.best_word b, GME.best_next_occs b) (GME.next_word_occs docs cand))
      as Hb.
    { apply (Permutation_in _ (Hperm _)). fold entries. rewrite Hl.
      apply in_or_app. right. now left. }
    apply next_word_occs_bucket in Hb as [Hne _].
    pose proof (distinct_docs_positive _ Hne). lia.
Qed.

Lemma grown_right_maximal
    (seeds_order :
       list (list token * list GME.Occurrence) -> list (list token * list GME.Occurrence))
    (next_order : list (token * list GME.Occurrence) -> list (token * list GME.Occurrence))
    (docs : corpus) (min_docs ngrams : Z) (p : GME.Phrase) (w : token) :
  (forall m, Permutation (next_order m) m) ->
  corpus_fits docs ->
  grown seeds_order next_order docs min_docs ngrams p ->
  1 <= doc_support docs (GME.tokens p ++ [w]) ->
  ~ reaches min_docs (doc_support docs (GME.tokens p ++ [w])).
Proof.
  intros Hperm Hfit ([Hoccs _] & Hstop & _) Hpos.
  rewrite <- (all_occurrences_support docs) in *.
  rewrite <- (all_occurrences_next docs Hfit p w) in *. rewrite <- Hoccs in *.
  set (os := filter (next_is docs p w) (GME.occs p)) in *.
  assert (exists o, In o os) as [o Ho].
  { destruct os as [| o os']; [| exists o; now left].
    unfold GME.distinct_docs in Hpos. simpl in Hpos. lia. }
  apply filter_In in Ho as [Ho Hnext].
  unfold next_is in Hnext. cbv zeta in Hnext.
  apply andb_true_iff in Hnext as [Hok Hkey]. apply Nat.eqb_eq in Hkey.
  destruct (next_word_occs_grouped docs p) as (_ & _ & Hkeys).
  specialize (Hkeys o Ho Hok). cbv beta in Hkeys. rewrite Hkey in Hkeys.
  apply in_map_iff in Hkeys as ([w' os'] & Hw' & Hin). simpl in Hw'. subst w'.
  pose proof (extend_once_none next_order docs min_docs p Hperm Hstop w os' Hin) as Hno.
  apply next_word_occs_bucket in Hin as [_ Hos']. fold os in Hos'. now subst os'.
Qed.

(** X17.  Every phrase that the greedy miner hands to the writer carries
    all the occurrences of its tokens in the corpus, document after
    document and from left to right; its support is the number of
    documents in which its tokens occur as a contiguous run, and is at
    least [min_docs]; and it has at least [ngrams] tokens.  A stop request
    does not change this. *)
Theorem gme_support_is_document_frequency
    (seeds_order :
       list (list token * list GME.Occurrence) -> list (list token * list GME.Occurrence))
    (next_order : list (token * list GME.Occurrence) -> list (token * list GME.Occurrence))
    (stop_requested : nat -> bool) (docs : corpus) (min_docs ngrams : Z)
    (fuel : nat) (res : list GME.Phrase) :
  (forall m, Permutation (seeds_order m) m) ->
  (forall m, Permutation (next_order m) m) ->
  corpus_fits docs ->
  is_int ngrams ->
  is_int min_docs ->
  GME.final_phrases seeds_order next_order stop_requested docs min_docs ngrams fuel
  = Done res ->
  Forall
    (fun p =>
       GME.occs p = all_occurrences docs (GME.tokens p) /\
       GME.support p = doc_support docs (GME.tokens p) /\
       (min_docs <= Z.of_nat (GME.support p))%Z /\
       (ngrams <= Z.of_nat (length (GME.tokens p)))%Z)
    res.
Proof.
  intros Hs Hn Hfit Hint Hmin Hres.
  pose proof (final_phrases_grown seeds_order next_order docs min_docs
                ngrams Hs Hn Hfit Hint stop_requested fuel res Hres) as Hgrown.
  pose proof (final_phrases_ok seeds_order next_order stop_requested docs min_docs
                ngrams Hs Hn Hfit Hint fuel res Hres) as Hok.
  pose proof (candidates_exact seeds_order docs min_docs ngrams Hs Hfit Hint) as Hcands.
  rewrite Forall_forall in *. intros p Hp.
  destruct (Hgrown p Hp) as ([Hoccs Hsup] & _ & c & ext & Hc & Htok).
  destruct (Hok p Hp) as [_ [_ Hreach]]. unfold reaches in Hreach.
  destruct (Hcands c Hc) as (_ & Hlen & Hpos).
  pose proof (to_size_t_ge min_docs Hmin).
  split; [exact Hoccs | split; [exact Hsup | split; [lia |]]].
  rewrite Htok, length_app. lia.
Qed.

Lemma gme_support_is_document_frequency_witness :
  corpus_fits (docs fox_miner) /\
  is_int 3 /\
  exists res,
    GME.final_phrases insertion_order insertion_order never (docs fox_miner) 3 3 10
    = Done res /\
    Forall
      (fun p =>
         GME.occs p = all_occurrences (docs fox_miner) (GME.tokens p) /\
         GME.support p = doc_support (docs fox_miner) (GME.tokens p) /\
         (3 <= Z.of_nat (GME.support p))%Z /\
         (3 <= Z.of_nat (length (GME.tokens p)))%Z)
      res.
Proof.
  assert (is_int 3) as Hint by (apply is_int_small; lia).
  split; [exact fox_docs_fit | split; [exact Hint |]].
  eexists. split; [vm_compute; reflexivity |].
  apply (gme_support_is_document_frequency insertion_order insertion_order never
           (docs fox_miner) 3 3 10 _ insertion_order_perm insertion_order_perm
           fox_docs_fit Hint Hint).
  vm_compute; reflexivity.
Defined.

(** X18.  With [min_docs] at least 1, no phrase handed to the writer by the
    greedy miner can be extended to the right: whatever token is added
    after it, the longer phrase occurs in fewer than [min_docs]
    documents. *)
Theorem gme_phrases_right_maximal
    (seeds_order :
       list (list token * list GME.Occurrence) -> list (list token * list GME.Occurrence))
    (next_order : list (token * list GME.Occurrence) -> list (token * list GME.Occurrence))
    (stop_requested : nat -> bool) (docs : corpus) (min_docs ngrams : Z)
    (fuel : nat) (res : list GME.Phrase) :
  (forall m, Permutation (seeds_order m) m) ->
  (forall m, Permutation (next_order m) m) ->
  corpus_fits docs ->
  is_int ngrams ->
  is_int min_docs ->
  (1 <= min_docs)%Z ->
  GME.final_phrases seeds_order next_order stop_requested docs min_docs ngrams fuel
  = Done res ->
  Forall
    (fun p => forall w, (Z.of_nat (doc_support docs (GME.tokens p ++ [w])) < min_docs)%Z)
    res.
Proof.
  intros Hs Hn Hfit Hint Hmin Hpos Hres.
  eapply Forall_impl;
    [| apply (final_phrases_grown seeds_order next_order docs min_docs
                ngrams Hs Hn Hfit Hint stop_requested fuel res Hres)].
  intros p Hp w.
  destruct (Nat.lt_ge_cases (doc_support docs (GME.tokens p ++ [w])) 1) as [H0 | H1];
    [lia |].
  pose proof (grown_right_maximal seeds_order next_order docs min_docs ngrams p w
                Hn Hfit Hp H1) as Hno.
  unfold reaches in Hno.
  destruct (to_size_t_int min_docs Hmin) as [Hsz _]. rewrite Hsz in Hno by lia. lia.
Qed.

Lemma gme_phrases_right_maximal_witness :
  corpus_fits (docs fox_miner) /\
  is_int 3 /\
  (1 <= 3)%Z /\
  exists res,
    GME.final_phrases insertion_order insertion_order never (docs fox_miner) 3 3 10
    = Done res /\
    Forall
      (fun p =>
         forall w,
           (Z.of_nat (doc_support (docs fox_miner) (GME.tokens p ++ [w])) < 3)%Z)
      res.
Proof.
  assert (is_int 3) as Hint by (apply is_int_small; lia).
  split; [exact fox_docs_fit | split; [exact Hint | split; [lia |]]].
  eexists. split; [vm_compute; reflexivity |].
  apply (gme_phrases_right_maximal insertion_order insertion_order never
           (docs fox_miner) 3 3 10 _ insertion_order_perm insertion_order_perm
           fox_docs_fit Hint Hint); [lia |].
  vm_compute; reflexivity.
Defined.

Lemma candidates_eq
    (seeds_order :
       list (list token * list GME.Occurrence) -> list (list token * list GME.Occurrence))
    (docs : corpus) (min_docs ngrams : Z) :
  GME.candidates seeds_order docs min_docs ngrams
  = map (fun e => GME.mkPhrase (fst e) (snd e) (GME.distinct_docs (snd e)))
      (filter (fun e => (to_size_t min_docs <=? Z.of_nat (GME.distinct_docs (snd e)))%Z)
         (seeds_order (GME.gather_seeds docs ngrams))).
Proof.
  unfold GME.candidates.
  induction (seeds_order (GME.gather_seeds docs ngrams)) as [| e l IH] using rev_ind;
    [reflexivity |].
  rewrite fold_left_app, filter_app, map_app, <- IH. simpl.
  destruct (to_size_t min_docs <=? Z.of_nat (GME.distinct_docs (snd e)))%Z;
    [reflexivity | now rewrite app_nil_r].
Qed.

Lemma NoDup_map_filter {A B : Type} (f : A -> B) (g : A -> bool) (l : list A) :
  NoDup (map f l) -> NoDup (map f (filter g l)).
Proof.
  induction l as [| x l IH]; simpl; intros H; [constructor |].
  inversion H as [| ? ? Hx Hl]; subst.
  destruct (g x); simpl; [| now apply IH].
  constructor; [| now apply IH].
  intros Hin. apply Hx. apply in_map_iff in Hin as (y & Hy & Hin).
  apply filter_In in Hin as [Hin _]. apply in_map_iff. now exists y.
Qed.

Lemma candidates_distinct
    (seeds_order :
       list (list token * list GME.Occurrence) -> list (list token * list GME.Occurrence))
    (docs : corpus) (min_docs ngrams : Z) :
  (forall m, Permutation (seeds_order m) m) ->
  NoDup (map GME.tokens (GME.candidates seeds_order docs min_docs ngrams)).
Proof.
  intros Hperm. rewrite candidates_eq, map_map. simpl.
  apply NoDup_map_filter.
  apply (Permutation_NoDup (Permutation_map fst (Permutation_sym (Hperm _)))).
  destruct (gather_seeds_grouped docs ngrams) as (Hnd & _). exact Hnd.
Qed.

Lemma process_extends
    (next_order : list (token * list GME.Occurrence) -> list (token * list GME.Occurrence))
    (stop_requested : nat -> bool) (docs : corpus) (min_docs : Z) (fuel : nat)
    (cands : list GME.Phrase) :
  forall c_idx processed final res,
    GME.process next_order stop_requested docs min_docs fuel cands c_idx processed final
    = Done res ->
    exists new, res = final ++ new.
Proof.
  induction cands as [| cand rest IH]; intros c_idx processed final res; simpl.
  - intros H. injection H as <-. exists []. now rewrite app_nil_r.
  - destruct (stop_requested c_idx).
    { intros H. injection H as <-. exists []. now rewrite app_nil_r. }
    destruct (GME.all_processed processed (GME.occs cand)) as [[|] | |];
      simpl; try discriminate.
    + apply IH.
    + destruct (GME.expand next_order docs min_docs fuel cand) as [cand' | |];
        simpl; try discriminate.
      intros H. apply IH in H as [new ->]. exists (cand' :: new).
      now rewrite <- app_assoc.
Qed.

Section GreedyDistinct.

Variable seeds_order :
  list (list token * list GME.Occurrence) -> list (list token * list GME.Occurrence).
Variable next_order :
  list (token * list GME.Occurrence) -> list (token * list GME.Occurrence).
Variable docs : corpus.
Variable min_docs ngrams : Z.

Hypothesis seeds_order_perm : forall m, Permutation (seeds_order m) m.
Hypothesis next_order_perm : forall m, Permutation (next_order m) m.
Hypothesis docs_fit : corpus_fits docs.
Hypothesis ngrams_int : is_int ngrams.

Lemma process_heads (stop_requested : nat -> bool) (fuel : nat)
    (cands : list GME.Phrase) :
  forall c_idx processed final res,
    incl cands (GME.candidates seeds_order docs min_docs ngrams) ->
    NoDup (map GME.tokens cands) ->
    GME.process next_order stop_requested docs min_docs fuel cands c_idx processed final
    = Done res ->
    exists new,
      res = final ++ new /\
      NoDup (map (fun p => firstn (Z.to_nat ngrams) (GME.tokens p)) new) /\
      incl (map (fun p => firstn (Z.to_nat ngrams) (GME.tokens p)) new)
        (map GME.tokens cands).
Proof.
  induction cands as [| cand rest IH]; intros c_idx processed final res Hincl Hnd; simpl.
  - intros H. injection H as <-. exists []. rewrite app_nil_r.
    split; [reflexivity | split; [constructor | intros x []]].
  - destruct (stop_requested c_idx).
    { intros H. injection H as <-. exists []. rewrite app_nil_r.
      split; [reflexivity | split; [constructor | intros x []]]. }
    assert (incl rest (GME.candidates seeds_order docs min_docs ngrams)) as Hrest
      by (intros x Hx; apply Hincl; now right).
    inversion Hnd as [| ? ? Hcand Hnd']; subst.
    destruct (GME.all_processed processed (GME.occs cand)) as [[|] | |];
      simpl; try discriminate.
    + intros H. destruct (IH _ _ _ _ Hrest Hnd' H) as (new & -> & Hn & Hi).
      exists new. split; [reflexivity | split; [exact Hn |]].
      intros x Hx. right. now apply Hi.
    + destruct (GME.expand next_order docs min_docs fuel cand) as [cand' | |] eqn:E;
        simpl; try discriminate.
      intros H. destruct (IH _ _ _ _ Hrest Hnd' H) as (new & -> & Hn & Hi).
      exists (cand' :: new). rewrite <- app_assoc.
      pose proof (candidates_exact seeds_order docs min_docs ngrams seeds_order_perm
                    docs_fit ngrams_int) as Hall.
      rewrite Forall_forall in Hall.
      destruct (Hall cand (Hincl cand (or_introl eq_refl))) as (Hex & Hlen & _).
      destruct (expand_exact next_order docs min_docs next_order_perm docs_fit
                  fuel cand cand' Hex E) as (_ & _ & ext & Hext).
      assert (firstn (Z.to_nat ngrams) (GME.tokens cand') = GME.tokens cand) as Hhead.
      { rewrite Hext, <- Hlen, firstn_app, Nat.sub_diag, firstn_all. simpl.
        apply app_nil_r. }
      split; [reflexivity | split].
      * simpl. rewrite Hhead. constructor; [| exact Hn].
        intros Hin. apply Hcand. now apply Hi.
      * intros x [<- | Hx]; [left; now rewrite Hhead | right; now apply Hi].
Qed.

End GreedyDistinct.

(** X19.  The greedy miner hands no phrase to the writer twice: the token
    sequences of the phrases it returns are pairwise different. *)
Theorem gme_phrases_distinct
    (seeds_order :
       list (list token * list GME.Occurrence) -> list (list token * list GME.Occurrence))
    (next_order : list (token * list GME.Occurrence) -> list (token * list GME.Occurrence))
    (stop_requested : nat -> bool) (docs : corpus) (min_docs ngrams : Z)
    (fuel : nat) (res : list GME.Phrase) :
  (forall m, Permutation (seeds_order m) m) ->
  (forall m, Permutation (next_order m) m) ->
  corpus_fits docs ->
  is_int ngrams ->
  GME.final_phrases seeds_order next_order stop_requested docs min_docs ngrams fuel
  = Done res ->
  NoDup (map GME.tokens res).
Proof.
  intros Hs Hn Hfit Hint Hres. unfold GME.final_phrases in Hres.
  apply (process_heads seeds_order next_order docs min_docs ngrams Hs Hn Hfit Hint)
    in Hres as (new & -> & Hnd & _).
  - simpl. apply (NoDup_map_inv (firstn (Z.to_nat ngrams))). now rewrite map_map.
  - intros c Hc.
    now apply (Permutation_in _ (Permutation_sym (std_sort_perm GME.by_support _))).
  - apply (Permutation_NoDup (Permutation_map GME.tokens (std_sort_perm GME.by_support _))).
    now apply candidates_distinct.
Qed.

Lemma gme_phrases_distinct_witness :
  corpus_fits tie_docs /\
  is_int 1 /\
  exists res,
    GME.final_phrases insertion_order insertion_order never tie_docs 1 1 10 = Done res /\
    NoDup (map GME.tokens res).
Proof.
  assert (is_int 1) as Hint by (apply is_int_small; lia).
  split; [exact tie_docs_fit | split; [exact Hint |]].
  eexists. split; [vm_compute; reflexivity |].
  apply (gme_phrases_distinct insertion_order insertion_order never tie_docs 1 1 10 _
           insertion_order_perm insertion_order_perm tie_docs_fit Hint).
  vm_compute; reflexivity.
Defined.

Lemma process_stop_prefix
    (next_order : list (token * list GME.Occurrence) -> list (token * list GME.Occurrence))
    (stop_requested : nat -> bool) (docs : corpus) (min_docs : Z) (fuel : nat)
    (cands : list GME.Phrase) :
  forall c_idx processed final all,
    GME.process next_order never docs min_docs fuel cands c_idx processed final
    = Done all ->
    exists res rest,
      GME.process next_order stop_requested docs min_docs fuel cands c_idx processed final
      = Done res /\
      all = res ++ rest.
Proof.
  induction cands as [| cand rest IH]; intros c_idx processed final all Hall.
  - simpl in *. injection Hall as <-. exists final, []. now rewrite app_nil_r.
  - destruct (stop_requested c_idx) eqn:Hstop.
    + apply process_extends in Hall as [new ->].
      exists final, new. simpl. now rewrite Hstop.
    + simpl in *. rewrite Hstop. unfold never at 1 in Hall.
      destruct (GME.all_processed processed (GME.occs cand)) as [[|] | |];
        simpl in *; try discriminate.
      * now apply IH.
      * destruct (GME.expand next_order docs min_docs fuel cand) as [cand' | |];
          simpl in *; try discriminate.
        now apply IH.
Qed.

(** X20.  A stop request loses no phrase found before it and changes none:
    when the uninterrupted run returns, the interrupted run returns too,
    and its phrases are the first phrases of the uninterrupted run, in the
    same order. *)
Theorem gme_stop_keeps_a_prefix
    (seeds_order :
       list (list token * list GME.Occurrence) -> list (list token * list GME.Occurrence))
    (next_order : list (token * list GME.Occurrence) -> list (token * list GME.Occurrence))
    (stop_requested : nat -> bool) (docs : corpus) (min_docs ngrams : Z)
    (fuel : nat) (all : list GME.Phrase) :
  GME.final_phrases seeds_order next_order never docs min_docs ngrams fuel = Done all ->
  exists res rest,
    GME.final_phrases seeds_order next_order stop_requested docs min_docs ngrams fuel
    = Done res /\
    all = res ++ rest.
Proof.
  unfold GME.final_phrases. apply process_stop_prefix.
Qed.

Lemma gme_stop_keeps_a_prefix_witness :
  exists all,
    GME.final_phrases insertion_order insertion_order never tie_docs 1 1 10 = Done all /\
    exists res rest,
      GME.final_phrases insertion_order insertion_order stop_after_first tie_docs 1 1 10
      = Done res /\
      all = res ++ rest.
Proof.
  eexists. split; [vm_compute; reflexivity |].
  apply (gme_stop_keeps_a_prefix insertion_order insertion_order stop_after_first
           tie_docs 1 1 10).
  vm_compute; reflexivity.
Defined.

(** X21.  With [ngrams] not zero and a loop budget above the length of the
    longest document, [mine] of the greedy miner reads no vector past its
    end, leaves every extension loop, and writes the file of the phrases
    it found. *)
Theorem gme_mine_returns
    (seeds_order :
       list (list token * list GME.Occurrence) -> list (list token * list GME.Occurrence))
    (next_order : list (token * list GME.Occurrence) -> list (token * list GME.Occurrence))
    (ids_order : list nat -> list nat) (stop_requested : nat -> bool)
    (m : Miner) (min_docs ngrams : Z) (fuel : nat) :
  (forall l, Permutation (seeds_order l) l) ->
  (forall l, Permutation (next_order l) l) ->
  corpus_fits (docs m) ->
  is_int ngrams ->
  ngrams <> 0%Z ->
  longest (docs m) + 1 <= fuel ->
  exists res,
    GME.final_phrases seeds_order next_order stop_requested (docs m) min_docs ngrams fuel
    = Done res /\
    GME.mine seeds_order next_order ids_order stop_requested m min_docs ngrams fuel
    = Done (GME.save_to_csv ids_order m res).
Proof.
  intros Hs Hn Hfit Hint Hnz Hfuel. unfold GME.mine.
  destruct (final_phrases_returns seeds_order next_order stop_requested (docs m)
              min_docs ngrams Hs Hn Hfit Hint Hnz fuel Hfuel) as [res Hres].
  exists res. rewrite Hres. split; reflexivity.
Qed.

Lemma gme_mine_returns_witness :
  corpus_fits (docs fox_miner) /\
  is_int 3 /\
  longest (docs fox_miner) + 1 <= 10 /\
  exists res,
    GME.final_phrases insertion_order insertion_order never (docs fox_miner) 3 3 10
    = Done res /\
    GME.mine insertion_order insertion_order insertion_order never fox_miner 3 3 10
    = Done (GME.save_to_csv insertion_order fox_miner res).
Proof.
  assert (is_int 3) as Hint by (apply is_int_small; lia).
  assert (longest (docs fox_miner) + 1 <= 10) as Hfuel by (simpl; lia).
  split; [exact fox_docs_fit | split; [exact Hint | split; [exact Hfuel |]]].
  apply (gme_mine_returns insertion_order insertion_order insertion_order never fox_miner
           3 3 10 insertion_order_perm insertion_order_perm fox_docs_fit Hint);
    [discriminate | exact Hfuel].
Defined.

(** ** The greedy engine: candidates and marked positions *)

Lemma nth_set_nth {A : Type} (i j : nat) (x d : A) (v : list A) :
  nth j (set_nth i x v) d = if (j =? i) && (i <? length v) then x else nth j v d.
Proof.
  revert i j. induction v as [| y v IH]; intros [| i] [| j]; simpl;
    rewrite ?andb_false_r; try reflexivity.
  apply IH.
Qed.

Lemma marked_set (processed : list (list bool)) (d0 q0 d q : nat) :
  marked (set_nth d0 (set_nth q0 true (nth d0 processed [])) processed) d q = true ->
  marked processed d q = true \/ (d = d0 /\ q = q0).
Proof.
  unfold marked. rewrite nth_set_nth.
  destruct (Nat.eqb_spec d d0) as [-> | Hd]; simpl; [| now left].
  destruct (d0 <? length processed); [| now left].
  rewrite nth_set_nth.
  destruct (Nat.eqb_spec q q0) as [-> | Hq]; simpl; [| now left].
  intros _. now right.
Qed.

Lemma mark_occ_marked (len : nat) (o : GME.Occurrence) (d q : nat) :
  forall processed,
    marked (GME.mark_occ len processed o) d q = true ->
    marked processed d q = true \/
    (d = GME.doc_id o /\ exists i, i < len /\ q = u32 (GME.pos o + i)).
Proof.
  unfold GME.mark_occ.
  assert (forall idxs processed,
            marked
              (fold_left
                 (fun pr i =>
                    let q := u32 (GME.pos o + i) in
                    let row := nth (GME.doc_id o) pr [] in
                    if q <? length row
                    then set_nth (GME.doc_id o) (set_nth q true row) pr else pr)
                 idxs processed) d q = true ->
            marked processed d q = true \/
            (d = GME.doc_id o /\ exists i, In i idxs /\ q = u32 (GME.pos o + i))) as H.
  { induction idxs as [| i idxs IH]; intros processed Hm; simpl in *; [now left |].
    apply IH in Hm as [Hm | (Hd & i' & Hi' & Hq)].
    - destruct (u32 (GME.pos o + i) <? length (nth (GME.doc_id o) processed []));
        [| now left].
      apply marked_set in Hm as [Hm | [Hd Hq]]; [now left | right].
      split; [exact Hd |]. exists i. split; [now left | exact Hq].
    - right. split; [exact Hd |]. exists i'. split; [now right | exact Hq]. }
  intros processed Hm. apply H in Hm as [Hm | (Hd & i & Hi & Hq)]; [now left | right].
  split; [exact Hd |]. exists i. apply in_seq in Hi. split; [lia | exact Hq].
Qed.

Lemma mark_marked (cand : GME.Phrase) (d q : nat) :
  forall processed,
    marked (GME.mark cand processed) d q = true ->
    marked processed d q = true \/
    exists o i,
      In o (GME.occs cand) /\ GME.doc_id o = d /\
      i < length (GME.tokens cand) /\ q = u32 (GME.pos o + i).
Proof.
  unfold GME.mark. induction (GME.occs cand) as [| o os IH]; intros processed Hm;
    simpl in *; [now left |].
  apply IH in Hm as [Hm | (o' & i & Ho' & Hd & Hi & Hq)].
  - apply mark_occ_marked in Hm as [Hm | (Hd & i & Hi & Hq)]; [now left | right].
    exists o, i. repeat split; try assumption; [now left | now symmetry].
  - right. exists o', i. repeat split; try assumption. now right.
Qed.

Lemma all_processed_marked (processed : list (list bool)) (os : list GME.Occurrence) :
  GME.all_processed processed os = Done true ->
  Forall (fun o => marked processed (GME.doc_id o) (GME.pos o) = true) os.
Proof.
  induction os as [| o os IH]; simpl; [constructor |].
  destruct (nth_error processed (GME.doc_id o)) as [row |] eqn:Erow; [| discriminate].
  destruct (nth_error row (GME.pos o)) as [[|] |] eqn:Eflag; try discriminate.
  intros H. constructor; [| now apply IH].
  unfold marked. rewrite (nth_error_nth _ _ _ Erow). now apply nth_error_nth.
Qed.

Lemma covered_incl (res res' : list GME.Phrase) (d q : nat) :
  incl res res' -> covered res d q -> covered res' d q.
Proof.
  intros Hincl (p & o & Hp & Ho & Hd & Hq). exists p, o.
  repeat split; try assumption; try lia. now apply Hincl.
Qed.

Lemma all_occurrences_inside (docs : corpus) (toks : list token) (o : GME.Occurrence) :
  In o (all_occurrences docs toks) ->
  GME.pos o + length toks <= length (doc_at docs (GME.doc_id o)).
Proof.
  unfold all_occurrences, positions_of. intros Hin.
  apply in_flat_map in Hin as (d & _ & Hin). apply in_map_iff in Hin as (p & <- & Hp).
  apply filter_In in Hp as [Hp Hm]. apply in_seq in Hp. simpl.
  apply matches_at_bound; [lia | exact Hm].
Qed.

Section GreedyCoverage.

Variable seeds_order :
  list (list token * list GME.Occurrence) -> list (list token * list GME.Occurrence).
Variable next_order :
  list (token * list GME.Occurrence) -> list (token * list GME.Occurrence).
Variable docs : corpus.
Variable min_docs ngrams : Z.

Hypothesis seeds_order_perm : forall m, Permutation (seeds_order m) m.
Hypothesis next_order_perm : forall m, Permutation (next_order m) m.
Hypothesis docs_fit : corpus_fits docs.
Hypothesis ngrams_int : is_int ngrams.

Lemma mark_covered (cand : GME.Phrase) (processed : list (list bool))
    (final : list GME.Phrase) :
  exact docs cand ->
  (forall d q, marked processed d q = true -> covered final d q) ->
  forall d q,
    marked (GME.mark cand processed) d q = true -> covered (final ++ [cand]) d q.
Proof.
  intros [Hoccs _] Hinv d q Hm.
  apply mark_marked in Hm as [Hm | (o & i & Ho & Hd & Hi & Hq)].
  - apply (covered_incl final); [apply incl_appl, incl_refl | now apply Hinv].
  - exists cand, o. split; [apply in_or_app; right; now left |].
    split; [exact Ho | split; [exact Hd |]].
    pose proof Ho as Hin. rewrite Hoccs in Hin.
    apply all_occurrences_inside in Hin.
    pose proof (doc_at_fits docs (GME.doc_id o) docs_fit) as Hfit.
    rewrite u32_small in Hq by lia. lia.
Qed.

Lemma process_accounts (fuel : nat) (cands : list GME.Phrase) :
  forall c_idx processed final res,
    incl cands (GME.candidates seeds_order docs min_docs ngrams) ->
    (forall d q, marked processed d q = true -> covered final d q) ->
    GME.process next_order never docs min_docs fuel cands c_idx processed final
    = Done res ->
    Forall
      (fun c =>
         (exists p ext, In p res /\ GME.tokens p = GME.tokens c ++ ext) \/
         Forall (fun o => covered res (GME.doc_id o) (GME.pos o)) (GME.occs c))
      cands.
Proof.
  induction cands as [| cand rest IH]; intros c_idx processed final res Hincl Hinv Hrun;
    [constructor |].
  simpl in Hrun. unfold never at 1 in Hrun.
  assert (incl rest (GME.candidates seeds_order docs min_docs ngrams)) as Hrest
    by (intros x Hx; apply Hincl; now right).
  destruct (GME.all_processed processed (GME.occs cand)) as [[|] | |] eqn:Eskip;
    simpl in Hrun; try discriminate.
  - constructor; [| now apply (IH _ _ _ _ Hrest Hinv Hrun)].
    right. apply all_processed_marked in Eskip.
    apply process_extends in Hrun as [new ->].
    eapply Forall_impl; [| exact Eskip].
    intros o Ho. apply (covered_incl final); [apply incl_appl, incl_refl |].
    now apply Hinv.
  - destruct (GME.expand next_order docs min_docs fuel cand) as [cand' | |] eqn:E;
      simpl in Hrun; try discriminate.
    pose proof (candidates_exact seeds_order docs min_docs ngrams seeds_order_perm
                  docs_fit ngrams_int) as Hall.
    rewrite Forall_forall in Hall.
    destruct (Hall cand (Hincl cand (or_introl eq_refl))) as (Hex & _).
    destruct (expand_exact next_order docs min_docs next_order_perm docs_fit
                fuel cand cand' Hex E) as (Hex' & _ & ext & Hext).
    constructor.
    + left. exists cand', ext. split; [| exact Hext].
      apply process_extends in Hrun as [new ->].
      apply in_or_app. left. apply in_or_app. right. now left.
    + apply (IH _ _ _ _ Hrest) in Hrun; [exact Hrun |].
      now apply mark_covered.
Qed.

End GreedyCoverage.

(** X22.  In an uninterrupted run of the greedy miner every candidate is
    accounted for: either a returned phrase begins with it, or each of its
    occurrences starts at a position that lies inside an occurrence of a
    returned phrase. *)
Theorem gme_candidates_are_accounted_for
    (seeds_order :
       list (list token * list GME.Occurrence) -> list (list token * list GME.Occurrence))
    (next_order : list (token * list GME.Occurrence) -> list (token * list GME.Occurrence))
    (docs : corpus) (min_docs ngrams : Z) (fuel : nat) (res : list GME.Phrase) :
  (forall m, Permutation (seeds_order m) m) ->
  (forall m, Permutation (next_order m) m) ->
  corpus_fits docs ->
  is_int ngrams ->
  GME.final_phrases seeds_order next_order never docs min_docs ngrams fuel = Done res ->
  Forall
    (fun c =>
       (exists p ext, In p res /\ GME.tokens p = GME.tokens c ++ ext) \/
       Forall (fun o => covered res (GME.doc_id o) (GME.pos o)) (GME.occs c))
    (GME.candidates seeds_order docs min_docs ngrams).
Proof.
  intros Hs Hn Hfit Hint Hres. unfold GME.final_phrases in Hres.
  apply (process_accounts seeds_order next_order docs min_docs ngrams Hs Hn Hfit Hint)
    in Hres.
  - rewrite Forall_forall in *. intros c Hc. apply Hres.
    now apply (Permutation_in _ (std_sort_perm GME.by_support _)).
  - intros c Hc.
    now apply (Permutation_in _ (Permutation_sym (std_sort_perm GME.by_support _))).
  - intros d q Hm. exfalso. revert Hm. unfold marked, GME.processed_init.
    destruct (Nat.lt_ge_cases d (length docs)) as [Hd | Hd].
    + rewrite (nth_indep _ [] (repeat false (length (@nil token))))
        by (rewrite length_map; exact Hd).
      rewrite (map_nth (fun doc => repeat false (length doc))).
      destruct (Nat.lt_ge_cases q (length (nth d docs []))) as [Hq | Hq].
      * rewrite nth_repeat_lt by exact Hq. discriminate.
      * rewrite nth_overflow by (rewrite repeat_length; exact Hq). discriminate.
    + rewrite (nth_overflow _ _ (n := d)) by (rewrite length_map; exact Hd).
      destruct q; discriminate.
Qed.

Lemma gme_candidates_are_accounted_for_witness :
  corpus_fits tie_docs /\
  is_int 1 /\
  exists res,
    GME.final_phrases insertion_order insertion_order never tie_docs 1 1 10 = Done res /\
    Forall
      (fun c =>
         (exists p ext, In p res /\ GME.tokens p = GME.tokens c ++ ext) \/
         Forall (fun o => covered res (GME.doc_id o) (GME.pos o)) (GME.occs c))
      (GME.candidates insertion_order tie_docs 1 1).
Proof.
  assert (is_int 1) as Hint by (apply is_int_small; lia).
  split; [exact tie_docs_fit | split; [exact Hint |]].
  eexists. split; [vm_compute; reflexivity |].
  apply (gme_candidates_are_accounted_for insertion_order insertion_order tie_docs 1 1 10
           _ insertion_order_perm insertion_order_perm tie_docs_fit Hint).
  vm_compute; reflexivity.
Defined.

(** X23.  The candidates of the greedy miner are the frequent n-grams: for
    [ngrams] not negative, a token sequence is a candidate exactly when it
    has [ngrams] tokens, occurs in the corpus, and occurs in at least
    [min_docs] documents. *)
Theorem gme_candidates_are_the_frequent_ngrams
    (seeds_order :
       list (list token * list GME.Occurrence) -> list (list token * list GME.Occurrence))
    (docs : corpus) (min_docs ngrams : Z) (k : list token) :
  (forall m, Permutation (seeds_order m) m) ->
  corpus_fits docs ->
  is_int ngrams ->
  (0 <= ngrams)%Z ->
  (exists c, In c (GME.candidates seeds_order docs min_docs ngrams) /\ GME.tokens c = k) <->
  Z.of_nat (length k) = ngrams /\
  1 <= doc_support docs k /\
  (to_size_t min_docs <= Z.of_nat (doc_support docs k))%Z.
Proof.
  intros Hperm Hfit Hint Hpos. rewrite candidates_eq. split.
  - intros (c & Hc & <-). apply in_map_iff in Hc as ([k vs] & <- & He).
    apply filter_In in He as [He Hth]. simpl in *.
    apply (Permutation_in _ (Hperm _)) in He.
    destruct (gather_seeds_grouped docs ngrams) as (_ & Hent & _).
    destruct (Hent k vs He) as [Hne _].
    destruct (seed_entry_exact docs ngrams Hfit Hint k vs He) as (Hvs & Hk & _).
    pose proof (distinct_docs_positive vs Hne) as H1.
    rewrite Hvs, all_occurrences_support in *. apply Z.leb_le in Hth.
    split; [lia | split; [exact H1 | exact Hth]].
  - intros (Hk & H1 & Hth).
    assert (exists o, In o (all_occurrences docs k)) as [o Ho].
    { rewrite <- all_occurrences_support in H1.
      destruct (all_occurrences docs k) as [| o os]; [| exists o; now left].
      unfold GME.distinct_docs in H1. simpl in H1. lia. }
    unfold all_occurrences in Ho. apply in_flat_map in Ho as (d & Hd & Ho).
    pose proof Hd as Hd'. apply in_seq in Hd'.
    rewrite <- (seed_bucket docs ngrams Hfit Hint k d Hpos) in Ho by lia.
    apply filter_In in Ho as [Ho Hkey]. simpl in Hkey. apply tokens_eqb_eq in Hkey.
    destruct (gather_seeds_grouped docs ngrams) as (_ & _ & Hkeys).
    assert (In o (flat_map (seed_starts docs ngrams) (seq 0 (length docs)))) as Hin
      by (apply in_flat_map; now exists d).
    specialize (Hkeys o Hin eq_refl). rewrite Hkey in Hkeys.
    apply in_map_iff in Hkeys as ([k' vs] & Hk' & He). simpl in Hk'. subst k'.
    destruct (seed_entry_exact docs ngrams Hfit Hint k vs He) as (Hvs & _).
    exists (GME.mkPhrase k vs (GME.distinct_docs vs)). split; [| reflexivity].
    apply (in_map (fun e => GME.mkPhrase (fst e) (snd e) (GME.distinct_docs (snd e)))
             _ (k, vs)).
    apply filter_In. split.
    + now apply (Permutation_in _ (Permutation_sym (Hperm _))).
    + simpl. rewrite Hvs, all_occurrences_support. now apply Z.leb_le.
Qed.

Lemma gme_candidates_are_the_frequent_ngrams_witness :
  corpus_fits tie_docs /\
  is_int 1 /\
  (0 <= 1)%Z /\
  ((exists c, In c (GME.candidates insertion_order tie_docs 2 1) /\ GME.tokens c = [0]) <->
   Z.of_nat (length [0]) = 1%Z /\
   1 <= doc_support tie_docs [0] /\
   (to_size_t 2 <= Z.of_nat (doc_support tie_docs [0%nat]))%Z).
Proof.
  assert (is_int 1) as Hint by (apply is_int_small; lia).
  split; [exact tie_docs_fit | split; [exact Hint | split; [lia |]]].
  apply (gme_candidates_are_the_frequent_ngrams insertion_order tie_docs 2 1 [0%nat]
           insertion_order_perm tie_docs_fit Hint). lia.
Defined.

(** ** The PrefixSpan engine: modes, listed documents, distinct phrases *)

Lemma analyse_no_frequent (min_docs : nat) (items : list (token * list nat))
    (current_support : nat) :
  fst (CPS.analyse min_docs items current_support) = false ->
  forall e, In e items -> u32 (length (snd e)) < min_docs.
Proof.
  unfold CPS.analyse.
  assert (forall (l : list (token * list nat)) (flags : bool * bool),
            fst (fold_left
                   (fun flags entry =>
                      let support := u32 (length (snd entry)) in
                      if min_docs <=? support
                      then (true, if support =? current_support then true else snd flags)
                      else flags) l flags) = false ->
            fst flags = false /\ forall e, In e l -> u32 (length (snd e)) < min_docs) as H.
  { induction l as [| x l IH]; intros flags Hf; simpl in *.
    - split; [exact Hf | intros e []].
    - apply IH in Hf as [Hf Hl].
      destruct (Nat.leb_spec min_docs (u32 (length (snd x)))) as [Hth | Hth];
        [discriminate |].
      split; [exact Hf |]. intros e [<- | He]; [exact Hth | now apply Hl]. }
  intros Hf. now apply (H items (false, false)).
Qed.

Lemma db_of_docs (docs : corpus) (pat : list token) (d : nat) :
  corpus_fits docs ->
  In d (map CPS.doc_id (db_of docs pat)) <-> continues_in docs pat d.
Proof.
  intros Hfit. unfold db_of, continues_in. rewrite map_map. simpl. split.
  - intros Hin. apply in_map_iff in Hin as (p0 & <- & Hp0).
    apply filter_In in Hp0 as [Hin Hreach].
    apply (initial_db_In docs p0 Hfit) in Hin as (Hd & _ & _).
    unfold reached in Hreach. cbv zeta in Hreach.
    apply andb_true_iff in Hreach as [Hm Hroom]. apply Nat.ltb_lt in Hroom.
    split; [exact Hd |]. now exists (CPS.origin p0).
  - intros (Hd & j & Hm & Hroom). apply in_map_iff.
    exists (CPS.mkProj d j j). split; [reflexivity |].
    apply filter_In. split.
    + apply (initial_db_In docs _ Hfit). simpl. repeat split; lia.
    + unfold reached. cbv zeta. simpl. rewrite Hm. simpl. now apply Nat.ltb_lt.
Qed.

Lemma push_if_differs_keys (t : token) (d : nat) (m : list (token * list nat)) :
  NoDup (map fst m) -> NoDup (map fst (CPS.push_if_differs t d m)).
Proof.
  intros Hnd. unfold CPS.push_if_differs.
  destruct (update_at_keys Nat.eqb Nat.eqb_eq t
              (fun v => if CPS.back_differs v d then v ++ [d] else v) m)
    as [[_ ->] | [Hnin ->]]; [exact Hnd |].
  apply NoDup_app; [exact Hnd | repeat constructor; intros [] |].
  intros k Hin [<- | []]. now apply Hnin.
Qed.

Lemma occ_delivery_keys (docs : corpus) (db : list CPS.Projection) :
  NoDup (map fst (CPS.occ_delivery docs db)).
Proof.
  unfold CPS.occ_delivery.
  induction db as [| x l IH] using rev_ind; [constructor |].
  rewrite fold_left_app. simpl.
  destruct (CPS.pos x <? length (doc_at docs (CPS.doc_id x))); [| exact IH].
  now apply push_if_differs_keys.
Qed.

Lemma maximal_sound
    (items_order : list (token * list nat) -> list (token * list nat))
    (docs_order : list nat -> list nat) (stop_requested : nat -> bool)
    (docs : corpus) (min_docs min_length fuel : nat) (st : CPS.State) :
  (forall m, Permutation (items_order m) m) ->
  corpus_fits docs ->
  CPS.run items_order docs_order stop_requested docs min_docs min_length fuel
    CPS.MODE_MAXIMAL = Done st ->
  Forall
    (fun p =>
       forall w,
         1 <= doc_support docs (CPS.tokens p ++ [w]) ->
         doc_support docs (CPS.tokens p ++ [w]) < min_docs)
    (CPS.results st).
Proof.
  intros Hperm Hfit Hrun. unfold CPS.run in Hrun.
  apply (mine_recursive_results items_order docs_order stop_requested docs
           min_docs min_length CPS.MODE_MAXIMAL
           (fun prefix _ db => db = db_of docs prefix))
    with (5 := Hrun).
  - intros db prefix cs -> Hout. simpl. intros w Hw.
    unfold CPS.should_output in Hout.
    destruct (min_length <=? length prefix); [| discriminate].
    apply negb_true_iff in Hout.
    destruct (bucket_present docs Hfit prefix w Hw) as [v Hv].
    destruct (bucket_length docs Hfit prefix w v Hv) as [_ Hlen].
    apply (Permutation_in _ (Permutation_sym (Hperm _))) in Hv.
    pose proof (analyse_no_frequent _ _ _ Hout (w, v) Hv) as Hlow. simpl in Hlow.
    rewrite u32_small in Hlow; [lia |].
    pose proof (doc_support_le docs (prefix ++ [w])). destruct Hfit as [Hn _]. lia.
  - intros db prefix cs entry -> _ _ _. now apply next_db_db_of.
  - symmetry. now apply db_of_nil.
  - constructor.
Qed.

(** X24.  The documents listed with an emitted phrase are, each once, the
    documents in which the phrase occurs and is followed by one more
    token; a document that the phrase only ends is not listed. *)
Theorem cps_example_documents
    (items_order : list (token * list nat) -> list (token * list nat))
    (docs_order : list nat -> list nat) (stop_requested : nat -> bool)
    (docs : corpus) (min_docs min_length fuel : nat) (mode : CPS.MiningMode)
    (st : CPS.State) :
  (forall l, Permutation (docs_order l) l) ->
  corpus_fits docs ->
  CPS.run items_order docs_order stop_requested docs min_docs min_length fuel mode
  = Done st ->
  Forall
    (fun p =>
       NoDup (CPS.occs p) /\
       forall d, In (CPS.mkOcc d) (CPS.occs p) <-> continues_in docs (CPS.tokens p) d)
    (CPS.results st).
Proof.
  intros Hperm Hfit Hrun. unfold CPS.run in Hrun.
  apply (mine_recursive_results items_order docs_order stop_requested docs
           min_docs min_length mode
           (fun prefix _ db => db = db_of docs prefix))
    with (5 := Hrun).
  - intros db prefix cs -> _. simpl. split.
    + apply Finite.Injective_map_NoDup; [intros a b H; now injection H |].
      apply (Permutation_NoDup (Permutation_sym (Hperm _))). apply unique_docs_NoDup.
    + intros d. rewrite <- (db_of_docs docs prefix d Hfit), <- unique_docs_In.
      split.
      * intros Hin. apply in_map_iff in Hin as (d' & Hd' & Hin). injection Hd' as ->.
        now apply (Permutation_in _ (Hperm _)).
      * intros Hin. apply in_map. now apply (Permutation_in _ (Permutation_sym (Hperm _))).
  - intros db prefix cs entry -> _ _ _. now apply next_db_db_of.
  - symmetry. now apply db_of_nil.
  - constructor.
Qed.

Lemma cps_example_documents_witness :
  corpus_fits (docs fox_miner) /\
  exists st,
    CPS.run insertion_order insertion_order never (docs fox_miner) 3 3 10 CPS.MODE_CLOSED
    = Done st /\
    Forall
      (fun p =>
         NoDup (CPS.occs p) /\
         forall d,
           In (CPS.mkOcc d) (CPS.occs p) <-> continues_in (docs fox_miner) (CPS.tokens p) d)
      (CPS.results st).
Proof.
  split; [exact fox_docs_fit |].
  eexists. split; [vm_compute; reflexivity |].
  apply (cps_example_documents insertion_order insertion_order never (docs fox_miner)
           3 3 10 CPS.MODE_CLOSED _ insertion_order_perm fox_docs_fit).
  vm_compute; reflexivity.
Defined.

Section PrefixSpanDistinct.

Variable items_order : list (token * list nat) -> list (token * list nat).
Variable docs_order : list nat -> list nat.
Variable stop_requested : nat -> bool.
Variable docs : corpus.
Variable min_docs min_length : nat.
Variable mode : CPS.MiningMode.

Hypothesis items_order_perm : forall m, Permutation (items_order m) m.

Lemma mine_recursive_distinct (fuel : nat) :
  forall db prefix current_support st st',
    CPS.mine_recursive items_order docs_order stop_requested docs min_docs min_length
      fuel db prefix current_support mode st = Done st' ->
    exists new,
      CPS.results st' = CPS.results st ++ new /\
      NoDup (map CPS.tokens new) /\
      Forall (fun p => exists ext, CPS.tokens p = prefix ++ ext) new.
Proof.
  induction fuel as [| fuel IH]; intros db prefix cs st st'; simpl; [discriminate |].
  destruct (stop_requested (CPS.polls st)).
  { intros H. injection H as <-. exists []. simpl. rewrite app_nil_r.
    split; [reflexivity | split; constructor]. }
  set (items := items_order (CPS.occ_delivery docs db)).
  assert (NoDup (map fst items)) as Hkeys.
  { apply (Permutation_NoDup
             (Permutation_map fst (Permutation_sym (items_order_perm _)))).
    apply occ_delivery_keys. }
  assert (forall (entries : list (token * list nat)) ks s0 new0,
            NoDup (map fst entries) ->
            (forall e, In e entries -> ~ In (fst e) ks) ->
            CPS.results s0 = CPS.results st ++ new0 ->
            NoDup (map CPS.tokens new0) ->
            Forall (fun p => CPS.tokens p = prefix \/
                             exists tok ext, In tok ks /\
                                             CPS.tokens p = prefix ++ tok :: ext) new0 ->
            fold_left
              (fun acc entry =>
                 st1 <- acc ;;
                 (if min_docs <=? u32 (length (snd entry))
                  then
                    match CPS.next_db docs db (fst entry) with
                    | [] => Done st1
                    | p :: ndb =>
                        CPS.mine_recursive items_order docs_order stop_requested docs
                          min_docs min_length fuel (p :: ndb) (prefix ++ [fst entry])
                          (u32 (length (snd entry))) mode st1
                    end
                  else Done st1))
              entries (Done s0) = Done st' ->
            exists new,
              CPS.results st' = CPS.results st ++ new /\
              NoDup (map CPS.tokens new) /\
              Forall (fun p => exists ext, CPS.tokens p = prefix ++ ext) new) as Hfold.
  { induction entries as [| e entries IHe]; intros ks s0 new0 Hnd Hfresh Hs0 Hnew0 Hall;
      simpl.
    - intros H. injection H as <-. exists new0.
      split; [exact Hs0 | split; [exact Hnew0 |]].
      eapply Forall_impl; [| exact Hall].
      intros p [Hp | (tok & ext & _ & Hp)];
        [exists []; now rewrite app_nil_r | now exists (tok :: ext)].
    - inversion Hnd as [| ? ? He Hnd']; subst.
      assert (forall e', In e' entries -> ~ In (fst e') (fst e :: ks)) as Hfresh'.
      { intros e' He' [Heq | Hin].
        - apply He. rewrite Heq. now apply in_map.
        - apply (Hfresh e'); [now right | exact Hin]. }
      assert (Forall (fun p => CPS.tokens p = prefix \/
                               exists tok ext, In tok (fst e :: ks) /\
                                               CPS.tokens p = prefix ++ tok :: ext) new0)
        as Hall'.
      { eapply Forall_impl; [| exact Hall].
        intros p [Hp | (tok & ext & Hin & Hp)]; [now left | right].
        exists tok, ext. split; [now right | exact Hp]. }
      destruct (min_docs <=? u32 (length (snd e)));
        [| now apply (IHe (fst e :: ks) s0 new0)].
      destruct (CPS.next_db docs db (fst e)) as [| q ndb];
        [now apply (IHe (fst e :: ks) s0 new0) |].
      intros H.
      destruct (expansion_Done _ _ _ _ _ _ _ _ _ _ _ _ _ H) as [s1 Hs1].
      rewrite Hs1 in H.
      destruct (IH _ _ _ _ _ Hs1) as (new1 & Hres1 & Hnd1 & Hall1).
      apply (IHe (fst e :: ks) s1 (new0 ++ new1)); try assumption.
      + rewrite Hres1, Hs0. now rewrite app_assoc.
      + rewrite map_app. apply NoDup_app; [exact Hnew0 | exact Hnd1 |].
        intros toks Hin0 Hin1.
        apply in_map_iff in Hin0 as (p0 & Hp0 & Hin0).
        apply in_map_iff in Hin1 as (p1 & Hp1 & Hin1).
        rewrite Forall_forall in Hall, Hall1.
        destruct (Hall1 p1 Hin1) as [ext1 Hext1].
        rewrite <- app_assoc in Hext1. simpl in Hext1.
        destruct (Hall p0 Hin0) as [Hpre | (tok & ext & Hin & Hext)].
        * assert (length toks = length prefix) as L0 by congruence.
          assert (length toks = length (prefix ++ fst e :: ext1)) as L1 by congruence.
          rewrite length_app in L1. simpl in L1. lia.
        * assert (prefix ++ tok :: ext = prefix ++ fst e :: ext1) as Heq by congruence.
          apply app_inv_head in Heq. injection Heq as -> _.
          apply (Hfresh e); [now left | exact Hin].
      + apply Forall_app. split; [exact Hall' |].
        eapply Forall_impl; [| exact Hall1].
        intros p [ext Hext]. right. exists (fst e), ext.
        split; [now left |]. rewrite Hext, <- app_assoc. reflexivity. }
  match goal with
  | |- fold_left _ _ (Done ?s) = _ -> _ => set (s0 := s)
  end.
  intros H.
  destruct (CPS.should_output min_length prefix mode (CPS.analyse min_docs items cs))
    eqn:Hout.
  - apply (Hfold items [] s0 [CPS.emitted docs_order db prefix cs]); try assumption.
    + intros e _ [].
    + reflexivity.
    + simpl. constructor; [intros [] | constructor].
    + constructor; [now left | constructor].
  - apply (Hfold items [] s0 []); try assumption.
    + intros e _ [].
    + unfold s0. cbn [CPS.results]. now rewrite app_nil_r.
    + constructor.
    + constructor.
Qed.

End PrefixSpanDistinct.

(** X25.  The PrefixSpan engine emits no phrase twice, in any mode: the
    token sequences of its results are pairwise different. *)
Theorem cps_phrases_distinct
    (items_order : list (token * list nat) -> list (token * list nat))
    (docs_order : list nat -> list nat) (stop_requested : nat -> bool)
    (docs : corpus) (min_docs min_length fuel : nat) (mode : CPS.MiningMode)
    (st : CPS.State) :
  (forall m, Permutation (items_order m) m) ->
  CPS.run items_order docs_order stop_requested docs min_docs min_length fuel mode
  = Done st ->
  NoDup (map CPS.tokens (CPS.results st)).
Proof.
  intros Hperm Hrun. unfold CPS.run in Hrun.
  apply (mine_recursive_distinct items_order docs_order stop_requested docs min_docs
           min_length mode Hperm) in Hrun as (new & Hres & Hnd & _).
  simpl in Hres. now rewrite Hres.
Qed.

Lemma cps_phrases_distinct_witness :
  exists st,
    CPS.run insertion_order insertion_order never abc 1 2 10 CPS.MODE_ALL = Done st /\
    NoDup (map CPS.tokens (CPS.results st)).
Proof.
  eexists. split; [vm_compute; reflexivity |].
  apply (cps_phrases_distinct insertion_order insertion_order never abc 1 2 10
           CPS.MODE_ALL _ insertion_order_perm).
  vm_compute; reflexivity.
Defined.

(** X26.  Every phrase with at least one token that [mine] of the
    PrefixSpan miner finds has as support the number of documents in which
    its tokens occur as a contiguous run; this support is at least
    [min_docs]; the phrase has at least [ngrams] tokens; and it is closed
    to the right: whatever token is added after it, the longer phrase
    occurs in strictly fewer documents.  A stop request does not change
    this. *)
Theorem cps_mine_finds_closed_frequent_phrases
    (items_order : list (token * list nat) -> list (token * list nat))
    (docs_order : list nat -> list nat) (stop_requested : nat -> bool)
    (m : Miner) (min_docs ngrams : Z) (fuel : nat) (res : list CPS.Phrase) :
  (forall l, Permutation (items_order l) l) ->
  corpus_fits (docs m) ->
  is_int min_docs ->
  is_int ngrams ->
  CPS.found_phrases items_order docs_order stop_requested m min_docs ngrams fuel
  = Done res ->
  Forall
    (fun p =>
       CPS.tokens p <> [] ->
       CPS.support p = doc_support (docs m) (CPS.tokens p) /\
       (min_docs <= Z.of_nat (CPS.support p))%Z /\
       (ngrams <= Z.of_nat (length (CPS.tokens p)))%Z /\
       forall w, doc_support (docs m) (CPS.tokens p ++ [w]) < CPS.support p)
    res.
Proof.
  intros Hperm Hfit Hmin Hlen. unfold CPS.found_phrases.
  destruct (CPS.run _ _ _ _ _ _ _ _) as [st | |] eqn:Hrun; simpl; try discriminate.
  intros H. injection H as <-.
  eapply Forall_impl;
    [| apply (cps_emitted_phrases items_order docs_order stop_requested (docs m)
                _ _ fuel CPS.MODE_CLOSED st Hperm Hfit Hrun)].
  intros p Hp Hne. destruct (Hp Hne) as (Hs & Hd & Hl & _ & Hclosed).
  pose proof (to_uint32_ge min_docs Hmin). pose proof (to_uint32_ge ngrams Hlen).
  split; [exact Hs | split; [lia | split; [lia |]]].
  intros w. specialize (Hclosed eq_refl w).
  pose proof (doc_support_app (docs m) (CPS.tokens p) [w]). lia.
Qed.

Lemma cps_mine_finds_closed_frequent_phrases_witness :
  corpus_fits (docs fox_miner) /\
  is_int 3 /\
  exists res,
    CPS.found_phrases insertion_order insertion_order never fox_miner 3 3 10 = Done res /\
    Forall
      (fun p =>
         CPS.tokens p <> [] ->
         CPS.support p = doc_support (docs fox_miner) (CPS.tokens p) /\
         (3 <= Z.of_nat (CPS.support p))%Z /\
         (3 <= Z.of_nat (length (CPS.tokens p)))%Z /\
         forall w, doc_support (docs fox_miner) (CPS.tokens p ++ [w]) < CPS.support p)
      res.
Proof.
  assert (is_int 3) as Hint by (apply is_int_small; lia).
  split; [exact fox_docs_fit | split; [exact Hint |]].
  eexists. split; [vm_compute; reflexivity |].
  apply (cps_mine_finds_closed_frequent_phrases insertion_order insertion_order never
           fox_miner 3 3 10 _ insertion_order_perm fox_docs_fit Hint Hint).
  vm_compute; reflexivity.
Defined.

Lemma analyse_same_support_inv (min_docs : nat) (items : list (token * list nat))
    (current_support : nat) :
  snd (CPS.analyse min_docs items current_support) = true ->
  exists e,
    In e items /\ min_docs <= u32 (length (snd e)) /\
    u32 (length (snd e)) = current_support.
Proof.
  unfold CPS.analyse.
  assert (forall (l : list (token * list nat)) (flags : bool * bool),
            snd (fold_left
                   (fun flags entry =>
                      let support := u32 (length (snd entry)) in
                      if min_docs <=? support
                      then (true, if support =? current_support then true else snd flags)
                      else flags) l flags) = true ->
            snd flags = true \/
            exists e, In e l /\ min_docs <= u32 (length (snd e)) /\
                      u32 (length (snd e)) = current_support) as H.
  { induction l as [| x l IH]; intros flags Hf; simpl in *; [now left |].
    apply IH in Hf as [Hf | (e & He & Hth & Heq)].
    - destruct (Nat.leb_spec min_docs (u32 (length (snd x)))) as [Hth | Hth];
        [| now left].
      simpl in Hf.
      destruct (Nat.eqb_spec (u32 (length (snd x))) current_support) as [Heq | Hne];
        [| now left].
      right. exists x. split; [now left | split; assumption].
    - right. exists e. split; [now right | split; assumption]. }
  intros Hf. apply H in Hf as [Hf | Hf]; [discriminate | exact Hf].
Qed.

Lemma analyse_none_frequent (min_docs : nat) (items : list (token * list nat))
    (current_support : nat) :
  (forall e, In e items -> u32 (length (snd e)) < min_docs) ->
  CPS.analyse min_docs items current_support = (false, false).
Proof.
  unfold CPS.analyse. generalize (false, false).
  induction items as [| x l IH]; intros flags Hlow; simpl; [reflexivity |].
  destruct (Nat.leb_spec min_docs (u32 (length (snd x)))) as [Hth | Hth].
  - specialize (Hlow x (or_introl eq_refl)). lia.
  - apply IH. intros e He. apply Hlow. now right.
Qed.

Section Reach.

Variable items_order : list (token * list nat) -> list (token * list nat).
Variable docs_order : list nat -> list nat.
Variable docs : corpus.
Variable min_docs min_length : nat.
Variable mode : CPS.MiningMode.

Hypothesis items_order_perm : forall m, Permutation (items_order m) m.
Hypothesis docs_fit : corpus_fits docs.

(** With the stop flag down, the call made for [prefix] reaches the call
    for every frequent pattern that extends [prefix] and has an occurrence
    that does not end its document, and that call emits the pattern when
    the output decision of the mode says so. *)
Lemma node_reaches (ext : list token) :
  forall fuel prefix current_support st st',
    CPS.mine_recursive items_order docs_order never docs min_docs min_length
      fuel (db_of docs prefix) prefix current_support mode st = Done st' ->
    (ext <> [] ->
     min_docs <= doc_support docs (prefix ++ ext) /\
     db_of docs (prefix ++ ext) <> []) ->
    CPS.should_output min_length (prefix ++ ext) mode
      (CPS.analyse min_docs
         (items_order (CPS.occ_delivery docs (db_of docs (prefix ++ ext))))
         (match ext with
          | [] => current_support
          | _ :: _ => doc_support docs (prefix ++ ext)
          end)) = true ->
    exists p, In p (CPS.results st') /\ CPS.tokens p = prefix ++ ext.
Proof.
  induction ext as [| w ext IH]; intros fuel prefix cs st st' Hrun Hext Hout;
    (destruct fuel as [| fuel]; [discriminate |]); simpl in Hrun;
    unfold never at 1 in Hrun.
  - rewrite app_nil_r in *. rewrite Hout in Hrun.
    exists (CPS.emitted docs_order (db_of docs prefix) prefix cs). split; [| reflexivity].
    apply (expansion_keeps _ _ _ _ _ _ _ _ _ _ _ _ _ _ Hrun). simpl.
    apply in_or_app. right. now left.
  - replace (prefix ++ w :: ext) with ((prefix ++ [w]) ++ ext) in *
      by now rewrite <- app_assoc.
    destruct Hext as [Hfreq Hdb]; [discriminate |].
    pose proof (doc_support_app docs (prefix ++ [w]) ext) as Hmono.
    pose proof (db_of_app docs _ _ docs_fit Hdb) as Hdb1.
    assert (exists v, In (w, v) (CPS.occ_delivery docs (db_of docs prefix))) as [v Hv].
    { rewrite <- (next_db_db_of docs docs_fit) in Hdb1.
      destruct (CPS.next_db docs (db_of docs prefix) w) as [| q ndb] eqn:E; [congruence |].
      assert (In q (CPS.next_db docs (db_of docs prefix) w)) as Hq by (rewrite E; now left).
      apply (next_db_In docs _ w q docs_fit) in Hq as (p0 & Hp0 & Htok & Hnext & _).
      destruct (occ_delivery_delivered docs (db_of docs prefix) (by_doc_db_of docs prefix))
        as (_ & _ & Hkeys).
      assert (reads docs w p0 = true) as Hr by (apply reads_token; split; [lia | exact Htok]).
      specialize (Hkeys p0 w Hp0 Hr).
      apply in_map_iff in Hkeys as ([t v] & Ht & Hin). simpl in Ht. subst t. now exists v. }
    destruct (bucket_length docs docs_fit prefix w v Hv) as [_ Hbucket].
    assert (u32 (length v) = length v) as Hu.
    { apply u32_small.
      pose proof (doc_support_le docs (prefix ++ [w])). destruct docs_fit as [Hn _]. lia. }
    apply (Permutation_in _ (Permutation_sym (items_order_perm _))) in Hv.
    apply in_split in Hv as (l1 & l2 & Hitems). rewrite Hitems in Hrun.
    rewrite fold_left_app in Hrun. simpl in Hrun.
    destruct (expansion_Done _ _ _ _ _ _ _ _ _ _ _ _ _ Hrun) as [s2 Hs2].
    rewrite Hs2 in Hrun.
    match type of Hs2 with
    | bind ?c _ = _ => destruct c as [s1 | |] eqn:Hs1; simpl in Hs2; try discriminate
    end.
    rewrite Hu in Hs2.
    destruct (Nat.leb_spec min_docs (length v)) as [_ | H]; [| lia].
    destruct (CPS.next_db docs (db_of docs prefix) w) as [| q ndb] eqn:E.
    { rewrite (next_db_db_of docs docs_fit) in E. congruence. }
    rewrite <- E, (next_db_db_of docs docs_fit) in Hs2.
    destruct (IH _ _ _ _ _ Hs2) as (p & Hp & Htok).
    { intros _. split; [exact Hfreq | exact Hdb]. }
    { destruct ext as [| x ext']; [| exact Hout].
      rewrite app_nil_r in *. now rewrite Hbucket. }
    exists p. split; [| exact Htok].
    exact (expansion_keeps _ _ _ _ _ _ _ _ _ _ _ _ _ _ Hrun Hp).
Qed.

End Reach.

Lemma db_of_continues (docs : corpus) (pat : list token) :
  corpus_fits docs ->
  db_of docs pat <> [] <-> exists d, continues_in docs pat d.
Proof.
  intros Hfit. rewrite (db_of_nonempty docs pat Hfit). unfold continues_in. split.
  - intros (d & j & Hd & Hm & Hroom). exists d. split; [exact Hd | now exists j].
  - intros (d & Hd & j & Hm & Hroom). now exists d, j.
Qed.

(** X27.  What mode CLOSED, the mode of [mine], emits.  When the stop flag
    stays down and the run completes, a pattern with at least one token is
    emitted exactly when it has at least [min_length] tokens, lies in at
    least [min_docs] documents, has an occurrence that is followed by one
    more token of its document, and is closed to the right. *)
Theorem closed_mode_emits
    (items_order : list (token * list nat) -> list (token * list nat))
    (docs_order : list nat -> list nat) (docs : corpus)
    (min_docs min_length fuel : nat) (st : CPS.State) (pat : list token) :
  (forall m, Permutation (items_order m) m) ->
  corpus_fits docs ->
  CPS.run items_order docs_order never docs min_docs min_length fuel CPS.MODE_CLOSED
  = Done st ->
  pat <> [] ->
  (exists p, In p (CPS.results st) /\ CPS.tokens p = pat) <->
  min_length <= length pat /\
  min_docs <= doc_support docs pat /\
  (exists d, continues_in docs pat d) /\
  forall w, doc_support docs (pat ++ [w]) < doc_support docs pat.
Proof.
  intros Hperm Hfit Hrun Hne. rewrite <- (db_of_continues docs pat Hfit). split.
  - intros (p & Hp & <-).
    pose proof (cps_emitted_phrases items_order docs_order never docs min_docs
                  min_length fuel CPS.MODE_CLOSED st Hperm Hfit Hrun) as Hall.
    rewrite Forall_forall in Hall.
    destruct (Hall p Hp Hne) as (Hs & Hmin & Hlen & Hdb & Hclosed).
    split; [exact Hlen | split; [lia | split; [exact Hdb |]]].
    intros w. specialize (Hclosed eq_refl w).
    pose proof (doc_support_app docs (CPS.tokens p) [w]). lia.
  - intros (Hlen & Hfreq & Hdb & Hclosed). unfold CPS.run in Hrun.
    rewrite <- (db_of_nil docs Hfit) in Hrun.
    apply (node_reaches items_order docs_order docs min_docs min_length CPS.MODE_CLOSED
             Hperm Hfit pat fuel [] _ _ st Hrun); [now intros _ |].
    destruct pat as [| x pat']; [congruence |]. cbn [app].
    unfold CPS.should_output.
    destruct (Nat.leb_spec min_length (length (x :: pat'))) as [_ | H]; [| lia].
    apply negb_true_iff.
    destruct (snd (CPS.analyse min_docs _ _)) eqn:E; [| reflexivity].
    apply analyse_same_support_inv in E as ([w v] & Hin & _ & Heq). simpl in Heq.
    apply (Permutation_in _ (Hperm _)) in Hin.
    destruct (bucket_length docs Hfit (x :: pat') w v Hin) as [_ Hbucket].
    rewrite u32_small in Heq.
    + specialize (Hclosed w). lia.
    + pose proof (doc_support_le docs ((x :: pat') ++ [w])). destruct Hfit as [Hn _]. lia.
Qed.

Lemma closed_mode_emits_witness :
  corpus_fits (docs fox_miner) /\
  exists st,
    CPS.run insertion_order insertion_order never (docs fox_miner) 3 3 10 CPS.MODE_CLOSED
    = Done st /\
    ((exists p, In p (CPS.results st) /\ CPS.tokens p = [0; 1; 2; 3]) <->
     3 <= length [0; 1; 2; 3] /\
     3 <= doc_support (docs fox_miner) [0; 1; 2; 3] /\
     (exists d, continues_in (docs fox_miner) [0; 1; 2; 3] d) /\
     forall w,
       doc_support (docs fox_miner) ([0; 1; 2; 3] ++ [w])
       < doc_support (docs fox_miner) [0; 1; 2; 3]).
Proof.
  split; [exact fox_docs_fit |].
  eexists. split; [vm_compute; reflexivity |].
  apply (closed_mode_emits insertion_order insertion_order (docs fox_miner) 3 3 10 _
           [0; 1; 2; 3] insertion_order_perm fox_docs_fit);
    [vm_compute; reflexivity | discriminate].
Defined.

(** X28.  What mode MAXIMAL emits.  When the stop flag stays down and the
    run completes, a pattern with at least one token is emitted exactly
    when it has at least [min_length] tokens, lies in at least [min_docs]
    documents, has an occurrence that is followed by one more token of its
    document, and no extension of it by one token to the right that occurs
    at all occurs in [min_docs] documents. *)
Theorem maximal_mode_emits
    (items_order : list (token * list nat) -> list (token * list nat))
    (docs_order : list nat -> list nat) (docs : corpus)
    (min_docs min_length fuel : nat) (st : CPS.State) (pat : list token) :
  (forall m, Permutation (items_order m) m) ->
  corpus_fits docs ->
  CPS.run items_order docs_order never docs min_docs min_length fuel CPS.MODE_MAXIMAL
  = Done st ->
  pat <> [] ->
  (exists p, In p (CPS.results st) /\ CPS.tokens p = pat) <->
  min_length <= length pat /\
  min_docs <= doc_support docs pat /\
  (exists d, continues_in docs pat d) /\
  forall w,
    1 <= doc_support docs (pat ++ [w]) -> doc_support docs (pat ++ [w]) < min_docs.
Proof.
  intros Hperm Hfit Hrun Hne. rewrite <- (db_of_continues docs pat Hfit). split.
  - intros (p & Hp & <-).
    pose proof (cps_emitted_phrases items_order docs_order never docs min_docs
                  min_length fuel CPS.MODE_MAXIMAL st Hperm Hfit Hrun) as Hall.
    pose proof (maximal_sound items_order docs_order never docs min_docs
                  min_length fuel st Hperm Hfit Hrun) as Hmax.
    rewrite Forall_forall in Hall, Hmax.
    destruct (Hall p Hp Hne) as (Hs & Hmin & Hlen & Hdb & _).
    split; [exact Hlen | split; [lia | split; [exact Hdb | exact (Hmax p Hp)]]].
  - intros (Hlen & Hfreq & Hdb & Hmax). unfold CPS.run in Hrun.
    rewrite <- (db_of_nil docs Hfit) in Hrun.
    apply (node_reaches items_order docs_order docs min_docs min_length CPS.MODE_MAXIMAL
             Hperm Hfit pat fuel [] _ _ st Hrun); [now intros _ |].
    destruct pat as [| x pat']; [congruence |]. cbn [app].
    unfold CPS.should_output.
    destruct (Nat.leb_spec min_length (length (x :: pat'))) as [_ | H]; [| lia].
    rewrite analyse_none_frequent; [reflexivity |].
    intros [w v] Hin. simpl.
    apply (Permutation_in _ (Hperm _)) in Hin.
    destruct (bucket_length docs Hfit (x :: pat') w v Hin) as [Hv Hbucket].
    rewrite u32_small.
    + rewrite Hbucket. apply Hmax. rewrite <- Hbucket.
      destruct v; [congruence | cbn [length]; lia].
    + pose proof (doc_support_le docs ((x :: pat') ++ [w])). destruct Hfit as [Hn _]. lia.
Qed.

Lemma maximal_mode_emits_witness :
  corpus_fits (docs fox_miner) /\
  exists st,
    CPS.run insertion_order insertion_order never (docs fox_miner) 3 3 10 CPS.MODE_MAXIMAL
    = Done st /\
    ((exists p, In p (CPS.results st) /\ CPS.tokens p = [0; 1; 2; 3]) <->
     3 <= length [0; 1; 2; 3] /\
     3 <= doc_support (docs fox_miner) [0; 1; 2; 3] /\
     (exists d, continues_in (docs fox_miner) [0; 1; 2; 3] d) /\
     forall w,
       1 <= doc_support (docs fox_miner) ([0; 1; 2; 3] ++ [w]) ->
       doc_support (docs fox_miner) ([0; 1; 2; 3] ++ [w]) < 3).
Proof.
  split; [exact fox_docs_fit |].
  eexists. split; [vm_compute; reflexivity |].
  apply (maximal_mode_emits insertion_order insertion_order (docs fox_miner) 3 3 10 _
           [0; 1; 2; 3] insertion_order_perm fox_docs_fit);
    [vm_compute; reflexivity | discriminate].
Defined.

(** ** The PrefixSpan engine: what mode CLOSED emits, the empty pattern included *)

Section ClosedEmission.

Variable items_order : list (token * list nat) -> list (token * list nat).
Variable docs_order : list nat -> list nat.
Variable docs : corpus.
Variable min_docs min_length : nat.

Hypothesis items_order_perm : forall m, Permutation (items_order m) m.
Hypothesis docs_fit : corpus_fits docs.

(** The output decision of mode CLOSED at the call for [pat], read on the
    documents. *)
Lemma closed_output_decision (pat : list token) (s : nat) :
  CPS.should_output min_length pat CPS.MODE_CLOSED
    (CPS.analyse min_docs (items_order (CPS.occ_delivery docs (db_of docs pat))) s)
  = true <->
  min_length <= length pat /\
  ~ exists w,
      1 <= doc_support docs (pat ++ [w]) /\
      min_docs <= doc_support docs (pat ++ [w]) /\
      doc_support docs (pat ++ [w]) = s.
Proof.
  assert (forall w (v : list nat),
            length v = doc_support docs (pat ++ [w]) -> u32 (length v) = length v)
    as Hsmall.
  { intros w v Hv. apply u32_small.
    pose proof (doc_support_le docs (pat ++ [w])). destruct docs_fit as [Hn _]. lia. }
  unfold CPS.should_output.
  destruct (Nat.leb_spec min_length (length pat)) as [Hlen | Hlen].
  - rewrite negb_true_iff. split.
    + intros Hflag. split; [exact Hlen |]. intros (w & Hpos & Hmin & Hs).
      destruct (bucket_present docs docs_fit pat w Hpos) as [v Hv].
      destruct (bucket_length docs docs_fit pat w v Hv) as [_ Hbucket].
      rewrite (analyse_same_support min_docs _ s (w, v)) in Hflag; [discriminate | | |].
      * now apply (Permutation_in _ (Permutation_sym (items_order_perm _))).
      * simpl. rewrite (Hsmall w v Hbucket). lia.
      * simpl. rewrite (Hsmall w v Hbucket). lia.
    + intros [_ Hnone].
      destruct (snd (CPS.analyse min_docs _ s)) eqn:E; [| reflexivity].
      exfalso. apply Hnone.
      apply analyse_same_support_inv in E as ([w v] & Hin & Hmin & Heq).
      simpl in Hmin, Heq.
      apply (Permutation_in _ (items_order_perm _)) in Hin.
      destruct (bucket_length docs docs_fit pat w v Hin) as [Hv Hbucket].
      rewrite (Hsmall w v Hbucket) in Hmin, Heq.
      exists w. split; [| split; lia].
      destruct v; [congruence | simpl in Hbucket; lia].
  - split; [discriminate | lia].
Qed.

(** Every phrase that mode CLOSED emits meets [closed_emits]. *)
Lemma closed_emitted_sound (stop_requested : nat -> bool) (fuel : nat) (st : CPS.State) :
  CPS.run items_order docs_order stop_requested docs min_docs min_length fuel
    CPS.MODE_CLOSED = Done st ->
  Forall (fun p => closed_emits docs min_docs min_length (CPS.tokens p) (CPS.support p))
    (CPS.results st).
Proof.
  intros Hrun. unfold CPS.run in Hrun.
  apply (mine_recursive_results items_order docs_order stop_requested docs
           min_docs min_length CPS.MODE_CLOSED
           (fun prefix cs db =>
              db = db_of docs prefix /\
              cs = match prefix with
                   | [] => CPS.initial_support docs
                   | _ :: _ => doc_support docs prefix
                   end /\
              (prefix <> [] -> min_docs <= cs /\ db <> [])))
    with (5 := Hrun).
  - intros db prefix cs (-> & Hcs & Hnode) Hout. simpl.
    apply closed_output_decision in Hout as [Hlen Hnone].
    split; [exact Hcs | split; [exact Hlen | split; [| exact Hnone]]].
    intros Hne. destruct (Hnode Hne) as [Hmin Hdb].
    split; [destruct prefix; [congruence | lia] |].
    now apply (db_of_continues docs prefix docs_fit).
  - intros db prefix cs [tok v] (-> & _ & _) Hin Hth Hnext. simpl in *.
    apply (Permutation_in _ (items_order_perm _)) in Hin.
    destruct (bucket_length docs docs_fit prefix tok v Hin) as [Hv Hbucket].
    assert (u32 (length v) = length v) as Hu.
    { apply u32_small.
      pose proof (doc_support_le docs (prefix ++ [tok])).
      destruct docs_fit as [Hn _]. lia. }
    rewrite Hu in *.
    split; [now apply next_db_db_of | split].
    + destruct (prefix ++ [tok]) eqn:E; [now destruct prefix | exact Hbucket].
    + intros _. split; [exact Hth | exact Hnext].
  - split; [symmetry; now apply db_of_nil | split; [reflexivity | congruence]].
  - constructor.
Qed.

(** Mode CLOSED, left to complete, emits [pat] with support [s] exactly
    when [closed_emits] holds of them. *)
Lemma closed_emits_iff (fuel : nat) (st : CPS.State) (pat : list token) (s : nat) :
  CPS.run items_order docs_order never docs min_docs min_length fuel CPS.MODE_CLOSED
  = Done st ->
  (exists p, In p (CPS.results st) /\ CPS.tokens p = pat /\ CPS.support p = s) <->
  closed_emits docs min_docs min_length pat s.
Proof.
  intros Hrun.
  pose proof (closed_emitted_sound never fuel st Hrun) as Hsound.
  rewrite Forall_forall in Hsound. split.
  - intros (p & Hp & <- & <-). now apply Hsound.
  - intros (Hs & Hlen & Hne & Hnone).
    unfold CPS.run in Hrun. rewrite <- (db_of_nil docs docs_fit) in Hrun.
    destruct (node_reaches items_order docs_order docs min_docs min_length
                CPS.MODE_CLOSED items_order_perm docs_fit pat fuel [] _ _ st Hrun)
      as (p & Hp & Htok).
    + intros H. destruct (Hne H) as [Hmin Hdb]. split; [exact Hmin |].
      now apply (db_of_continues docs pat docs_fit).
    + cbn [app]. apply closed_output_decision. split; [exact Hlen |].
      destruct pat; now rewrite <- Hs.
    + cbn [app] in Htok. exists p. split; [exact Hp | split; [exact Htok |]].
      destruct (Hsound p Hp) as [Hsp _]. rewrite Htok in Hsp. congruence.
Qed.

End ClosedEmission.

(** ** Documents read through a dictionary *)

Lemma encodes_length (i2w : list string) (doc : list token) (ws : list string) :
  encodes i2w doc ws -> length doc = length ws.
Proof.
  unfold encodes. intros H. apply (f_equal (@length _)) in H.
  now rewrite !length_map in H.
Qed.

Lemma encodes_inj (i2w : list string) (a b : list token) (ws : list string) :
  NoDup i2w -> encodes i2w a ws -> encodes i2w b ws -> a = b.
Proof.
  intros Hnd. unfold encodes. revert b ws.
  induction a as [| x a IH]; intros [| y b] [| w ws]; simpl; try discriminate;
    [reflexivity |].
  intros Ha Hb. injection Ha as Hx Ha. injection Hb as Hy Hb.
  f_equal; [| exact (IH b ws Ha Hb)].
  apply (proj1 (NoDup_nth_error i2w) Hnd); [| congruence].
  apply nth_error_Some. congruence.
Qed.

Lemma encodes_words (i2w : list string) (a : list token) (ws ws' : list string) :
  encodes i2w a ws -> encodes i2w a ws' -> ws = ws'.
Proof.
  unfold encodes. intros H H'. rewrite H in H'. clear H. revert ws' H'.
  induction ws as [| w ws IH]; intros [| w' ws']; simpl; try discriminate;
    [reflexivity |].
  intros H. injection H as -> H. f_equal. now apply IH.
Qed.

Lemma encodes_firstn (i2w : list string) (doc : list token) (ws : list string) (n : nat) :
  encodes i2w doc ws -> encodes i2w (firstn n doc) (firstn n ws).
Proof. unfold encodes. intros H. now rewrite <- !firstn_map, H. Qed.

Lemma encodes_skipn (i2w : list string) (doc : list token) (ws : list string) (n : nat) :
  encodes i2w doc ws -> encodes i2w (skipn n doc) (skipn n ws).
Proof. unfold encodes. intros H. now rewrite <- !skipn_map, H. Qed.

Lemma encodes_In (i2w : list string) (doc : list token) (ws : list string) (t : token) :
  encodes i2w doc ws -> In t doc -> exists w, nth_error i2w t = Some w /\ In w ws.
Proof.
  unfold encodes. revert ws.
  induction doc as [| x doc IH]; intros [| w ws]; simpl; try discriminate; [easy |].
  intros H. injection H as Hx H. intros [<- | Ht].
  - exists w. split; [exact Hx | now left].
  - destruct (IH ws H Ht) as (w' & Hw' & Hin). exists w'. split; [exact Hw' | now right].
Qed.

Lemma encodes_In_word (i2w : list string) (doc : list token) (ws : list string)
    (w : string) :
  encodes i2w doc ws -> In w ws -> exists t, In t doc /\ nth_error i2w t = Some w.
Proof.
  unfold encodes. revert ws.
  induction doc as [| x doc IH]; intros [| w' ws]; simpl; try discriminate; [easy |].
  intros H. injection H as Hx H. intros [<- | Hw].
  - exists x. split; [now left | exact Hx].
  - destruct (IH ws H Hw) as (t & Ht & Hnth). exists t. split; [now right | exact Hnth].
Qed.

Lemma encodes_snoc (i2w : list string) (pat : list token) (ps : list string)
    (t : token) (w : string) :
  encodes i2w pat ps -> nth_error i2w t = Some w -> encodes i2w (pat ++ [t]) (ps ++ [w]).
Proof. unfold encodes. intros H Ht. rewrite !map_app, H. simpl. now rewrite Ht. Qed.

Lemma encodes_in_range (i2w : list string) (doc : list token) (ws : list string) :
  encodes i2w doc ws -> Forall (fun t => t < length i2w) doc.
Proof.
  intros H. apply Forall_forall. intros t Ht.
  destruct (encodes_In i2w doc ws t H Ht) as (w & Hw & _).
  apply nth_error_Some. congruence.
Qed.

(** Reading a pattern in a document is reading its words in the words of
    the document. *)
Lemma matches_at_words (i2w : list string) (doc pat : list token) (ws ps : list string)
    (j : nat) :
  NoDup i2w -> encodes i2w doc ws -> encodes i2w pat ps ->
  matches_at doc pat j = true <-> firstn (length ps) (skipn j ws) = ps.
Proof.
  intros Hnd Hdoc Hpat. unfold matches_at. rewrite tokens_eqb_eq.
  rewrite (encodes_length i2w pat ps Hpat).
  pose proof (encodes_firstn i2w _ _ (length ps) (encodes_skipn i2w doc ws j Hdoc)) as Ha.
  split.
  - intros E. rewrite E in Ha. exact (encodes_words i2w pat _ _ Ha Hpat).
  - intros E. rewrite E in Ha. exact (encodes_inj i2w _ _ ps Hnd Ha Hpat).
Qed.

Lemma contains_words (i2w : list string) (doc pat : list token) (ws ps : list string) :
  NoDup i2w -> encodes i2w doc ws -> encodes i2w pat ps ->
  contains doc pat = true <->
  exists j, j <= length ws /\ firstn (length ps) (skipn j ws) = ps.
Proof.
  intros Hnd Hdoc Hpat. rewrite contains_spec, (encodes_length i2w doc ws Hdoc).
  split; intros (j & Hj & H); exists j; (split; [exact Hj |]);
    now apply (matches_at_words i2w doc pat ws ps j Hnd Hdoc Hpat).
Qed.

(** Two lists that are pointwise related to the same third one. *)
Lemma Forall2_meet {A B C : Type} (R : A -> C -> Prop) (S : B -> C -> Prop)
    (cs : list C) :
  forall (l : list A) (l' : list B) (a : A),
    Forall2 R l cs -> Forall2 S l' cs -> In a l ->
    exists c b, In c cs /\ In b l' /\ R a c /\ S b c.
Proof.
  induction cs as [| c cs IH]; intros l l' a Hl Hl' Ha.
  - inversion Hl; subst. destruct Ha.
  - inversion Hl as [| x c0 l0 cs0 Hx Hl0]; subst.
    inversion Hl' as [| y c0 l0' cs0 Hy Hl0']; subst.
    destruct Ha as [<- | Ha].
    + exists c, y. split; [now left | split; [now left | now split]].
    + destruct (IH l0 l0' a Hl0 Hl0' Ha) as (c' & b & Hc & Hb & H).
      exists c', b. split; [now right | split; [now right | exact H]].
Qed.

Lemma continues_exists (docs : corpus) (pat : list token) :
  (exists d, continues_in docs pat d) <->
  exists doc j,
    In doc docs /\ matches_at doc pat j = true /\ j + length pat < length doc.
Proof.
  unfold continues_in, doc_at. split.
  - intros (d & Hd & j & Hm & Hroom). exists (nth d docs []), j.
    split; [now apply nth_In | now split].
  - intros (doc & j & Hin & Hm & Hroom).
    destruct (In_nth docs doc [] Hin) as (d & Hd & <-).
    exists d. split; [exact Hd | now exists j].
Qed.

Lemma contains_exists (docs : corpus) (pat : list token) :
  1 <= doc_support docs pat -> exists doc, In doc docs /\ contains doc pat = true.
Proof.
  intros H. destruct (doc_support_positive docs pat H) as (d & Hd & Hc).
  exists (doc_at docs d). split; [now apply nth_In | exact Hc].
Qed.

Lemma matches_at_incl (doc pat : list token) (j : nat) :
  matches_at doc pat j = true -> incl pat doc.
Proof.
  unfold matches_at. rewrite tokens_eqb_eq. intros H t Ht. rewrite <- H in Ht.
  rewrite <- (firstn_skipn j doc). apply in_or_app. right.
  rewrite <- (firstn_skipn (length pat) (skipn j doc)). apply in_or_app. now left.
Qed.

Lemma nonempty_count (docs : corpus) :
  corpus_fits docs ->
  CPS.initial_support docs
  = length (filter (fun d : list token => negb (length d =? 0)) docs).
Proof.
  intros [Hn _]. unfold CPS.initial_support. rewrite (u32_small (length docs) Hn).
  set (f := fun d : list token => negb (length d =? 0)).
  set (l := filter (fun i => negb (length (doc_at docs i) =? 0)) (seq 0 (length docs))).
  assert (length (unique_docs l) = length l) as ->.
  { apply Permutation_length, NoDup_Permutation.
    - apply unique_docs_NoDup.
    - apply NoDup_filter, seq_NoDup.
    - apply unique_docs_In. }
  assert (length l = length (filter f docs)) as Hl.
  { unfold l, doc_at.
    assert (forall (k : list (list token)) d,
              length (filter (fun i => f (nth i (d ++ k) []))
                        (seq (length d) (length k)))
              = length (filter f k)) as H.
    { induction k as [| x k IH]; intros d; [reflexivity |].
      cbn [length seq filter]. rewrite app_nth2, Nat.sub_diag by lia. cbn [nth].
      specialize (IH (d ++ [x])). rewrite <- app_assoc, length_app in IH.
      cbn [length app] in IH. rewrite Nat.add_1_r in IH.
      destruct (f x); cbn [length]; now rewrite IH. }
    exact (H docs []). }
  rewrite Hl. apply u32_small.
  pose proof (filter_length_le f docs). lia.
Qed.

(** ** The same words under two dictionaries *)

Section SameWords.

Variables i2w_a i2w_b : list string.
Hypothesis nodup_a : NoDup i2w_a.
Hypothesis nodup_b : NoDup i2w_b.

Variable min_docs min_length : nat.

Lemma contains_same (doc_a doc_b pat_a pat_b : list token) (ws ps : list string) :
  encodes i2w_a doc_a ws -> encodes i2w_b doc_b ws ->
  encodes i2w_a pat_a ps -> encodes i2w_b pat_b ps ->
  contains doc_a pat_a = contains doc_b pat_b.
Proof.
  intros Ha Hb Hpa Hpb. apply eq_iff_eq_true.
  rewrite (contains_words i2w_a doc_a pat_a ws ps nodup_a Ha Hpa).
  now rewrite (contains_words i2w_b doc_b pat_b ws ps nodup_b Hb Hpb).
Qed.

Lemma doc_support_same (raw : list (list string)) :
  forall (docs_a docs_b : corpus) (pat_a pat_b : list token) (ps : list string),
    Forall2 (encodes i2w_a) docs_a raw -> Forall2 (encodes i2w_b) docs_b raw ->
    encodes i2w_a pat_a ps -> encodes i2w_b pat_b ps ->
    doc_support docs_a pat_a = doc_support docs_b pat_b.
Proof.
  unfold doc_support.
  induction raw as [| ws raw IH]; intros docs_a docs_b pat_a pat_b ps Ha Hb Hpa Hpb.
  - inversion Ha; inversion Hb; subst. reflexivity.
  - inversion Ha as [| x ? la ? Hx Hla]; subst.
    inversion Hb as [| y ? lb ? Hy Hlb]; subst.
    cbn [filter]. rewrite (contains_same x y pat_a pat_b ws ps Hx Hy Hpa Hpb).
    destruct (contains y pat_b); cbn [length];
      now rewrite (IH la lb pat_a pat_b ps Hla Hlb Hpa Hpb).
Qed.

Lemma nonempty_same (raw : list (list string)) :
  forall docs_a docs_b : corpus,
    Forall2 (encodes i2w_a) docs_a raw -> Forall2 (encodes i2w_b) docs_b raw ->
    length (filter (fun d : list token => negb (length d =? 0)) docs_a)
    = length (filter (fun d : list token => negb (length d =? 0)) docs_b).
Proof.
  induction raw as [| ws raw IH]; intros docs_a docs_b Ha Hb.
  - inversion Ha; inversion Hb; subst. reflexivity.
  - inversion Ha as [| x ? la ? Hx Hla]; subst.
    inversion Hb as [| y ? lb ? Hy Hlb]; subst.
    cbn [filter].
    rewrite (encodes_length _ _ _ Hx), (encodes_length _ _ _ Hy).
    destruct (negb (length ws =? 0)); cbn [length]; now rewrite (IH la lb Hla Hlb).
Qed.

End SameWords.

Section SameWordsEmission.

Variables i2w_a i2w_b : list string.
Hypothesis nodup_a : NoDup i2w_a.
Hypothesis nodup_b : NoDup i2w_b.

(** The condition [closed_emits] only looks at the words: it passes from a
    corpus and a pattern under one dictionary to the same words under
    another dictionary. *)
Lemma closed_emits_same (raw : list (list string)) (docs_a docs_b : corpus)
    (min_docs min_length : nat) (pat_a pat_b : list token) (ps : list string) (s : nat) :
  corpus_fits docs_a -> corpus_fits docs_b ->
  Forall2 (encodes i2w_a) docs_a raw -> Forall2 (encodes i2w_b) docs_b raw ->
  encodes i2w_a pat_a ps -> encodes i2w_b pat_b ps ->
  closed_emits docs_a min_docs min_length pat_a s ->
  closed_emits docs_b min_docs min_length pat_b s.
Proof.
  intros Hfa Hfb Ha Hb Hpa Hpb (Hs & Hlen & Hne & Hnone).
  pose proof (doc_support_same i2w_a i2w_b nodup_a nodup_b raw docs_a docs_b
                pat_a pat_b ps Ha Hb Hpa Hpb) as Hds.
  pose proof (encodes_length _ _ _ Hpa) as Hla.
  pose proof (encodes_length _ _ _ Hpb) as Hlb.
  split; [| split; [| split]].
  - rewrite Hs. destruct pat_a as [| xa pat_a], pat_b as [| xb pat_b];
      cbn [length] in Hla, Hlb; try lia.
    rewrite (nonempty_count docs_a Hfa), (nonempty_count docs_b Hfb).
    exact (nonempty_same i2w_a i2w_b raw docs_a docs_b Ha Hb).
  - lia.
  - intros Hb_ne.
    assert (pat_a <> []) as Ha_ne
      by (destruct pat_a; [destruct pat_b; [congruence | simpl in *; lia] | discriminate]).
    destruct (Hne Ha_ne) as [Hmin Hcont]. split; [lia |].
    apply continues_exists in Hcont as (doc_a & j & Hin & Hm & Hroom).
    destruct (Forall2_meet (encodes i2w_a) (encodes i2w_b) raw docs_a docs_b doc_a
                Ha Hb Hin) as (ws & doc_b & _ & Hin_b & Hda & Hdb).
    apply continues_exists. exists doc_b, j. split; [exact Hin_b | split].
    + apply (matches_at_words i2w_b doc_b pat_b ws ps j nodup_b Hdb Hpb).
      now apply (matches_at_words i2w_a doc_a pat_a ws ps j nodup_a Hda Hpa).
    + rewrite (encodes_length _ _ _ Hdb), <- (encodes_length _ _ _ Hda). lia.
  - intros (w_b & Hpos & Hmin & Heq). apply Hnone.
    destruct (contains_exists docs_b _ Hpos) as (doc_b & Hin_b & Hc).
    apply contains_spec in Hc as (j & _ & Hm).
    assert (In w_b doc_b) as Hw
      by (apply (matches_at_incl _ _ _ Hm), in_or_app; right; now left).
    destruct (Forall2_meet (encodes i2w_b) (encodes i2w_a) raw docs_b docs_a doc_b
                Hb Ha Hin_b) as (ws & doc_a & _ & Hin_a & Hdb & Hda).
    destruct (encodes_In i2w_b doc_b ws w_b Hdb Hw) as (x & Hx & Hxin).
    destruct (encodes_In_word i2w_a doc_a ws x Hda Hxin) as (w_a & _ & Hwa).
    pose proof (doc_support_same i2w_a i2w_b nodup_a nodup_b raw docs_a docs_b
                  (pat_a ++ [w_a]) (pat_b ++ [w_b]) (ps ++ [x]) Ha Hb
                  (encodes_snoc _ _ _ _ _ Hpa Hwa) (encodes_snoc _ _ _ _ _ Hpb Hx)) as E.
    exists w_a. rewrite E. now split.
Qed.

End SameWordsEmission.

(** ** The order of the documents *)

Lemma filter_length_perm {A : Type} (f : A -> bool) (l l' : list A) :
  Permutation l l' -> length (filter f l) = length (filter f l').
Proof.
  induction 1 as [| x l l' _ IH | x y l | l l' l'' _ IH1 _ IH2]; simpl.
  - reflexivity.
  - destruct (f x); simpl; now rewrite IH.
  - destruct (f x), (f y); reflexivity.
  - now rewrite IH1.
Qed.

Lemma doc_support_perm (docs docs' : corpus) (pat : list token) :
  Permutation docs docs' -> doc_support docs pat = doc_support docs' pat.
Proof. apply filter_length_perm. Qed.

Lemma corpus_fits_perm (docs docs' : corpus) :
  Permutation docs docs' -> corpus_fits docs -> corpus_fits docs'.
Proof.
  intros Hperm [Hn Hall]. split.
  - now rewrite <- (Permutation_length Hperm).
  - exact (Permutation_Forall Hperm Hall).
Qed.

(** The condition [closed_emits] does not look at the order of the
    documents. *)
Lemma closed_emits_perm (docs docs' : corpus) (min_docs min_length : nat)
    (pat : list token) (s : nat) :
  corpus_fits docs -> Permutation docs docs' ->
  closed_emits docs min_docs min_length pat s ->
  closed_emits docs' min_docs min_length pat s.
Proof.
  intros Hfit Hperm (Hs & Hlen & Hne & Hnone).
  pose proof (corpus_fits_perm docs docs' Hperm Hfit) as Hfit'.
  split; [| split; [exact Hlen | split]].
  - rewrite Hs. destruct pat; [| now apply doc_support_perm].
    rewrite (nonempty_count docs Hfit), (nonempty_count docs' Hfit').
    now apply filter_length_perm.
  - intros H. destruct (Hne H) as [Hmin Hcont].
    split; [now rewrite <- (doc_support_perm docs docs' pat Hperm) |].
    apply continues_exists in Hcont as (doc & j & Hin & Hm).
    apply continues_exists. exists doc, j.
    split; [exact (Permutation_in _ Hperm Hin) | exact Hm].
  - intros (w & H). apply Hnone. exists w.
    now rewrite (doc_support_perm docs docs' _ Hperm).
Qed.

Lemma concat_length_perm {A : Type} (l l' : list (list A)) :
  Permutation l l' -> length (concat l) = length (concat l').
Proof.
  induction 1 as [| x l l' _ IH | x y l | l l' l'' _ IH1 _ IH2]; simpl.
  - reflexivity.
  - rewrite !length_app. now rewrite IH.
  - rewrite !length_app. lia.
  - now rewrite IH1.
Qed.

Lemma concat_length_In {A : Type} (l : list (list A)) (x : list A) :
  In x l -> length x <= length (concat l).
Proof.
  induction l as [| y l IH]; simpl; [easy |].
  rewrite length_app. intros [-> | H]; [lia | specialize (IH H); lia].
Qed.

Lemma longest_bound (docs : corpus) (n : nat) :
  Forall (fun d => length d <= n) docs -> longest docs <= n.
Proof.
  induction 1 as [| d docs Hd _ IH]; simpl; [lia |]. now apply Nat.max_lub.
Qed.

Lemma NoDup_map_on {A B C : Type} (f : A -> B) (g : A -> C) (l : list A) :
  NoDup (map f l) ->
  (forall x y, In x l -> In y l -> g x = g y -> f x = f y) ->
  NoDup (map g l).
Proof.
  induction l as [| a l IH]; simpl; intros Hnd Hinj; [constructor |].
  inversion Hnd as [| ? ? Ha Hl]; subst. constructor.
  - intros Hin. apply in_map_iff in Hin as (b & Hb & Hbl). apply Ha.
    apply in_map_iff. exists b. split; [| exact Hbl].
    apply Hinj; [now right | now left | exact Hb].
  - apply IH; [exact Hl |]. intros x y Hx Hy. apply Hinj; now right.
Qed.

(** ** [load_directory] when every selected file is kept *)

Lemma cps_load_all (file_mask : string) (tokenize_bytes : string -> list string)
    (tokenize_utf16 : list Z -> list string)
    (shuffled : list CPS.DirEntry -> list CPS.DirEntry) (sample_size : nat -> nat)
    (entries : list CPS.DirEntry) :
  let selected :=
    filter (fun e => CPS.is_regular_file e && CPS.mask_matches file_mask e) entries in
  let files := shuffled selected in
  let raw_docs := map (CPS.raw_doc tokenize_bytes tokenize_utf16) files in
  let m := CPS.load_directory file_mask tokenize_bytes tokenize_utf16 shuffled
             sample_size entries empty_miner in
  Permutation files selected ->
  length selected <= sample_size (length selected) ->
  (Z.of_nat (length selected) < 2 ^ 32)%Z ->
  (Z.of_nat (length (concat (map (CPS.raw_doc tokenize_bytes tokenize_utf16) selected)))
   < 2 ^ 32)%Z ->
  NoDup (id_to_word m) /\
  Forall2 (encodes (id_to_word m)) (docs m) raw_docs /\
  file_paths m = map CPS.path files /\
  corpus_fits (docs m).
Proof.
  intros selected files raw_docs m Hperm Hall Hn Hwords.
  assert (cps_sample file_mask shuffled sample_size entries = files) as Hsample.
  { unfold cps_sample. fold selected. fold files.
    rewrite (Permutation_length Hperm), Nat.min_l by exact Hall.
    rewrite <- (Permutation_length Hperm). apply firstn_all. }
  unfold m. rewrite cps_load_directory_eq, Hsample. fold raw_docs.
  set (fs := combine (map CPS.path files) raw_docs).
  assert (map fst fs = map CPS.path files) as Hfst
    by (apply combine_map_fst; unfold raw_docs; now rewrite !length_map).
  assert (map snd fs = raw_docs) as Hsnd
    by (apply combine_map_snd; unfold raw_docs; now rewrite !length_map).
  assert (length (concat raw_docs)
          = length (concat (map (CPS.raw_doc tokenize_bytes tokenize_utf16) selected)))
    as Hlen by (apply concat_length_perm, Permutation_map, Hperm).
  destruct (encode_docs_ok fs [] empty_miner empty_encoding_ok)
    as ([Hi2w _] & Hpaths & ext & nd & _ & Hdocs & Henc).
  { rewrite Hsnd, Hlen. simpl. exact Hwords. }
  cbv zeta in *. simpl in Hpaths, Hdocs. rewrite Hsnd in Henc. subst nd.
  split; [rewrite Hi2w; apply first_occurrences_NoDup |].
  split; [exact Henc | split; [now rewrite Hpaths, Hfst |]].
  split.
  - rewrite (Forall2_length Henc). unfold raw_docs.
    now rewrite length_map, (Permutation_length Hperm).
  - apply Forall_forall. intros doc Hdoc.
    destruct (Forall2_meet (encodes _) (encodes _) raw_docs _ _ doc Henc Henc Hdoc)
      as (ws & _ & Hin & _ & Hws & _).
    rewrite (encodes_length _ _ _ Hws).
    pose proof (concat_length_In raw_docs ws Hin). lia.
Qed.

(** ** Runs of the PrefixSpan miner under two shuffles *)

(** The tokens of an emitted pattern are read in a document: they have
    words, and the same words are read at the same place under another
    dictionary. *)
Lemma emitted_pattern_words (i2w_a i2w_b : list string) (raw : list (list string))
    (docs_a docs_b : corpus) (min_docs min_length : nat) (pat_a : list token) (s : nat) :
  Forall2 (encodes i2w_a) docs_a raw -> Forall2 (encodes i2w_b) docs_b raw ->
  closed_emits docs_a min_docs min_length pat_a s ->
  exists ps pat_b, encodes i2w_a pat_a ps /\ encodes i2w_b pat_b ps.
Proof.
  intros Ha Hb (_ & _ & Hne & _).
  destruct pat_a as [| x pat_a]; [exists [], []; split; reflexivity |].
  destruct (Hne ltac:(discriminate)) as [_ Hcont].
  apply continues_exists in Hcont as (doc_a & j & Hin & Hm & _).
  destruct (Forall2_meet (encodes i2w_a) (encodes i2w_b) raw docs_a docs_b doc_a
              Ha Hb Hin) as (ws & doc_b & _ & _ & Hda & Hdb).
  unfold matches_at in Hm. apply tokens_eqb_eq in Hm.
  exists (firstn (length (x :: pat_a)) (skipn j ws)),
         (firstn (length (x :: pat_a)) (skipn j doc_b)).
  split.
  - rewrite <- Hm at 1. now apply encodes_firstn, encodes_skipn.
  - now apply encodes_firstn, encodes_skipn.
Qed.

(** Two runs on the same documents, taken in two orders and numbered by
    two dictionaries: what the first emits, the second emits too, with the
    same words and the same support. *)
Lemma closed_rows_transfer (i2w_a i2w_b : list string) (raw_a raw_b : list (list string))
    (docs_a docs_b : corpus) (min_docs min_length : nat) (res_a res_b : list CPS.Phrase) :
  NoDup i2w_a -> NoDup i2w_b ->
  Forall2 (encodes i2w_a) docs_a raw_a -> Forall2 (encodes i2w_b) docs_b raw_b ->
  Permutation raw_a raw_b ->
  corpus_fits docs_a -> corpus_fits docs_b ->
  Forall (fun p => closed_emits docs_a min_docs min_length (CPS.tokens p) (CPS.support p))
    res_a ->
  (forall pat s,
     closed_emits docs_b min_docs min_length pat s ->
     exists p, In p res_b /\ CPS.tokens p = pat /\ CPS.support p = s) ->
  forall p_a, In p_a res_a ->
    exists p_b,
      In p_b res_b /\
      decode i2w_b (CPS.tokens p_b) = decode i2w_a (CPS.tokens p_a) /\
      CPS.support p_b = CPS.support p_a.
Proof.
  intros Hnda Hndb Ha Hb Hperm Hfa Hfb Hsound Hcomplete p_a Hp.
  rewrite Forall_forall in Hsound. specialize (Hsound p_a Hp).
  destruct (Permutation_Forall2 (P := fun ws d => encodes i2w_b d ws)
              (Permutation_sym Hperm) (Forall2_flip Hb))
    as (docs_b' & Hperm_b & Hb').
  apply Forall2_flip in Hb'. cbv beta in Hb'.
  pose proof (corpus_fits_perm docs_b docs_b' Hperm_b Hfb) as Hfb'.
  destruct (emitted_pattern_words i2w_a i2w_b raw_a docs_a docs_b' min_docs min_length
              _ _ Ha Hb' Hsound) as (ps & pat_b & Hpa & Hpb).
  pose proof (closed_emits_same i2w_a i2w_b Hnda Hndb raw_a docs_a docs_b' min_docs
                min_length _ pat_b ps _ Hfa Hfb' Ha Hb' Hpa Hpb Hsound) as Hemit.
  apply (closed_emits_perm docs_b' docs_b _ _ _ _ Hfb' (Permutation_sym Hperm_b)) in Hemit.
  destruct (Hcomplete _ _ Hemit) as (p_b & Hpb_in & Htok & Hsup).
  exists p_b. split; [exact Hpb_in | split; [| exact Hsup]].
  rewrite Htok, (encodes_decode _ _ _ Hpa). exact (encodes_decode _ _ _ Hpb).
Qed.

(** Distinct emitted phrases have distinct words. *)
Lemma closed_rows_distinct (i2w : list string) (raw : list (list string))
    (docs : corpus) (min_docs min_length : nat) (res : list CPS.Phrase) :
  NoDup i2w -> Forall2 (encodes i2w) docs raw ->
  Forall (fun p => closed_emits docs min_docs min_length (CPS.tokens p) (CPS.support p))
    res ->
  NoDup (map CPS.tokens res) ->
  NoDup (map (fun p => (decode i2w (CPS.tokens p), CPS.support p)) res).
Proof.
  intros Hnd Henc Hsound Hdistinct. rewrite Forall_forall in Hsound.
  apply (NoDup_map_on CPS.tokens _ res Hdistinct).
  intros p q Hp Hq E. injection E as Hwords _.
  destruct (emitted_pattern_words i2w i2w raw docs docs min_docs min_length _ _
              Henc Henc (Hsound p Hp)) as (ps & _ & Hps & _).
  destruct (emitted_pattern_words i2w i2w raw docs docs min_docs min_length _ _
              Henc Henc (Hsound q Hq)) as (qs & _ & Hqs & _).
  rewrite (encodes_decode _ _ _ Hps), (encodes_decode _ _ _ Hqs) in Hwords. subst qs.
  exact (encodes_inj i2w _ _ ps Hnd Hps Hqs).
Qed.

(** The cells of a row, from the words of its phrase. *)
Lemma cps_cells_words (m : Miner) (raw : list (list string)) (min_docs min_length : nat)
    (p : CPS.Phrase) :
  Forall2 (encodes (id_to_word m)) (docs m) raw ->
  closed_emits (docs m) min_docs min_length (CPS.tokens p) (CPS.support p) ->
  cps_cells m p
  = (String.concat " " (decode (id_to_word m) (CPS.tokens p)), CPS.support p,
     length (decode (id_to_word m) (CPS.tokens p))).
Proof.
  intros Henc Hemit.
  destruct (emitted_pattern_words _ _ raw _ _ min_docs min_length _ _ Henc Henc Hemit)
    as (ps & _ & Hps & _).
  unfold cps_cells.
  rewrite (cps_write_tokens_join _ _ (encodes_in_range _ _ _ Hps)).
  unfold decode at 3. now rewrite length_map.
Qed.

(** One run of [main] of the PrefixSpan miner on a directory, every
    selected file kept and the stop flag down: it completes, and its
    phrases are those that meet [closed_emits] on the loaded documents,
    each once. *)
Lemma cps_main_all
    (items_order : list (token * list nat) -> list (token * list nat))
    (docs_order ids_order : list nat -> list nat)
    (file_mask : string) (tokenize_bytes : string -> list string)
    (tokenize_utf16 : list Z -> list string)
    (shuffled : list CPS.DirEntry -> list CPS.DirEntry) (sample_size : nat -> nat)
    (entries : list CPS.DirEntry) (min_docs ngrams : Z) (fuel : nat) :
  let selected :=
    filter (fun e => CPS.is_regular_file e && CPS.mask_matches file_mask e) entries in
  let m := CPS.load_directory file_mask tokenize_bytes tokenize_utf16 shuffled
             sample_size entries empty_miner in
  (forall l, Permutation (items_order l) l) ->
  Permutation (shuffled selected) selected ->
  length selected <= sample_size (length selected) ->
  (Z.of_nat (length selected) < 2 ^ 32)%Z ->
  (Z.of_nat (length (concat (map (CPS.raw_doc tokenize_bytes tokenize_utf16) selected)))
   < 2 ^ 32)%Z ->
  1 <= fuel ->
  Forall (fun e => length (CPS.raw_doc tokenize_bytes tokenize_utf16 e) <= fuel)
    selected ->
  exists res,
    CPS.found_phrases items_order docs_order never m min_docs ngrams fuel = Done res /\
    CPS.main items_order docs_order ids_order never file_mask tokenize_bytes
      tokenize_utf16 shuffled sample_size entries min_docs ngrams fuel
    = Done (match selected with
            | [] => None
            | _ :: _ => Some (CPS.save_to_csv ids_order m res)
            end) /\
    Forall (fun p =>
              closed_emits (docs m) (Z.to_nat (to_uint32 min_docs))
                (Z.to_nat (to_uint32 ngrams)) (CPS.tokens p) (CPS.support p)) res /\
    (forall pat s,
       closed_emits (docs m) (Z.to_nat (to_uint32 min_docs))
         (Z.to_nat (to_uint32 ngrams)) pat s ->
       exists p, In p res /\ CPS.tokens p = pat /\ CPS.support p = s) /\
    NoDup (map CPS.tokens res).
Proof.
  intros selected m Hitems Hperm Hall Hn Hwords Hfuel Hlong.
  destruct (cps_load_all file_mask tokenize_bytes tokenize_utf16 shuffled sample_size
              entries Hperm Hall Hn Hwords) as (_ & Henc & Hpaths & Hfit).
  fold selected in Henc, Hpaths. fold m in Henc, Hpaths, Hfit.
  assert (longest (docs m) <= fuel) as Hroom.
  { apply longest_bound, Forall_forall. intros doc Hdoc.
    destruct (Forall2_meet (encodes _) (encodes _) _ _ _ doc Henc Henc Hdoc)
      as (ws & _ & Hws & _ & Hdw & _).
    rewrite (encodes_length _ _ _ Hdw).
    apply in_map_iff in Hws as (e & <- & He).
    rewrite Forall_forall in Hlong. apply Hlong.
    exact (Permutation_in _ Hperm He). }
  destruct (mine_recursive_returns items_order docs_order never (docs m)
              (Z.to_nat (to_uint32 min_docs)) (Z.to_nat (to_uint32 ngrams)) Hfit fuel
              (CPS.initial_db (docs m)) [] (CPS.initial_support (docs m))
              CPS.MODE_CLOSED (CPS.mkState [] 0)) as [st Hrun].
  { pose proof (db_room_longest (docs m) (CPS.initial_db (docs m))). lia. }
  fold (CPS.run items_order docs_order never (docs m) (Z.to_nat (to_uint32 min_docs))
          (Z.to_nat (to_uint32 ngrams)) fuel CPS.MODE_CLOSED) in Hrun.
  assert (CPS.found_phrases items_order docs_order never m min_docs ngrams fuel
          = Done (CPS.results st)) as Hfound
    by (unfold CPS.found_phrases; now rewrite Hrun).
  exists (CPS.results st). split; [exact Hfound | split; [| split; [| split]]].
  - unfold CPS.main, CPS.mine. fold m. rewrite Hpaths.
    destruct selected as [| e sel] eqn:Esel.
    + apply Permutation_sym, Permutation_nil in Hperm. now rewrite Hperm.
    + destruct (shuffled (e :: sel)) as [| e' files] eqn:Efiles.
      * apply Permutation_nil in Hperm. discriminate.
      * cbn [map]. now rewrite Hfound.
  - exact (closed_emitted_sound items_order docs_order (docs m) _ _ Hitems Hfit never
             fuel st Hrun).
  - intros pat s Hemit.
    now apply (closed_emits_iff items_order docs_order (docs m) _ _ Hitems Hfit fuel st
                 pat s Hrun).
  - unfold CPS.run in Hrun.
    apply (mine_recursive_distinct items_order docs_order never (docs m) _ _
             CPS.MODE_CLOSED Hitems) in Hrun as (new & Hres & Hnd & _).
    simpl in Hres. now rewrite Hres.
Qed.

(** C4, as amended.  Two runs of [main] of the PrefixSpan miner on the same
    directory with the same parameters, in which every selected file is
    kept ([sampling] at least 1.0), the stop flag stays down and the
    recursion may nest one call per token of the longest document.
    Whatever order [std::shuffle] leaves the files in, and whatever the
    iteration orders of the hash containers, both runs complete, and the
    rows they write carry the same [phrase], [freq] and [length] cells,
    each as often in one file as in the other: [res1] and [res2] are the
    phrases found, for each of which [save_to_csv] writes one row. *)
Theorem cps_rows_independent_of_shuffle
    (items_order1 items_order2 : list (token * list nat) -> list (token * list nat))
    (docs_order1 docs_order2 ids_order1 ids_order2 : list nat -> list nat)
    (file_mask : string) (tokenize_bytes : string -> list string)
    (tokenize_utf16 : list Z -> list string)
    (shuffled1 shuffled2 : list CPS.DirEntry -> list CPS.DirEntry)
    (sample_size : nat -> nat) (entries : list CPS.DirEntry)
    (min_docs ngrams : Z) (fuel : nat) :
  let selected :=
    filter (fun e => CPS.is_regular_file e && CPS.mask_matches file_mask e) entries in
  let m1 := CPS.load_directory file_mask tokenize_bytes tokenize_utf16 shuffled1
              sample_size entries empty_miner in
  let m2 := CPS.load_directory file_mask tokenize_bytes tokenize_utf16 shuffled2
              sample_size entries empty_miner in
  (forall l, Permutation (items_order1 l) l) ->
  (forall l, Permutation (items_order2 l) l) ->
  Permutation (shuffled1 selected) selected ->
  Permutation (shuffled2 selected) selected ->
  length selected <= sample_size (length selected) ->
  (Z.of_nat (length selected) < 2 ^ 32)%Z ->
  (Z.of_nat (length (concat (map (CPS.raw_doc tokenize_bytes tokenize_utf16) selected)))
   < 2 ^ 32)%Z ->
  1 <= fuel ->
  Forall (fun e => length (CPS.raw_doc tokenize_bytes tokenize_utf16 e) <= fuel)
    selected ->
  exists res1 res2,
    CPS.found_phrases items_order1 docs_order1 never m1 min_docs ngrams fuel
    = Done res1 /\
    CPS.found_phrases items_order2 docs_order2 never m2 min_docs ngrams fuel
    = Done res2 /\
    CPS.main items_order1 docs_order1 ids_order1 never file_mask tokenize_bytes
      tokenize_utf16 shuffled1 sample_size entries min_docs ngrams fuel
    = Done (match selected with
            | [] => None
            | _ :: _ => Some (CPS.save_to_csv ids_order1 m1 res1)
            end) /\
    CPS.main items_order2 docs_order2 ids_order2 never file_mask tokenize_bytes
      tokenize_utf16 shuffled2 sample_size entries min_docs ngrams fuel
    = Done (match selected with
            | [] => None
            | _ :: _ => Some (CPS.save_to_csv ids_order2 m2 res2)
            end) /\
    Permutation (map (cps_cells m1) res1) (map (cps_cells m2) res2).
Proof.
  intros selected m1 m2 Hitems1 Hitems2 Hperm1 Hperm2 Hall Hn Hwords Hfuel Hlong.
  destruct (cps_main_all items_order1 docs_order1 ids_order1 file_mask tokenize_bytes
              tokenize_utf16 shuffled1 sample_size entries min_docs ngrams fuel
              Hitems1 Hperm1 Hall Hn Hwords Hfuel Hlong)
    as (res1 & Hfound1 & Hmain1 & Hsound1 & Hcomplete1 & Hdistinct1).
  destruct (cps_main_all items_order2 docs_order2 ids_order2 file_mask tokenize_bytes
              tokenize_utf16 shuffled2 sample_size entries min_docs ngrams fuel
              Hitems2 Hperm2 Hall Hn Hwords Hfuel Hlong)
    as (res2 & Hfound2 & Hmain2 & Hsound2 & Hcomplete2 & Hdistinct2).
  destruct (cps_load_all file_mask tokenize_bytes tokenize_utf16 shuffled1 sample_size
              entries Hperm1 Hall Hn Hwords) as (Hnd1 & Henc1 & _ & Hfit1).
  destruct (cps_load_all file_mask tokenize_bytes tokenize_utf16 shuffled2 sample_size
              entries Hperm2 Hall Hn Hwords) as (Hnd2 & Henc2 & _ & Hfit2).
  fold selected in Hfound1, Hmain1, Hsound1, Hcomplete1, Hfound2, Hmain2, Hsound2,
    Hcomplete2, Henc1, Henc2.
  fold m1 in Hfound1, Hmain1, Hsound1, Hcomplete1, Hnd1, Henc1, Hfit1.
  fold m2 in Hfound2, Hmain2, Hsound2, Hcomplete2, Hnd2, Henc2, Hfit2.
  exists res1, res2.
  split; [exact Hfound1 | split; [exact Hfound2 |]].
  split; [exact Hmain1 | split; [exact Hmain2 |]].
  set (raw1 := map (CPS.raw_doc tokenize_bytes tokenize_utf16) (shuffled1 selected))
    in Henc1.
  set (raw2 := map (CPS.raw_doc tokenize_bytes tokenize_utf16) (shuffled2 selected))
    in Henc2.
  assert (Permutation raw1 raw2) as Hraw.
  { apply Permutation_map.
    exact (Permutation_trans Hperm1 (Permutation_sym Hperm2)). }
  set (key := fun (m : Miner) (p : CPS.Phrase) =>
                (decode (id_to_word m) (CPS.tokens p), CPS.support p)).
  assert (Permutation (map (key m1) res1) (map (key m2) res2)) as Hkeys.
  { apply NoDup_Permutation.
    - exact (closed_rows_distinct _ raw1 _ _ _ res1 Hnd1 Henc1 Hsound1 Hdistinct1).
    - exact (closed_rows_distinct _ raw2 _ _ _ res2 Hnd2 Henc2 Hsound2 Hdistinct2).
    - intros [ws s]. rewrite !in_map_iff. split.
      + intros (p & E & Hp). injection E as <- <-.
        destruct (closed_rows_transfer _ _ raw1 raw2 _ _ _ _ res1 res2 Hnd1 Hnd2 Henc1
                    Henc2 Hraw Hfit1 Hfit2 Hsound1 Hcomplete2 p Hp)
          as (q & Hq & Hwords_q & Hsup).
        exists q. split; [unfold key; now rewrite Hwords_q, Hsup | exact Hq].
      + intros (p & E & Hp). injection E as <- <-.
        destruct (closed_rows_transfer _ _ raw2 raw1 _ _ _ _ res2 res1 Hnd2 Hnd1 Henc2
                    Henc1 (Permutation_sym Hraw) Hfit2 Hfit1 Hsound2 Hcomplete1 p Hp)
          as (q & Hq & Hwords_q & Hsup).
        exists q. split; [unfold key; now rewrite Hwords_q, Hsup | exact Hq]. }
  set (cells := fun k : list string * nat =>
                  (String.concat " " (fst k), snd k, length (fst k))).
  rewrite Forall_forall in Hsound1, Hsound2.
  assert (map (cps_cells m1) res1 = map cells (map (key m1) res1)) as ->.
  { rewrite map_map. apply map_ext_in. intros p Hp.
    exact (cps_cells_words m1 raw1 _ _ p Henc1 (Hsound1 p Hp)). }
  assert (map (cps_cells m2) res2 = map cells (map (key m2) res2)) as ->.
  { rewrite map_map. apply map_ext_in. intros p Hp.
    exact (cps_cells_words m2 raw2 _ _ p Henc2 (Hsound2 p Hp)). }
  now apply Permutation_map.
Qed.

Lemma cps_rows_independent_of_shuffle_witness :
  let m1 := CPS.load_directory "*.txt" tokenize no_words insertion_order keep_all
              three_entries empty_miner in
  let m2 := CPS.load_directory "*.txt" tokenize no_words (@rev CPS.DirEntry) keep_all
              three_entries empty_miner in
  exists res1 res2,
    CPS.found_phrases insertion_order insertion_order never m1 1 1 10 = Done res1 /\
    CPS.found_phrases insertion_order insertion_order never m2 1 1 10 = Done res2 /\
    Permutation (map (cps_cells m1) res1) (map (cps_cells m2) res2).
Proof.
  intros m1 m2.
  destruct (cps_rows_independent_of_shuffle insertion_order insertion_order
              insertion_order insertion_order insertion_order insertion_order
              "*.txt" tokenize no_words insertion_order (@rev CPS.DirEntry) keep_all
              three_entries 1 1 10)
    as (res1 & res2 & H1 & H2 & _ & _ & Hcells).
  - apply insertion_order_perm.
  - apply insertion_order_perm.
  - apply Permutation_refl.
  - apply Permutation_sym, Permutation_rev.
  - vm_compute. lia.
  - vm_compute. reflexivity.
  - vm_compute. reflexivity.
  - lia.
  - repeat (constructor; [vm_compute; lia |]). constructor.
  - exists res1, res2. split; [exact H1 | split; [exact H2 | exact Hcells]].
Defined.
